(** * The inertia-tensor pair engine of halotools, embedded in Rocq

    Source: [inertia_tensor_per_object_engine] (Cython).  The engine walks
    the cells of the first mesh of a [RectangularDoubleMesh], for each one
    the window of cells of the second mesh, and for every pair of points
    closer than [rsmooth] adds the weighted products of the separation to
    the 3x3 tensor of the first point and the weight to its weight sum.
    The marking functions [gamma_plus_func] and [gamma_cross_func] of the
    projected pair counters follow the engine.

    Conventions of the embedding.
    - [float64] is an interface ([Float64]) with instances: binary64 itself
      (the kernel's primitive floats), exact rationals, exact integers and,
      for the marking functions, exact reals.  Concrete runs are evaluated
      on the first three.  A theorem says for which arithmetic it is
      stated: every instance, binary64, or exact rationals; the few that
      take algebraic laws as hypotheses hold in exact arithmetic, rounding
      arithmetic has these laws only in part.
    - C [int] and [int64] values are integers of [Z].  The assignment of a
      Python integer to a [cdef] variable (lines 53-57, 87-92, 98-103)
      raises [OverflowError] when the value does not fit.  Past these
      conversions the index arithmetic of the loop nest, and the
      conversions between C types, are assumed not to overflow (signed
      overflow is undefined in C).  [//] and [%] are Python's (floor)
      division and modulo, which raise [ZeroDivisionError] on a zero
      divisor.
    - The index arrays of a mesh ([idx_sorted], [cell_id_indices]) are
      arrays of int64, as the mesh builds them; lines 79-80 copy them.
    - The attributes of the double mesh that are numbers with a fraction
      are float64 values, as numpy has them: a division by zero gives an
      infinity or NaN, not an exception.
    - The source switches bounds checking off.  A read or write outside a
      buffer, undefined there, is the explicit error [OutOfBounds] here.  A
      slice [a[lo:hi]] is kept as its offset [lo] into [a].
    - Exceptions are the left summand of [M].

    The definitions come first: the engine, the list of pairs its loop nest
    goes through ([events]), the engine on a store of arrays, checks of a
    valid grid and of buffers that are large enough, the marking functions,
    and concrete inputs.  The facts follow. *)

From Stdlib Require Import ZArith QArith Qround Lia Lqa List Floats.
From Stdlib Require Reals Lra.
From stdpp Require Import base option list.
Import ListNotations.

Local Open Scope Z_scope.

(** ** Exceptions *)

Inductive exn : Set :=
| IndexError          (* numpy fancy indexing out of range *)
| ZeroDivisionError   (* [//] or [%] by zero *)
| ValueError          (* [int(q)] of a quotient that is NaN *)
| OverflowError       (* a Python integer too large for the C type it is
                         assigned to; [int(q)] of an infinite quotient *)
| OutOfBounds         (* unchecked buffer access outside the buffer *)
| TypeError.          (* an argument that is not an array of floats *)

Definition M (A : Type) : Type := (exn + A)%type.

Definition ret {A} (a : A) : M A := inr a.
Definition raise {A} (e : exn) : M A := inl e.
Definition bind {A B} (c : M A) (k : A -> M B) : M B :=
  match c with
  | inl e => inl e
  | inr a => k a
  end.

Notation "'let*' x ':=' c 'in' k" := (bind c (fun x => k))
  (at level 10, x name, c at level 100, k at level 200).

Fixpoint mapM {A B} (f : A -> M B) (l : list A) : M (list B) :=
  match l with
  | [] => ret []
  | a :: l' => let* b := f a in let* bs := mapM f l' in ret (b :: bs)
  end.

(** [for k in l: s = body k s] *)
Fixpoint for_ {K S} (l : list K) (body : K -> S -> M S) (s : S) : M S :=
  match l with
  | [] => ret s
  | k :: l' => let* s' := body k s in for_ l' body s'
  end.

(** Python's [range(lo, hi)]. *)
Definition range (lo hi : Z) : list Z := seqZ lo (hi - lo).

(** Python's [a // b] and [a % b] on integers. *)
Definition floordiv (a b : Z) : M Z :=
  if b =? 0 then raise ZeroDivisionError else ret (a / b).
Definition pymod (a b : Z) : M Z :=
  if b =? 0 then raise ZeroDivisionError else ret (a mod b).

(** The assignment of a Python integer to a [cdef int] and to a [cdef
    int64] variable: the value, or [OverflowError] when it does not fit. *)
Definition fits_c_int (z : Z) : bool := (- 2 ^ 31 <=? z) && (z <? 2 ^ 31).
Definition fits_c_int64 (z : Z) : bool := (- 2 ^ 63 <=? z) && (z <? 2 ^ 63).

Definition to_c_int (z : Z) : M Z :=
  if fits_c_int z then ret z else raise OverflowError.
Definition to_c_int64 (z : Z) : M Z :=
  if fits_c_int64 z then ret z else raise OverflowError.

(** ** Buffers *)

(** [a[k]] on a typed memoryview, negative indices not wrapped. *)
Definition at_ {A} (a : list A) (k : Z) : M A :=
  if k <? 0 then raise OutOfBounds
  else match a !! Z.to_nat k with
       | Some v => ret v
       | None => raise OutOfBounds
       end.

(** [a[k] = f (a[k])] *)
Definition upd {A} (a : list A) (k : Z) (f : A -> A) : M (list A) :=
  let* v := at_ a k in ret (<[Z.to_nat k := f v]> a).

(** [a[idx]] for an integer array [idx]: numpy's fancy indexing, which
    returns a new array, counts a negative index from the end and raises
    [IndexError] outside [-len a, len a). *)
Definition np_index {A} (a : list A) (k : Z) : M A :=
  let n := Z.of_nat (length a) in
  if (0 <=? k) && (k <? n) then at_ a k
  else if (- n <=? k) && (k <? 0) then at_ a (k + n)
  else raise IndexError.

Definition np_take {A} (a : list A) (idx : list Z) : M (list A) :=
  mapM (np_index a) idx.

(** ** float64 *)

(** What [np.ceil(a / b)] is: an integer value, an infinity or NaN. *)
Inductive ceiling : Set :=
| Ceil (n : Z)
| CeilInf
| CeilNaN.

Class Float64 (F : Type) : Type := {
  f_zero : F;
  f_add : F -> F -> F;
  f_sub : F -> F -> F;
  f_mul : F -> F -> F;
  f_neg : F -> F;
  f_ltb : F -> F -> bool;
  (* conversion of a C int, as in [xperiod*PBCs] *)
  f_of_int : Z -> F;
  (* [np.ceil(a / b)], the quotient being that of float64: infinite for a
     divisor zero, NaN for 0 / 0 *)
  f_ceil_quot : F -> F -> ceiling
}.

Declare Scope f64_scope.
Delimit Scope f64_scope with f64.
Notation "x + y" := (f_add x y) : f64_scope.
Notation "x - y" := (f_sub x y) : f64_scope.
Notation "x * y" := (f_mul x y) : f64_scope.
Notation "- x" := (f_neg x) : f64_scope.
Notation "x <? y" := (f_ltb x y) : f64_scope.

(** *** binary64: the kernel's primitive floats *)

(** The ceiling of a binary64 value. *)
Definition float_ceil (x : float) : ceiling :=
  match Prim2SF x with
  | S754_zero _ => Ceil 0
  | S754_finite s m e =>
      let n := if s then Z.neg m else Z.pos m in
      Ceil (if 0 <=? e then n * 2 ^ e else - ((- n) / 2 ^ (- e)))
  | S754_infinity _ => CeilInf
  | S754_nan => CeilNaN
  end.

Definition float_of_int (z : Z) : float :=
  if z <? 0 then PrimFloat.opp (PrimFloat.of_uint63 (Uint63.of_Z (- z)))
  else PrimFloat.of_uint63 (Uint63.of_Z z).

#[export] Instance binary64 : Float64 float := {|
  f_zero := PrimFloat.zero;
  f_add := PrimFloat.add;
  f_sub := PrimFloat.sub;
  f_mul := PrimFloat.mul;
  f_neg := PrimFloat.opp;
  f_ltb := PrimFloat.ltb;
  f_of_int := float_of_int;
  f_ceil_quot := fun a b => float_ceil (PrimFloat.div a b)
|}.

(** *** exact rationals *)

Definition Qltb (a b : Q) : bool :=
  match Qcompare a b with Lt => true | _ => false end.

#[export] Instance exactQ : Float64 Q := {|
  f_zero := 0%Q;
  f_add := Qplus;
  f_sub := Qminus;
  f_mul := Qmult;
  f_neg := Qopp;
  f_ltb := Qltb;
  f_of_int := inject_Z;
  f_ceil_quot := fun a b =>
    if Qeq_bool b 0 then (if Qeq_bool a 0 then CeilNaN else CeilInf)
    else Ceil (Qceiling (a / b))
|}.

(** *** exact integers: integer-valued coordinates, the quotient taken in
    the rationals before the ceiling *)

#[export] Instance exactZ : Float64 Z := {|
  f_zero := 0;
  f_add := Z.add;
  f_sub := Z.sub;
  f_mul := Z.mul;
  f_neg := Z.opp;
  f_ltb := Z.ltb;
  f_of_int := fun z => z;
  f_ceil_quot := fun a b =>
    if b =? 0 then (if a =? 0 then CeilNaN else CeilInf)
    else Ceil (- ((- a) / b))
|}.

(** ** Data model *)

Section Engine.

Context {F : Type} `{Float64 F}.

(** One row [inertia_tensor[p, :, :]] of the output array. *)
Record tensor : Type := {
  t00 : F; t01 : F; t02 : F;
  t10 : F; t11 : F; t12 : F;
  t20 : F; t21 : F; t22 : F
}.

Definition tensor_zero : tensor :=
  {| t00 := f_zero; t01 := f_zero; t02 := f_zero;
     t10 := f_zero; t11 := f_zero; t12 := f_zero;
     t20 := f_zero; t21 := f_zero; t22 := f_zero |}.

(** What the engine reads of a [RectangularMesh]. *)
Record mesh : Type := {
  ncells : Z;
  idx_sorted : list Z;
  cell_id_indices : list Z;
  num_xdivs : Z; num_ydivs : Z; num_zdivs : Z;
  xcell_size : F; ycell_size : F; zcell_size : F
}.

(** What the engine reads of a [RectangularDoubleMesh]. *)
Record double_mesh : Type := {
  mesh1 : mesh;
  mesh2 : mesh;
  xperiod : F; yperiod : F; zperiod : F;
  search_xlength : F; search_ylength : F; search_zlength : F;
  _PBCs : Z
}.

(** The two arrays the loop nest writes. *)
Record accum : Type := {
  inertia_tensor : list tensor;
  sum_weights : list F
}.

(** The [cdef] locals that are set before the loop nest (lines 49-118);
    [l_xperiod], [l_yperiod] and [l_zperiod] are the locals [xperiod],
    [yperiod] and [zperiod]. *)
Record locals : Type := {
  rsmooth_squared : F;
  l_xperiod : F; l_yperiod : F; l_zperiod : F;
  PBCs : Z;
  x1_sorted : list F; y1_sorted : list F; z1_sorted : list F;
  x2_sorted : list F; y2_sorted : list F; z2_sorted : list F;
  w2_sorted : list F;
  cell1_indices : list Z;
  cell2_indices : list Z;
  num_x2_covering_steps : Z;
  num_y2_covering_steps : Z;
  num_z2_covering_steps : Z;
  num_x1divs : Z; num_y1divs : Z; num_z1divs : Z;
  num_x2divs : Z; num_y2divs : Z; num_z2divs : Z;
  num_x2_per_x1 : Z; num_y2_per_y1 : Z; num_z2_per_z1 : Z
}.

(** ** The innermost block (lines 199-228) *)

(** Lines 215-226: nine [+=] on the nine entries of row [ifirst1 + i]. *)
Definition add_products (xx yy zz xy xz yz : F) (t : tensor) : tensor :=
  {| t00 := (t00 t + xx)%f64; t01 := (t01 t + xy)%f64; t02 := (t02 t + xz)%f64;
     t10 := (t10 t + xy)%f64; t11 := (t11 t + yy)%f64; t12 := (t12 t + yz)%f64;
     t20 := (t20 t + xz)%f64; t21 := (t21 t + yz)%f64; t22 := (t22 t + zz)%f64 |}.

Definition dist_sq (dx dy dz : F) : F := (dx * dx + dy * dy + dz * dz)%f64.

(** The body of the loop over [j], for the point [p = ifirst1 + i] of
    sample 1 and the point [q = ifirst2 + j] of sample 2. *)
Definition pair_block (L : locals) (p : Z) (x1tmp y1tmp z1tmp : F) (q : Z)
    (st : accum) : M accum :=
  let* x2 := at_ (x2_sorted L) q in
  let* y2 := at_ (y2_sorted L) q in
  let* z2 := at_ (z2_sorted L) q in
  let dx := (x1tmp - x2)%f64 in
  let dy := (y1tmp - y2)%f64 in
  let dz := (z1tmp - z2)%f64 in
  let dsq := dist_sq dx dy dz in
  let* w2 := at_ (w2_sorted L) q in
  if (dsq <? rsmooth_squared L)%f64 then
    let xx := (dx * dx * w2)%f64 in
    let yy := (dy * dy * w2)%f64 in
    let zz := (dz * dz * w2)%f64 in
    let xy := (dx * dy * w2)%f64 in
    let xz := (dx * dz * w2)%f64 in
    let yz := (dy * dz * w2)%f64 in
    let* T := upd (inertia_tensor st) p (add_products xx yy zz xy xz yz) in
    let* W := upd (sum_weights st) p (fun s => (s + w2)%f64) in
    ret {| inertia_tensor := T; sum_weights := W |}
  else ret st.

(** ** The loop nest (lines 121-198)

    The nest is written over any state [S] and any innermost block
    [on_pair]: it is run with [pair_block] on the two output arrays and
    with [pair_block_in_store] on a store of arrays. *)

(** Lines 144-149: the shift of the points of sample 1 for an unwrapped
    cell coordinate. *)
Definition axis_shift (L : locals) (period : F) (nonPBC num_divs : Z) : F :=
  if nonPBC <? 0 then (- period * f_of_int (PBCs L))%f64
  else if nonPBC >=? num_divs then (period * f_of_int (PBCs L))%f64
  else f_zero.

Section LoopNest.

Context {S : Type}.
Variable on_pair : Z -> F -> F -> F -> Z -> S -> M S.
Variable L : locals.

(** Line 198 *)
Definition loop_j (p : Z) (x1tmp y1tmp z1tmp : F) (ifirst2 Nj : Z) : S -> M S :=
  for_ (range 0 Nj) (fun j => on_pair p x1tmp y1tmp z1tmp (ifirst2 + j)).

(** Lines 186-198: the body of the loop over [i]. *)
Definition i_block (ifirst1 : Z) (x2shift y2shift z2shift : F) (ifirst2 Nj : Z)
    (i : Z) (s : S) : M S :=
  let* x1 := at_ (x1_sorted L) (ifirst1 + i) in
  let* y1 := at_ (y1_sorted L) (ifirst1 + i) in
  let* z1 := at_ (z1_sorted L) (ifirst1 + i) in
  let x1tmp := (x1 - x2shift)%f64 in
  let y1tmp := (y1 - y2shift)%f64 in
  let z1tmp := (z1 - z2shift)%f64 in
  loop_j (ifirst1 + i) x1tmp y1tmp z1tmp ifirst2 Nj s.

(** Line 185 *)
Definition loop_i (ifirst1 Ni : Z) (x2shift y2shift z2shift : F) (ifirst2 Nj : Z)
  : S -> M S :=
  for_ (range 0 Ni) (i_block ifirst1 x2shift y2shift z2shift ifirst2 Nj).

(** Lines 173-185: what is done for the cell [(ix2, iy2, iz2)] of mesh 2. *)
Definition cell2_block (ifirst1 Ni : Z) (x2shift : F) (ix2 : Z) (y2shift : F)
    (iy2 : Z) (z2shift : F) (iz2 : Z) (s : S) : M S :=
  let icell2 := ix2 * (num_y2divs L * num_z2divs L) + iy2 * num_z2divs L + iz2 in
  let* ifirst2 := at_ (cell2_indices L) icell2 in
  let* ilast2 := at_ (cell2_indices L) (icell2 + 1) in
  let Nj := ilast2 - ifirst2 in
  if Nj >? 0 then loop_i ifirst1 Ni x2shift y2shift z2shift ifirst2 Nj s
  else ret s.

(** Lines 164-171: the body of the loop over [nonPBC_iz2]. *)
Definition iz2_block (ifirst1 Ni : Z) (x2shift : F) (ix2 : Z) (y2shift : F)
    (iy2 : Z) (nonPBC_iz2 : Z) (s : S) : M S :=
  let z2shift := axis_shift L (l_zperiod L) nonPBC_iz2 (num_z2divs L) in
  let* iz2 := pymod nonPBC_iz2 (num_z2divs L) in
  cell2_block ifirst1 Ni x2shift ix2 y2shift iy2 z2shift iz2 s.

(** Line 163 *)
Definition loop_iz2 (ifirst1 Ni iz1 : Z) (x2shift : F) (ix2 : Z) (y2shift : F)
    (iy2 : Z) : S -> M S :=
  let leftmost_iz2 := iz1 * num_z2_per_z1 L - num_z2_covering_steps L in
  let rightmost_iz2 := (iz1 + 1) * num_z2_per_z1 L + num_z2_covering_steps L in
  for_ (range leftmost_iz2 rightmost_iz2)
       (iz2_block ifirst1 Ni x2shift ix2 y2shift iy2).

(** Lines 154-161: the body of the loop over [nonPBC_iy2]. *)
Definition iy2_block (ifirst1 Ni iz1 : Z) (x2shift : F) (ix2 : Z)
    (nonPBC_iy2 : Z) (s : S) : M S :=
  let y2shift := axis_shift L (l_yperiod L) nonPBC_iy2 (num_y2divs L) in
  let* iy2 := pymod nonPBC_iy2 (num_y2divs L) in
  loop_iz2 ifirst1 Ni iz1 x2shift ix2 y2shift iy2 s.

(** Line 153 *)
Definition loop_iy2 (ifirst1 Ni iy1 iz1 : Z) (x2shift : F) (ix2 : Z) : S -> M S :=
  let leftmost_iy2 := iy1 * num_y2_per_y1 L - num_y2_covering_steps L in
  let rightmost_iy2 := (iy1 + 1) * num_y2_per_y1 L + num_y2_covering_steps L in
  for_ (range leftmost_iy2 rightmost_iy2) (iy2_block ifirst1 Ni iz1 x2shift ix2).

(** Lines 144-151: the body of the loop over [nonPBC_ix2]. *)
Definition ix2_block (ifirst1 Ni iy1 iz1 : Z) (nonPBC_ix2 : Z) (s : S) : M S :=
  let x2shift := axis_shift L (l_xperiod L) nonPBC_ix2 (num_x2divs L) in
  let* ix2 := pymod nonPBC_ix2 (num_x2divs L) in
  loop_iy2 ifirst1 Ni iy1 iz1 x2shift ix2 s.

(** Line 143 *)
Definition loop_ix2 (ifirst1 Ni ix1 iy1 iz1 : Z) : S -> M S :=
  let leftmost_ix2 := ix1 * num_x2_per_x1 L - num_x2_covering_steps L in
  let rightmost_ix2 := (ix1 + 1) * num_x2_per_x1 L + num_x2_covering_steps L in
  for_ (range leftmost_ix2 rightmost_ix2) (ix2_block ifirst1 Ni iy1 iz1).

(** Lines 122-141: the body of the loop over the cells of mesh 1. *)
Definition cell1_block (icell1 : Z) (s : S) : M S :=
  let* ifirst1 := at_ (cell1_indices L) icell1 in
  let* ilast1 := at_ (cell1_indices L) (icell1 + 1) in
  let Ni := ilast1 - ifirst1 in
  if Ni >? 0 then
    let* ix1 := floordiv icell1 (num_y1divs L * num_z1divs L) in
    let* iy1 := floordiv (icell1 - ix1 * num_y1divs L * num_z1divs L) (num_z1divs L) in
    let iz1 := icell1 - ix1 * num_y1divs L * num_z1divs L - iy1 * num_z1divs L in
    loop_ix2 ifirst1 Ni ix1 iy1 iz1 s
  else ret s.

(** Line 121 *)
Definition cell1_loop (first_cell1_element last_cell1_element : Z) : S -> M S :=
  for_ (range first_cell1_element last_cell1_element) cell1_block.

End LoopNest.

(** ** The engine *)

(** Lines 87-92: [int(np.ceil(a / b))], assigned to a [cdef int].  [int]
    raises [OverflowError] for an infinity and [ValueError] for NaN. *)
Definition covering_steps (a b : F) : M Z :=
  match f_ceil_quot a b with
  | Ceil n => to_c_int n
  | CeilInf => raise OverflowError
  | CeilNaN => raise ValueError
  end.

(** Lines 49-118, but for the two conversions of lines 53 and 54, which
    the engine makes before it. *)
Definition setup (dm : double_mesh) (x1in y1in z1in x2in y2in z2in weights2in : list F)
    (rsmooth : F) : M locals :=
  (* lines 55 and 57 *)
  let* pbcs := to_c_int (_PBCs dm) in
  let* Ncell1 := to_c_int (ncells (mesh1 dm)) in
  (* lines 59-73 *)
  let* x1s := np_take x1in (idx_sorted (mesh1 dm)) in
  let* y1s := np_take y1in (idx_sorted (mesh1 dm)) in
  let* z1s := np_take z1in (idx_sorted (mesh1 dm)) in
  let* x2s := np_take x2in (idx_sorted (mesh2 dm)) in
  let* y2s := np_take y2in (idx_sorted (mesh2 dm)) in
  let* z2s := np_take z2in (idx_sorted (mesh2 dm)) in
  let* w2s := np_take weights2in (idx_sorted (mesh2 dm)) in
  let* cx := covering_steps (search_xlength dm) (xcell_size (mesh2 dm)) in
  let* cy := covering_steps (search_ylength dm) (ycell_size (mesh2 dm)) in
  let* cz := covering_steps (search_zlength dm) (zcell_size (mesh2 dm)) in
  (* lines 98-103 *)
  let* n1x := to_c_int (num_xdivs (mesh1 dm)) in
  let* n1y := to_c_int (num_ydivs (mesh1 dm)) in
  let* n1z := to_c_int (num_zdivs (mesh1 dm)) in
  let* n2x := to_c_int (num_xdivs (mesh2 dm)) in
  let* n2y := to_c_int (num_ydivs (mesh2 dm)) in
  let* n2z := to_c_int (num_zdivs (mesh2 dm)) in
  (* lines 104-106 *)
  let* rx := floordiv n2x n1x in
  let* ry := floordiv n2y n1y in
  let* rz := floordiv n2z n1z in
  ret {| rsmooth_squared := (rsmooth * rsmooth)%f64;
         l_xperiod := xperiod dm; l_yperiod := yperiod dm; l_zperiod := zperiod dm;
         PBCs := pbcs;
         x1_sorted := x1s; y1_sorted := y1s; z1_sorted := z1s;
         x2_sorted := x2s; y2_sorted := y2s; z2_sorted := z2s;
         w2_sorted := w2s;
         cell1_indices := cell_id_indices (mesh1 dm);
         cell2_indices := cell_id_indices (mesh2 dm);
         num_x2_covering_steps := cx;
         num_y2_covering_steps := cy;
         num_z2_covering_steps := cz;
         num_x1divs := n1x; num_y1divs := n1y; num_z1divs := n1z;
         num_x2divs := n2x; num_y2divs := n2y; num_z2divs := n2z;
         num_x2_per_x1 := rx; num_y2_per_y1 := ry; num_z2_per_z1 := rz |}.

(** Lines 76 and 118: [np.zeros]. *)
Definition accum_zero (npts1 : nat) : accum :=
  {| inertia_tensor := replicate npts1 tensor_zero;
     sum_weights := replicate npts1 f_zero |}.

(** [unsorting_indices] is imported from [halotools.utils]; the engine
    takes it as a parameter. *)
Variable unsorting_indices : list Z -> list Z.

Definition inertia_tensor_per_object_engine (dm : double_mesh)
    (x1in y1in z1in x2in y2in z2in weights2in : list F) (rsmooth : F)
    (cell1_tuple : Z * Z) : M (list tensor * list F) :=
  (* lines 53 and 54 *)
  let* first_cell1_element := to_c_int64 (fst cell1_tuple) in
  let* last_cell1_element := to_c_int64 (snd cell1_tuple) in
  let* L := setup dm x1in y1in z1in x2in y2in z2in weights2in rsmooth in
  let npts1 := length (x1_sorted L) in
  let* st := cell1_loop (pair_block L) L first_cell1_element last_cell1_element
               (accum_zero npts1) in
  let idx_unsorted := unsorting_indices (idx_sorted (mesh1 dm)) in
  let* sum_weights_array := np_take (sum_weights st) idx_unsorted in
  let* sorted_tensor := np_take (inertia_tensor st) idx_unsorted in
  ret (sorted_tensor, sum_weights_array).

(** ** The iteration space of the loop nest

    The pairs the nest hands to its innermost block, in the order of the
    loops, as a list: an [event] is the tuple [(p, x1tmp, y1tmp, z1tmp, q)]
    of one call.  [nest_events] (below) shows that a run of the nest that
    returns is the fold of the innermost block over this list. *)

Definition event : Type := (Z * F * F * F * Z)%type.

Definition on_event {S} (on_pair : Z -> F -> F -> F -> Z -> S -> M S) (e : event)
  : S -> M S :=
  let '(p, x1tmp, y1tmp, z1tmp, q) := e in on_pair p x1tmp y1tmp z1tmp q.

Definition ev_pq (e : event) : Z * Z :=
  let '(p, _, _, _, q) := e in (p, q).

(** A read that has already been checked. *)
Definition rd {A} (d : A) (a : list A) (k : Z) : A := default d (a !! Z.to_nat k).

Section Events.

Variable L : locals.

Definition events_j (p : Z) (x1tmp y1tmp z1tmp : F) (ifirst2 Nj : Z) : list event :=
  (fun j => (p, x1tmp, y1tmp, z1tmp, ifirst2 + j)) <$> range 0 Nj.

Definition events_i_block (ifirst1 : Z) (x2shift y2shift z2shift : F) (ifirst2 Nj : Z)
    (i : Z) : list event :=
  events_j (ifirst1 + i)
    (rd f_zero (x1_sorted L) (ifirst1 + i) - x2shift)%f64
    (rd f_zero (y1_sorted L) (ifirst1 + i) - y2shift)%f64
    (rd f_zero (z1_sorted L) (ifirst1 + i) - z2shift)%f64
    ifirst2 Nj.

Definition events_i (ifirst1 Ni : Z) (x2shift y2shift z2shift : F) (ifirst2 Nj : Z)
  : list event :=
  range 0 Ni ≫= events_i_block ifirst1 x2shift y2shift z2shift ifirst2 Nj.

Definition icell2_of (ix2 iy2 iz2 : Z) : Z :=
  ix2 * (num_y2divs L * num_z2divs L) + iy2 * num_z2divs L + iz2.

Definition events_cell2 (ifirst1 Ni : Z) (x2shift : F) (ix2 : Z) (y2shift : F)
    (iy2 : Z) (z2shift : F) (iz2 : Z) : list event :=
  let ifirst2 := rd 0 (cell2_indices L) (icell2_of ix2 iy2 iz2) in
  let ilast2 := rd 0 (cell2_indices L) (icell2_of ix2 iy2 iz2 + 1) in
  if ilast2 - ifirst2 >? 0
  then events_i ifirst1 Ni x2shift y2shift z2shift ifirst2 (ilast2 - ifirst2)
  else [].

Definition events_iz2_block (ifirst1 Ni : Z) (x2shift : F) (ix2 : Z) (y2shift : F)
    (iy2 : Z) (nonPBC_iz2 : Z) : list event :=
  events_cell2 ifirst1 Ni x2shift ix2 y2shift iy2
    (axis_shift L (l_zperiod L) nonPBC_iz2 (num_z2divs L))
    (nonPBC_iz2 mod num_z2divs L).

Definition events_iz2 (ifirst1 Ni iz1 : Z) (x2shift : F) (ix2 : Z) (y2shift : F)
    (iy2 : Z) : list event :=
  range (iz1 * num_z2_per_z1 L - num_z2_covering_steps L)
        ((iz1 + 1) * num_z2_per_z1 L + num_z2_covering_steps L)
    ≫= events_iz2_block ifirst1 Ni x2shift ix2 y2shift iy2.

Definition events_iy2_block (ifirst1 Ni iz1 : Z) (x2shift : F) (ix2 : Z)
    (nonPBC_iy2 : Z) : list event :=
  events_iz2 ifirst1 Ni iz1 x2shift ix2
    (axis_shift L (l_yperiod L) nonPBC_iy2 (num_y2divs L))
    (nonPBC_iy2 mod num_y2divs L).

Definition events_iy2 (ifirst1 Ni iy1 iz1 : Z) (x2shift : F) (ix2 : Z) : list event :=
  range (iy1 * num_y2_per_y1 L - num_y2_covering_steps L)
        ((iy1 + 1) * num_y2_per_y1 L + num_y2_covering_steps L)
    ≫= events_iy2_block ifirst1 Ni iz1 x2shift ix2.

Definition events_ix2_block (ifirst1 Ni iy1 iz1 : Z) (nonPBC_ix2 : Z) : list event :=
  events_iy2 ifirst1 Ni iy1 iz1
    (axis_shift L (l_xperiod L) nonPBC_ix2 (num_x2divs L))
    (nonPBC_ix2 mod num_x2divs L).

Definition events_ix2 (ifirst1 Ni ix1 iy1 iz1 : Z) : list event :=
  range (ix1 * num_x2_per_x1 L - num_x2_covering_steps L)
        ((ix1 + 1) * num_x2_per_x1 L + num_x2_covering_steps L)
    ≫= events_ix2_block ifirst1 Ni iy1 iz1.

Definition ix1_of (icell1 : Z) : Z := icell1 / (num_y1divs L * num_z1divs L).
Definition iy1_of (icell1 : Z) : Z :=
  (icell1 - ix1_of icell1 * num_y1divs L * num_z1divs L) / num_z1divs L.
Definition iz1_of (icell1 : Z) : Z :=
  icell1 - ix1_of icell1 * num_y1divs L * num_z1divs L - iy1_of icell1 * num_z1divs L.

Definition events_cell1 (icell1 : Z) : list event :=
  let ifirst1 := rd 0 (cell1_indices L) icell1 in
  let ilast1 := rd 0 (cell1_indices L) (icell1 + 1) in
  if ilast1 - ifirst1 >? 0
  then events_ix2 ifirst1 (ilast1 - ifirst1) (ix1_of icell1) (iy1_of icell1)
         (iz1_of icell1)
  else [].

Definition events (first_cell1_element last_cell1_element : Z) : list event :=
  range first_cell1_element last_cell1_element ≫= events_cell1.

(** The event of the point [p] of sample 1, the point [q] of sample 2 and
    the unwrapped cell coordinates [(a, b, c)]. *)
Definition event_at (p q a b c : Z) : event :=
  (p,
   (rd f_zero (x1_sorted L) p - axis_shift L (l_xperiod L) a (num_x2divs L))%f64,
   (rd f_zero (y1_sorted L) p - axis_shift L (l_yperiod L) b (num_y2divs L))%f64,
   (rd f_zero (z1_sorted L) p - axis_shift L (l_zperiod L) c (num_z2divs L))%f64,
   q).

(** The squared separation that the innermost block computes for an
    event. *)
Definition event_dist_sq (e : event) : F :=
  let '(_, x1tmp, y1tmp, z1tmp, q) := e in
  dist_sq (x1tmp - rd f_zero (x2_sorted L) q)%f64
          (y1tmp - rd f_zero (y2_sorted L) q)%f64
          (z1tmp - rd f_zero (z2_sorted L) q)%f64.

End Events.

(** ** Element-wise sums of results *)

Definition tensor_add (t u : tensor) : tensor :=
  {| t00 := (t00 t + t00 u)%f64; t01 := (t01 t + t01 u)%f64; t02 := (t02 t + t02 u)%f64;
     t10 := (t10 t + t10 u)%f64; t11 := (t11 t + t11 u)%f64; t12 := (t12 t + t12 u)%f64;
     t20 := (t20 t + t20 u)%f64; t21 := (t21 t + t21 u)%f64; t22 := (t22 t + t22 u)%f64 |}.

Definition accum_add (s d : accum) : accum :=
  {| inertia_tensor := zip_with tensor_add (inertia_tensor s) (inertia_tensor d);
     sum_weights := zip_with f_add (sum_weights s) (sum_weights d) |}.

Definition result_add (r1 r2 : list tensor * list F) : list tensor * list F :=
  (zip_with tensor_add (fst r1) (fst r2), zip_with f_add (snd r1) (snd r2)).

(** ** Well-formed grids *)

(** [a[0] <= a[1] <= ...] *)
Fixpoint nondecreasing (a : list Z) : bool :=
  match a with
  | x :: (y :: _) as t => (x <=? y) && nondecreasing t
  | _ => true
  end.

(** The point with sorted index [q] lies in the cell with id [k]. *)
Definition in_cell (a : list Z) (k q : Z) : Prop :=
  rd 0 a k <= q < rd 0 a (k + 1).

(** The index arrays are non-decreasing, the one of mesh 2 has an entry for
    every cell of mesh 2 and one more, and the range of cells of mesh 1 lies
    within the index array of mesh 1. *)
Definition indices_ok (L : locals) (first last : Z) : bool :=
  nondecreasing (cell1_indices L) && nondecreasing (cell2_indices L)
  && (0 <=? first) && (last <? Z.of_nat (length (cell1_indices L)))
  && (Z.of_nat (length (cell2_indices L))
      =? num_x2divs L * num_y2divs L * num_z2divs L + 1)
  && (0 <? num_x2divs L) && (0 <? num_y2divs L) && (0 <? num_z2divs L).

(** On every axis the window of a cell of mesh 1 spans no more cells than
    mesh 2 has. *)
Definition window_fits (L : locals) : bool :=
  (num_x2_per_x1 L + 2 * num_x2_covering_steps L <=? num_x2divs L)
  && (num_y2_per_y1 L + 2 * num_y2_covering_steps L <=? num_y2divs L)
  && (num_z2_per_z1 L + 2 * num_z2_covering_steps L <=? num_z2divs L).


Definition symmetric (t : tensor) : Prop :=
  t01 t = t10 t /\ t02 t = t20 t /\ t12 t = t21 t.

(** ** The engine on a store of arrays

    In Python the arguments are references to arrays that the caller keeps.
    Here a [store] holds every array there is, a reference is an index into
    it, and allocation appends.  [engine_in_store] is the engine with its
    allocations and its writes made on the store: fancy indexing, [np.zeros]
    and [np.array] allocate, the [+=] of the innermost block write.  The
    sorted copies are bound to memoryviews that are only read; the locals
    keep their contents. *)

Inductive array : Type :=
| Floats (a : list F)          (* shape (n,) *)
| Tensors (a : list tensor).   (* shape (n, 3, 3) *)

Local Abbreviation store := (list array).
Local Abbreviation ref := nat.

Definition alloc (h : store) (a : array) : store * ref := (h ++ [a], length h).

Definition load_floats (h : store) (r : ref) : M (list F) :=
  match h !! r with
  | Some (Floats a) => ret a
  | _ => raise TypeError
  end.

Definition load_tensors (h : store) (r : ref) : M (list tensor) :=
  match h !! r with
  | Some (Tensors a) => ret a
  | _ => raise TypeError
  end.

(** [h[r][k] = f (h[r][k])] *)
Definition store_upd_floats (h : store) (r : ref) (k : Z) (f : F -> F) : M store :=
  let* a := load_floats h r in
  let* a' := upd a k f in
  ret (<[r := Floats a']> h).

Definition store_upd_tensors (h : store) (r : ref) (k : Z) (f : tensor -> tensor)
  : M store :=
  let* a := load_tensors h r in
  let* a' := upd a k f in
  ret (<[r := Tensors a']> h).

(** Lines 199-228, with [inertia_tensor] and [sum_weights] in the store. *)
Definition pair_block_in_store (r_tensor r_weights : ref) (L : locals) (p : Z)
    (x1tmp y1tmp z1tmp : F) (q : Z) (h : store) : M store :=
  let* x2 := at_ (x2_sorted L) q in
  let* y2 := at_ (y2_sorted L) q in
  let* z2 := at_ (z2_sorted L) q in
  let dx := (x1tmp - x2)%f64 in
  let dy := (y1tmp - y2)%f64 in
  let dz := (z1tmp - z2)%f64 in
  let dsq := dist_sq dx dy dz in
  let* w2 := at_ (w2_sorted L) q in
  if (dsq <? rsmooth_squared L)%f64 then
    let xx := (dx * dx * w2)%f64 in
    let yy := (dy * dy * w2)%f64 in
    let zz := (dz * dz * w2)%f64 in
    let xy := (dx * dy * w2)%f64 in
    let xz := (dx * dz * w2)%f64 in
    let yz := (dy * dz * w2)%f64 in
    let* h1 := store_upd_tensors h r_tensor p (add_products xx yy zz xy xz yz) in
    store_upd_floats h1 r_weights p (fun s => (s + w2)%f64)
  else ret h.

(** The stores [h] and [h'] differ at most in the arrays [r1] and [r2]. *)
Definition same_elsewhere (r1 r2 : ref) (h h' : store) : Prop :=
  length h' = length h /\ forall r, r <> r1 -> r <> r2 -> h' !! r = h !! r.

Definition engine_in_store (h : store) (dm : double_mesh)
    (x1in y1in z1in x2in y2in z2in weights2in : ref) (rsmooth : F)
    (cell1_tuple : Z * Z) : M (store * (ref * ref)) :=
  (* lines 53-57, which come before the first array is read; [setup]
     makes the conversions of lines 55 and 57 again *)
  let* first_cell1_element := to_c_int64 (fst cell1_tuple) in
  let* last_cell1_element := to_c_int64 (snd cell1_tuple) in
  let* pbcs := to_c_int (_PBCs dm) in
  let* Ncell1 := to_c_int (ncells (mesh1 dm)) in
  let* x1 := load_floats h x1in in
  let* y1 := load_floats h y1in in
  let* z1 := load_floats h z1in in
  let* x2 := load_floats h x2in in
  let* y2 := load_floats h y2in in
  let* z2 := load_floats h z2in in
  let* w2 := load_floats h weights2in in
  let* L := setup dm x1 y1 z1 x2 y2 z2 w2 rsmooth in
  (* lines 59-73: the sorted copies *)
  let h := h ++ [Floats (x1_sorted L); Floats (y1_sorted L); Floats (z1_sorted L);
                 Floats (x2_sorted L); Floats (y2_sorted L); Floats (z2_sorted L);
                 Floats (w2_sorted L)] in
  let npts1 := length (x1_sorted L) in
  (* lines 76 and 118 *)
  let '(h, r_tensor) := alloc h (Tensors (replicate npts1 tensor_zero)) in
  let '(h, r_weights) := alloc h (Floats (replicate npts1 f_zero)) in
  let* h := cell1_loop (pair_block_in_store r_tensor r_weights L) L
              first_cell1_element last_cell1_element h in
  (* lines 233-237 *)
  let* T := load_tensors h r_tensor in
  let '(h, _) := alloc h (Tensors T) in
  let* W := load_floats h r_weights in
  let '(h, _) := alloc h (Floats W) in
  let idx_unsorted := unsorting_indices (idx_sorted (mesh1 dm)) in
  let* W' := np_take W idx_unsorted in
  let '(h, r_sum_weights) := alloc h (Floats W') in
  let* T' := np_take T idx_unsorted in
  let '(h, r_sorted_tensor) := alloc h (Tensors T') in
  ret (h, (r_sorted_tensor, r_sum_weights)).

End Engine.

Arguments tensor F : clear implicits.
Arguments mesh F : clear implicits.
Arguments double_mesh F : clear implicits.
Arguments accum F : clear implicits.
Arguments locals F : clear implicits.
Arguments event F : clear implicits.
Arguments array F : clear implicits.
Abbreviation store F := (list (array F)).
Abbreviation ref := nat.

(** ** Valid grids, in exact rationals

    What the engine expects of the double mesh it is given, as checks on
    rational coordinates: the points are sorted into the cells they lie
    in, a cell of mesh 1 is a whole number of cells of mesh 2, the period
    is the extent of the grid, and the search lengths cover the radius. *)

Module Geometry.

(** [x] lies in the [i]-th cell of an axis whose cells have size [s]. *)
Definition in_slab (s : Q) (i : Z) (x : Q) : bool :=
  Qle_bool (inject_Z i * s) x && Qltb x (inject_Z (i + 1) * s).

Definition points2_in_cells (dm : double_mesh Q) (L : locals Q) : bool :=
  forallb (fun ix2 =>
    forallb (fun iy2 =>
      forallb (fun iz2 =>
        forallb (fun q =>
          in_slab (xcell_size (mesh2 dm)) ix2 (rd 0%Q (x2_sorted L) q)
          && in_slab (ycell_size (mesh2 dm)) iy2 (rd 0%Q (y2_sorted L) q)
          && in_slab (zcell_size (mesh2 dm)) iz2 (rd 0%Q (z2_sorted L) q))
          (range (rd 0 (cell2_indices L) (icell2_of L ix2 iy2 iz2))
                 (rd 0 (cell2_indices L) (icell2_of L ix2 iy2 iz2 + 1))))
        (range 0 (num_z2divs L)))
      (range 0 (num_y2divs L)))
    (range 0 (num_x2divs L)).

Definition points1_in_cells (dm : double_mesh Q) (L : locals Q) (first last : Z)
  : bool :=
  forallb (fun icell1 =>
    forallb (fun p =>
      in_slab (xcell_size (mesh1 dm)) (ix1_of L icell1) (rd 0%Q (x1_sorted L) p)
      && in_slab (ycell_size (mesh1 dm)) (iy1_of L icell1) (rd 0%Q (y1_sorted L) p)
      && in_slab (zcell_size (mesh1 dm)) (iz1_of L icell1) (rd 0%Q (z1_sorted L) p))
      (range (rd 0 (cell1_indices L) icell1) (rd 0 (cell1_indices L) (icell1 + 1))))
    (range first last).

(** One axis: the cells of mesh 2 have a positive size, a cell of mesh 1 is
    [ratio] of them, the period is [n2] of them and the search length is at
    least the radius. *)
Definition axis_ok (size1 size2 period search rsmooth : Q) (ratio n2 : Z) : bool :=
  Qltb 0 size2
  && Qeq_bool size1 (inject_Z ratio * size2)
  && Qeq_bool period (inject_Z n2 * size2)
  && Qle_bool rsmooth search.

Definition geometry_ok (dm : double_mesh Q) (L : locals Q) (rsmooth : Q)
    (first last : Z) : bool :=
  axis_ok (xcell_size (mesh1 dm)) (xcell_size (mesh2 dm)) (l_xperiod L)
    (search_xlength dm) rsmooth (num_x2_per_x1 L) (num_x2divs L)
  && axis_ok (ycell_size (mesh1 dm)) (ycell_size (mesh2 dm)) (l_yperiod L)
       (search_ylength dm) rsmooth (num_y2_per_y1 L) (num_y2divs L)
  && axis_ok (zcell_size (mesh1 dm)) (zcell_size (mesh2 dm)) (l_zperiod L)
       (search_zlength dm) rsmooth (num_z2_per_z1 L) (num_z2divs L)
  && Qle_bool 0 rsmooth
  && points1_in_cells dm L first last
  && points2_in_cells dm L.

(** The periodic images that the engine looks at: the point itself and,
    with periodic boundary conditions, the point one period away. *)
Definition image (L : locals Q) (k : Z) : Prop :=
  k = 0 \/ (PBCs L = 1 /\ (k = -1 \/ k = 1)).

End Geometry.

(** ** The un-sorting utility *)

(** Modelled from the spec: [unsorting_indices] of [halotools.utils], which
    is not among the sources.  Given a permutation [P] with
    [sorted[i] = original[P[i]]] it produces the inverse permutation [Q],
    [original[j] = sorted[Q[j]]]: [Q[j]] is the position of [j] in [P].
    (For a [P] that is not a permutation the spec gives no value; position
    0 stands in for a missing [j].) *)
Definition inverse_permutation (P : list Z) : list Z :=
  (fun j => default 0 (Z.of_nat <$> (fst <$> list_find (fun x => x = j) P)))
    <$> seqZ 0 (Z.of_nat (length P)).

(** ** Arguments with which a call returns

    What makes every conversion succeed, every read and every write of a
    call fall inside its buffer and every division have a divisor that is
    not zero, as checks on the arguments. *)

Section Checks.

Context {F : Type} `{Float64 F}.

(** Every index of [idx] is one that numpy accepts for an array of length
    [n]. *)
Definition valid_indices (n : nat) (idx : list Z) : bool :=
  forallb (fun k => (- Z.of_nat n <=? k) && (k <? Z.of_nat n)) idx.

(** Every offset of [a] is one of 0, ..., [n]. *)
Definition valid_offsets (n : nat) (a : list Z) : bool :=
  forallb (fun k => (0 <=? k) && (k <=? Z.of_nat n)) a.

(** Lines 53-57: the two ends of the range of cells fit an [int64];
    [_PBCs] and the number of cells of mesh 1 fit an [int]. *)
Definition conversions_ok (dm : double_mesh F) (cell1_tuple : Z * Z) : bool :=
  fits_c_int64 (fst cell1_tuple) && fits_c_int64 (snd cell1_tuple)
  && fits_c_int (_PBCs dm) && fits_c_int (ncells (mesh1 dm)).

(** Lines 59-73: every index of the sorting permutation of a mesh is valid
    for the arrays it is applied to. *)
Definition sorting_indices_ok (dm : double_mesh F)
    (x1in y1in z1in x2in y2in z2in weights2in : list F) : bool :=
  valid_indices (length x1in) (idx_sorted (mesh1 dm))
  && valid_indices (length y1in) (idx_sorted (mesh1 dm))
  && valid_indices (length z1in) (idx_sorted (mesh1 dm))
  && valid_indices (length x2in) (idx_sorted (mesh2 dm))
  && valid_indices (length y2in) (idx_sorted (mesh2 dm))
  && valid_indices (length z2in) (idx_sorted (mesh2 dm))
  && valid_indices (length weights2in) (idx_sorted (mesh2 dm)).

(** [np.ceil(a / b)] is an integer between [lo] and [hi]. *)
Definition ceil_quot_within (lo hi : Z) (a b : F) : bool :=
  match f_ceil_quot a b with
  | Ceil n => (lo <=? n) && (n <? hi)
  | _ => false
  end.

(** Lines 87-92: the three numbers of covering steps have a value, which
    fits an [int]. *)
Definition covering_steps_ok (dm : double_mesh F) : bool :=
  ceil_quot_within (- 2 ^ 31) (2 ^ 31) (search_xlength dm) (xcell_size (mesh2 dm))
  && ceil_quot_within (- 2 ^ 31) (2 ^ 31) (search_ylength dm) (ycell_size (mesh2 dm))
  && ceil_quot_within (- 2 ^ 31) (2 ^ 31) (search_zlength dm) (zcell_size (mesh2 dm)).

(** Lines 98-103: the six numbers of divisions are not negative and fit an
    [int]. *)
Definition divs_ok (dm : double_mesh F) : bool :=
  forallb (fun n => (0 <=? n) && (n <? 2 ^ 31))
    [num_xdivs (mesh1 dm); num_ydivs (mesh1 dm); num_zdivs (mesh1 dm);
     num_xdivs (mesh2 dm); num_ydivs (mesh2 dm); num_zdivs (mesh2 dm)].

(** Lines 104-106: mesh 1 has no division on some axis. *)
Definition mesh1_has_zero_divs (dm : double_mesh F) : bool :=
  (num_xdivs (mesh1 dm) =? 0) || (num_ydivs (mesh1 dm) =? 0)
  || (num_zdivs (mesh1 dm) =? 0).

(** The six numbers of divisions are positive. *)
Definition divs_positive (dm : double_mesh F) : bool :=
  forallb (fun n => 0 <? n)
    [num_xdivs (mesh1 dm); num_ydivs (mesh1 dm); num_zdivs (mesh1 dm);
     num_xdivs (mesh2 dm); num_ydivs (mesh2 dm); num_zdivs (mesh2 dm)].

(** Bounds under which no index that the loop nest computes leaves the
    range of a C [int] (lines 75, 128-141, 143-173, 182): each mesh has
    fewer than [2^30] cells, each number of covering steps is less than
    [2^30] in absolute value, a range of cells that is not empty ends
    within the cells of mesh 1, and each sample has fewer than [2^31]
    points. *)
Definition index_arithmetic_fits (dm : double_mesh F) (cell1_tuple : Z * Z) : bool :=
  let m1 := mesh1 dm in
  let m2 := mesh2 dm in
  (num_xdivs m1 * num_ydivs m1 * num_zdivs m1 <? 2 ^ 30)
  && (num_xdivs m2 * num_ydivs m2 * num_zdivs m2 <? 2 ^ 30)
  && ceil_quot_within (- 2 ^ 30 + 1) (2 ^ 30) (search_xlength dm) (xcell_size m2)
  && ceil_quot_within (- 2 ^ 30 + 1) (2 ^ 30) (search_ylength dm) (ycell_size m2)
  && ceil_quot_within (- 2 ^ 30 + 1) (2 ^ 30) (search_zlength dm) (zcell_size m2)
  && ((snd cell1_tuple <=? fst cell1_tuple)
      || (snd cell1_tuple <=? num_xdivs m1 * num_ydivs m1 * num_zdivs m1))
  && (Z.of_nat (length (idx_sorted m1)) <? 2 ^ 31)
  && (Z.of_nat (length (idx_sorted m2)) <? 2 ^ 31).

(** [idx_unsorted] is what [unsorting_indices] returns for the sorting
    permutation of mesh 1. *)
Definition buffers_ok (idx_unsorted : list Z) (dm : double_mesh F)
    (x1in y1in z1in x2in y2in z2in weights2in : list F) (cell1_tuple : Z * Z) : bool :=
  let m1 := mesh1 dm in
  let m2 := mesh2 dm in
  let npts1 := length (idx_sorted m1) in
  let npts2 := length (idx_sorted m2) in
  conversions_ok dm cell1_tuple
  && sorting_indices_ok dm x1in y1in z1in x2in y2in z2in weights2in
  && covering_steps_ok dm
  (* lines 98-106, 131-132, 151, 161, 171 *)
  && divs_ok dm && divs_positive dm
  (* lines 122-126, 186-188, 215-228 *)
  && ((snd cell1_tuple <=? fst cell1_tuple)
      || ((0 <=? fst cell1_tuple)
          && (snd cell1_tuple <? Z.of_nat (length (cell_id_indices m1)))))
  && valid_offsets npts1 (cell_id_indices m1)
  (* lines 173-180, 200-205 *)
  && (num_xdivs m2 * num_ydivs m2 * num_zdivs m2
      <? Z.of_nat (length (cell_id_indices m2)))
  && valid_offsets npts2 (cell_id_indices m2)
  (* lines 236-237 *)
  && valid_indices npts1 idx_unsorted
  && index_arithmetic_fits dm cell1_tuple.

End Checks.

(** ** Quantities of a result *)

Section Quantities.

Context {F : Type} `{Float64 F}.

(** [v^T t v] for the vector [v = (a, b, c)]. *)
Definition quadratic_form (t : tensor F) (a b c : F) : F :=
  (a * (t00 t * a + t01 t * b + t02 t * c)
   + b * (t10 t * a + t11 t * b + t12 t * c)
   + c * (t20 t * a + t21 t * b + t22 t * c))%f64.

Definition trace (t : tensor F) : F := (t00 t + t11 t + t22 t)%f64.

(** The locals of a call with other weights. *)
Definition set_w2_sorted (L : locals F) (w : list F) : locals F :=
  {| rsmooth_squared := rsmooth_squared L;
     l_xperiod := l_xperiod L; l_yperiod := l_yperiod L; l_zperiod := l_zperiod L;
     PBCs := PBCs L;
     x1_sorted := x1_sorted L; y1_sorted := y1_sorted L; z1_sorted := z1_sorted L;
     x2_sorted := x2_sorted L; y2_sorted := y2_sorted L; z2_sorted := z2_sorted L;
     w2_sorted := w;
     cell1_indices := cell1_indices L;
     cell2_indices := cell2_indices L;
     num_x2_covering_steps := num_x2_covering_steps L;
     num_y2_covering_steps := num_y2_covering_steps L;
     num_z2_covering_steps := num_z2_covering_steps L;
     num_x1divs := num_x1divs L; num_y1divs := num_y1divs L; num_z1divs := num_z1divs L;
     num_x2divs := num_x2divs L; num_y2divs := num_y2divs L; num_z2divs := num_z2divs L;
     num_x2_per_x1 := num_x2_per_x1 L; num_y2_per_y1 := num_y2_per_y1 L;
     num_z2_per_z1 := num_z2_per_z1 L |}.

End Quantities.

(** ** The weight sums, pair by pair (exact rationals)

    What the engine is to compute for a point of sample 1: the sum of the
    weights of the points of sample 2 of which some periodic image is closer
    to it than the radius. *)

(** The numbers of periods by which the engine shifts a point. *)
Definition images_of (pbc : Z) : list Z := if pbc =? 1 then [-1; 0; 1] else [0].

(** Some image of the point [(x2, y2, z2)] is closer to [(x1, y1, z1)] than
    the radius of square [rsq]. *)
Definition close (pbc : Z) (px py pz rsq : Q) (x1 y1 z1 x2 y2 z2 : Q) : bool :=
  existsb (fun kx =>
    existsb (fun ky =>
      existsb (fun kz =>
        Qltb (dist_sq (x1 - (x2 + inject_Z kx * px)) (y1 - (y2 + inject_Z ky * py))
                (z1 - (z2 + inject_Z kz * pz)))%Q
             rsq)
        (images_of pbc)) (images_of pbc)) (images_of pbc).

Definition Qsum (l : list Q) : Q := foldr Qplus 0%Q l.

(** The weight of the points of sample 2 that are close to the point
    [(x1, y1, z1)], from the arguments of the engine. *)
Definition weight_close (dm : double_mesh Q) (rsmooth : Q) (x1 y1 z1 : Q)
    (x2in y2in z2in weights2in : list Q) : Q :=
  Qsum ((fun j =>
           if close (_PBCs dm) (xperiod dm) (yperiod dm) (zperiod dm) (rsmooth * rsmooth)
                x1 y1 z1 (rd 0 x2in j) (rd 0 y2in j) (rd 0 z2in j)
           then rd 0 weights2in j else 0)%Q
          <$> range 0 (Z.of_nat (length weights2in))).

Section PairByPair.

Variable L : locals Q.

Definition images : list Z := images_of (PBCs L).

(** The same, for the point [p] of sample 1 and the point [q] of sample 2
    by their places among the sorted points. *)
Definition within (p q : Z) : bool :=
  close (PBCs L) (l_xperiod L) (l_yperiod L) (l_zperiod L) (rsmooth_squared L)
    (rd 0%Q (x1_sorted L) p) (rd 0%Q (y1_sorted L) p) (rd 0%Q (z1_sorted L) p)
    (rd 0%Q (x2_sorted L) q) (rd 0%Q (y2_sorted L) q) (rd 0%Q (z2_sorted L) q).

Definition weight_within (p : Z) : Q :=
  Qsum ((fun q => if within p q then rd 0%Q (w2_sorted L) q else 0%Q)
          <$> range 0 (Z.of_nat (length (w2_sorted L)))).

(** The cells of mesh 2 hold all the points of sample 2: the boundaries
    start at 0 and end at the number of points. *)
Definition cells_cover : bool :=
  (rd 0 (cell2_indices L) 0 =? 0)
  && (rd 0 (cell2_indices L) (Z.of_nat (length (cell2_indices L)) - 1)
      =? Z.of_nat (length (w2_sorted L))).

(** What the innermost block adds to the weight sum of the point [p] for
    the event [e]. *)
Definition contribution (p : Z) (e : event Q) : Q :=
  if (p =? (ev_pq e).1) && Qltb (event_dist_sq L e) (rsmooth_squared L)
  then rd 0%Q (w2_sorted L) (ev_pq e).2
  else 0%Q.

End PairByPair.

(** ** The tensors, pair by pair (exact rationals)

    What the engine is to compute for a point of sample 1: the sum, over
    the points of sample 2 of which some periodic image is closer to it
    than the radius, of the weighted products of the separation from that
    image. *)

(** The separations of [(x1, y1, z1)] from the images of [(x2, y2, z2)]. *)
Definition separations (pbc : Z) (px py pz : Q) (x1 y1 z1 x2 y2 z2 : Q)
  : list (Q * Q * Q) :=
  images_of pbc ≫= fun kx =>
  images_of pbc ≫= fun ky =>
  images_of pbc ≫= fun kz =>
  [((x1 - (x2 + inject_Z kx * px))%Q, (y1 - (y2 + inject_Z ky * py))%Q,
    (z1 - (z2 + inject_Z kz * pz))%Q)].

(** The separation from the first image that is closer than the radius of
    square [rsq]; on a valid grid there is at most one such image. *)
Definition close_separation (pbc : Z) (px py pz rsq : Q) (x1 y1 z1 x2 y2 z2 : Q)
  : option (Q * Q * Q) :=
  find (fun d => Qltb (dist_sq d.1.1 d.1.2 d.2) rsq)
       (separations pbc px py pz x1 y1 z1 x2 y2 z2).

(** The nine products of the separation [d], times [w]. *)
Definition pair_products (d : Q * Q * Q) (w : Q) : tensor Q :=
  let '(dx, dy, dz) := d in
  {| t00 := dx * dx * w; t01 := dx * dy * w; t02 := dx * dz * w;
     t10 := dx * dy * w; t11 := dy * dy * w; t12 := dy * dz * w;
     t20 := dx * dz * w; t21 := dy * dz * w; t22 := dz * dz * w |}%Q.

Definition tensor_sum (l : list (tensor Q)) : tensor Q :=
  foldr tensor_add tensor_zero l.

(** The tensor of the point [(x1, y1, z1)], from the arguments of the
    engine. *)
Definition tensor_close (dm : double_mesh Q) (rsmooth : Q) (x1 y1 z1 : Q)
    (x2in y2in z2in weights2in : list Q) : tensor Q :=
  tensor_sum
    ((fun j =>
        match close_separation (_PBCs dm) (xperiod dm) (yperiod dm) (zperiod dm)
                (rsmooth * rsmooth)%Q x1 y1 z1
                (rd 0%Q x2in j) (rd 0%Q y2in j) (rd 0%Q z2in j) with
        | Some d => pair_products d (rd 0%Q weights2in j)
        | None => tensor_zero
        end)
       <$> range 0 (Z.of_nat (length weights2in))).

(** The same, for the point [p] of sample 1 by its place among the sorted
    points, over the sorted points of sample 2. *)
Definition separation_within (L : locals Q) (p q : Z) : option (Q * Q * Q) :=
  close_separation (PBCs L) (l_xperiod L) (l_yperiod L) (l_zperiod L) (rsmooth_squared L)
    (rd 0%Q (x1_sorted L) p) (rd 0%Q (y1_sorted L) p) (rd 0%Q (z1_sorted L) p)
    (rd 0%Q (x2_sorted L) q) (rd 0%Q (y2_sorted L) q) (rd 0%Q (z2_sorted L) q).

Definition products_within (L : locals Q) (p q : Z) : tensor Q :=
  match separation_within L p q with
  | Some d => pair_products d (rd 0%Q (w2_sorted L) q)
  | None => tensor_zero
  end.

Definition tensor_within (L : locals Q) (p : Z) : tensor Q :=
  tensor_sum (products_within L p <$> range 0 (Z.of_nat (length (w2_sorted L)))).

(** The entries of a tensor, by row and column. *)
Inductive axis : Set := X_axis | Y_axis | Z_axis.

Definition entry (a b : axis) (t : tensor Q) : Q :=
  match a, b with
  | X_axis, X_axis => t00 t | X_axis, Y_axis => t01 t | X_axis, Z_axis => t02 t
  | Y_axis, X_axis => t10 t | Y_axis, Y_axis => t11 t | Y_axis, Z_axis => t12 t
  | Z_axis, X_axis => t20 t | Z_axis, Y_axis => t21 t | Z_axis, Z_axis => t22 t
  end.

(** The separation that the innermost block computes for an event. *)
Definition event_separation (L : locals Q) (e : event Q) : Q * Q * Q :=
  let '(_, x1tmp, y1tmp, z1tmp, q) := e in
  ((x1tmp - rd 0 (x2_sorted L) q)%Q, (y1tmp - rd 0 (y2_sorted L) q)%Q,
   (z1tmp - rd 0 (z2_sorted L) q)%Q).

(** What the innermost block adds to the entry [(a, b)] of the tensor of
    the point [p] for the event [e]. *)
Definition entry_contribution (L : locals Q) (a b : axis) (p : Z) (e : event Q) : Q :=
  if (p =? (ev_pq e).1) && Qltb (event_dist_sq L e) (rsmooth_squared L)
  then entry a b (pair_products (event_separation L e) (rd 0%Q (w2_sorted L) (ev_pq e).2))
  else 0%Q.

(** ** Without periodicity, and a pair of coincident points (exact rationals) *)






(** The points of sample 2 but [q]. *)
Definition others (L : locals Q) (q : Z) : list Z :=
  filter (fun j => j <> q) (range 0 (Z.of_nat (length (w2_sorted L)))).

Definition weight_within_others (L : locals Q) (p q : Z) : Q :=
  Qsum ((fun j => if within L p j then rd 0%Q (w2_sorted L) j else 0%Q) <$> others L q).

Definition tensor_within_others (L : locals Q) (p q : Z) : tensor Q :=
  tensor_sum (products_within L p <$> others L q).

(** * The marking functions of the projected pair counters

    Source: [gamma_plus_func] and [gamma_cross_func]
    (positional_projected_marking_functions.pyx).  The two [cdef] functions
    take the weights of the two points as pointers to rows of doubles; a
    row is a list here, and a read outside it is [OutOfBounds], as for the
    buffers of the engine. *)

(** What the marking functions use beyond the operations of [Float64]:
    division and [<=] of doubles, the literals [1.0] and [2.0], and
    [sqrt], [cos], [acos] and [sin] of libc's [math.h]. *)
Class Libm (F : Type) : Type := {
  m_div : F -> F -> F;
  m_leb : F -> F -> bool;
  m_one : F;
  m_two : F;
  c_sqrt : F -> F;
  c_cos : F -> F;
  c_acos : F -> F;
  c_sin : F -> F
}.

Section Marking.

Context {F : Type} `{Float64 F} `{Libm F}.

Definition gamma_plus_func (w1 w2 : list F) (x1 y1 x2 y2 dxy_sq : F) : M F :=
  if (f_zero <? dxy_sq)%f64 then
    let x := (x2 - x1)%f64 in
    let y := (y2 - y1)%f64 in
    let* w1_0 := at_ w1 0 in
    let* w1_1 := at_ w1 1 in
    let costheta := m_div (w1_0 * x + w1_1 * y)%f64 (c_sqrt dxy_sq) in
    if m_leb m_one costheta then ret f_zero
    else if m_leb costheta (- m_one)%f64 then at_ w1 2
    else
      let gamma := c_cos (m_two * c_acos costheta)%f64 in
      let* w1_2 := at_ w1 2 in
      let* w2_2 := at_ w2 2 in
      ret (w1_2 * w2_2 * gamma)%f64
  else ret f_zero.

Definition gamma_cross_func (w1 w2 : list F) (x1 y1 x2 y2 dxy_sq : F) : M F :=
  if (f_zero <? dxy_sq)%f64 then
    let x := (x2 - x1)%f64 in
    let y := (y2 - y1)%f64 in
    let* w1_0 := at_ w1 0 in
    let* w1_1 := at_ w1 1 in
    let costheta := m_div (w1_0 * x + w1_1 * y)%f64 (c_sqrt dxy_sq) in
    let gamma := c_sin (m_two * c_acos costheta)%f64 in
    let* w1_2 := at_ w1 2 in
    let* w2_2 := at_ w2 2 in
    ret (w1_2 * w2_2 * gamma)%f64
  else ret f_zero.

End Marking.

(** *** binary64: [sqrt] and the division are the kernel's; [cos], [acos]
    and [sin] are those of the platform, given as parameters. *)

Definition libm_binary64 (cos acos sin : float -> float) : Libm float :=
  {| m_div := PrimFloat.div;
     m_leb := PrimFloat.leb;
     m_one := float_of_int 1;
     m_two := float_of_int 2;
     c_sqrt := PrimFloat.sqrt;
     c_cos := cos;
     c_acos := acos;
     c_sin := sin |}.

(** *** exact reals *)

Section ExactReals.

Import Reals.

Definition Rltb (a b : R) : bool := if Rlt_dec a b then true else false.
Definition Rleb (a b : R) : bool := if Rle_dec a b then true else false.

Definition exactR : Float64 R :=
  {| f_zero := 0%R;
     f_add := Rplus;
     f_sub := Rminus;
     f_mul := Rmult;
     f_neg := Ropp;
     f_ltb := Rltb;
     f_of_int := IZR;
     f_ceil_quot := fun a b =>
       if Req_dec_T b 0%R then (if Req_dec_T a 0%R then CeilNaN else CeilInf)
       else Ceil (- Int_part (- (a / b))%R) |}.

(** [acos] of the reals is defined on all of them; it is that of
    [math.h] on [-1, 1], outside of which [math.h] gives NaN. *)
Definition libm_exactR : Libm R :=
  {| m_div := Rdiv;
     m_leb := Rleb;
     m_one := 1%R;
     m_two := 2%R;
     c_sqrt := sqrt;
     c_cos := cos;
     c_acos := acos;
     c_sin := sin |}.

End ExactReals.

#[export] Existing Instance exactR.
#[export] Existing Instance libm_exactR.

(** ** binary64 values other than [-0.0] *)

Definition not_neg_zero (x : float) : Prop := x <> neg_zero.

Definition tensor_not_neg_zero (t : tensor float) : Prop :=
  not_neg_zero (t00 t) /\ not_neg_zero (t01 t) /\ not_neg_zero (t02 t) /\
  not_neg_zero (t10 t) /\ not_neg_zero (t11 t) /\ not_neg_zero (t12 t) /\
  not_neg_zero (t20 t) /\ not_neg_zero (t21 t) /\ not_neg_zero (t22 t).


(** A binary64 value that is a number: neither an infinity nor NaN. *)
Definition finite64 (x : float) : bool :=
  match Prim2SF x with
  | S754_zero _ | S754_finite _ _ _ => true
  | S754_infinity _ | S754_nan => false
  end.

(** ** Concrete inputs

    The grids are written out as the engine reads them: the sorting
    permutation and, for each cell id [c], the offset
    [cell_id_indices[c]] of its first point among the sorted points. *)

Module Fixtures.

(** The mesh of a single point that lies in cell [cell] of an
    [nx * ny * nz] grid. *)
Definition one_point_mesh {F} (nx ny nz cell : Z) (sx sy sz : F) : mesh F :=
  {| ncells := nx * ny * nz;
     idx_sorted := [0];
     cell_id_indices :=
       replicate (Z.to_nat (cell + 1)) 0 ++ replicate (Z.to_nat (nx * ny * nz - cell)) 1;
     num_xdivs := nx; num_ydivs := ny; num_zdivs := nz;
     xcell_size := sx; ycell_size := sy; zcell_size := sz |}.

(** *** The periodic wrap scenario: a box of period 10, 5 x 5 x 5 cells of
    size 2, search length 1; the point of sample 1 at x = 0.5 (cell 0), the
    point of sample 2 at x = 9.6 (cell (4,0,0), id 100). *)

Definition wrap_mesh {F} `{Float64 F} (two ten one : F) (pbc : Z) : double_mesh F :=
  {| mesh1 := one_point_mesh 5 5 5 0 two two two;
     mesh2 := one_point_mesh 5 5 5 100 two two two;
     xperiod := ten; yperiod := ten; zperiod := ten;
     search_xlength := one; search_ylength := one; search_zlength := one;
     _PBCs := pbc |}.

Definition wrap_run_Q : M (list (tensor Q) * list Q) :=
  inertia_tensor_per_object_engine inverse_permutation
    (wrap_mesh 2%Q 10%Q 1%Q 1)
    [1 # 2]%Q [0%Q] [0%Q] [48 # 5]%Q [0%Q] [0%Q] [1%Q] 1%Q (0, 125).

(** 0.5, 9.6 (rounded to binary64), 10, 2 and 1 as binary64 values. *)
Definition f_half : float :=
  Eval compute in PrimFloat.div (float_of_int 1) (float_of_int 2).
Definition f_9_6 : float :=
  Eval compute in PrimFloat.div (float_of_int 96) (float_of_int 10).
Definition f_int (n : Z) : float := float_of_int n.

Definition wrap_run_binary64 : M (list (tensor float) * list float) :=
  inertia_tensor_per_object_engine inverse_permutation
    (wrap_mesh (f_int 2) (f_int 10) (f_int 1) 1)
    [f_half] [f_int 0] [f_int 0] [f_9_6] [f_int 0] [f_int 0] [f_int 1] (f_int 1)
    (0, 125).

(** *** A non-periodic box with two cells along x: 2 x 3 x 3 cells, of size
    2 along x and 1 along y and z, search length 1.  The point of sample 1
    at (1.5, 1.5, 1.5) is in cell (0,1,1), id 4; the point of sample 2 at
    (2.25, 1.5, 1.5), weight 1, is in cell (1,1,1), id 13.  Their distance
    is 0.75.  Along x the window of cell (0,1,1) is [-1, 2). *)




(** *** Integer coordinates: a box of period 6 with 3 x 3 x 3 cells of
    size 2, search length 2.  Sample 1, in input order: (3,3,3) in cell 13
    and (1,1,1) in cell 0.  Sample 2, in input order: (5,1,1) in cell 18,
    (4,4,4) in cell 26 and (2,1,1) in cell 9, with weights 2, 3 and 1.
    [c] turns an integer into a value of [F]. *)

Section Points.

Context {F : Type} `{Float64 F}.
Variable c : Z -> F.

Definition pts_mesh1 : mesh F :=
  {| ncells := 27; idx_sorted := [1; 0];
     cell_id_indices := [0] ++ replicate 13 1 ++ replicate 14 2;
     num_xdivs := 3; num_ydivs := 3; num_zdivs := 3;
     xcell_size := c 2; ycell_size := c 2; zcell_size := c 2 |}.

Definition pts_mesh2 : mesh F :=
  {| ncells := 27; idx_sorted := [2; 0; 1];
     cell_id_indices := replicate 10 0 ++ replicate 9 1 ++ replicate 8 2 ++ [3];
     num_xdivs := 3; num_ydivs := 3; num_zdivs := 3;
     xcell_size := c 2; ycell_size := c 2; zcell_size := c 2 |}.

Definition pts_mesh (pbc : Z) : double_mesh F :=
  {| mesh1 := pts_mesh1; mesh2 := pts_mesh2;
     xperiod := c 6; yperiod := c 6; zperiod := c 6;
     search_xlength := c 2; search_ylength := c 2; search_zlength := c 2;
     _PBCs := pbc |}.

Definition pts_run (pbc : Z) (rsmooth : F) (cell1_tuple : Z * Z)
  : M (list (tensor F) * list F) :=
  inertia_tensor_per_object_engine inverse_permutation (pts_mesh pbc)
    [c 3; c 1] [c 3; c 1] [c 3; c 1]
    [c 5; c 4; c 2] [c 1; c 4; c 1] [c 1; c 4; c 1] [c 2; c 3; c 1]
    rsmooth cell1_tuple.

Definition pts_locals (pbc : Z) (rsmooth : F) : M (locals F) :=
  setup (pts_mesh pbc)
    [c 3; c 1] [c 3; c 1] [c 3; c 1]
    [c 5; c 4; c 2] [c 1; c 4; c 1] [c 1; c 4; c 1] [c 2; c 3; c 1] rsmooth.

(** The locals [pts_locals] returns: the points sorted by cell, one
    covering step and one cell of mesh 2 per cell of mesh 1 on every
    axis. *)
Definition pts_L (pbc : Z) (rsmooth : F) : locals F :=
  {| rsmooth_squared := (rsmooth * rsmooth)%f64;
     l_xperiod := c 6; l_yperiod := c 6; l_zperiod := c 6;
     PBCs := pbc;
     x1_sorted := [c 1; c 3]; y1_sorted := [c 1; c 3]; z1_sorted := [c 1; c 3];
     x2_sorted := [c 2; c 5; c 4]; y2_sorted := [c 1; c 1; c 4];
     z2_sorted := [c 1; c 1; c 4];
     w2_sorted := [c 1; c 2; c 3];
     cell1_indices := cell_id_indices pts_mesh1;
     cell2_indices := cell_id_indices pts_mesh2;
     num_x2_covering_steps := 1;
     num_y2_covering_steps := 1;
     num_z2_covering_steps := 1;
     num_x1divs := 3; num_y1divs := 3; num_z1divs := 3;
     num_x2divs := 3; num_y2divs := 3; num_z2divs := 3;
     num_x2_per_x1 := 1; num_y2_per_y1 := 1; num_z2_per_z1 := 1 |}.

(** The tensors of the two points of sample 1 for [rsmooth = 2]: the point
    (3,3,3) has the one neighbour (4,4,4) of weight 3, at separation
    (-1,-1,-1); the point (1,1,1) has the one neighbour (2,1,1) of weight
    1, at separation (-1,0,0). *)
Definition pts_tensor_333 : tensor F :=
  {| t00 := c 3; t01 := c 3; t02 := c 3;
     t10 := c 3; t11 := c 3; t12 := c 3;
     t20 := c 3; t21 := c 3; t22 := c 3 |}.

Definition pts_tensor_111 : tensor F :=
  {| t00 := c 1; t01 := c 0; t02 := c 0;
     t10 := c 0; t11 := c 0; t12 := c 0;
     t20 := c 0; t21 := c 0; t22 := c 0 |}.

(** The same call on a store.  The caller passes one array for the three
    coordinates of sample 1, and one for the y and z coordinates of sample
    2. *)
Definition pts_store : store F :=
  [Floats [c 3; c 1]; Floats [c 5; c 4; c 2]; Floats [c 1; c 4; c 1];
   Floats [c 2; c 3; c 1]].

Definition pts_store_run : M (store F * (ref * ref)) :=
  engine_in_store inverse_permutation pts_store (pts_mesh 1) 0%nat 0%nat 0%nat
    1%nat 2%nat 2%nat 3%nat (c 2) (0, 27).

End Points.

Definition int_store_after : store Z :=
  Eval vm_compute in
    match pts_store_run id with
    | inr (h, _) => h
    | inl _ => []
    end.

(** *** Projections of a result *)

Definition weight_sums {F} (r : M (list (tensor F) * list F)) : M (list F) :=
  let* x := r in ret (snd x).

Definition tensors {F} (r : M (list (tensor F) * list F)) : M (list (tensor F)) :=
  let* x := r in ret (fst x).

(** [events] of a call whose set-up returns. *)
Definition events_of {F} `{Float64 F} (L : M (locals F)) (first last : Z)
  : M (list (event F)) :=
  let* l := L in ret (events l first last).

Definition wrap_locals_Q : M (locals Q) :=
  setup (wrap_mesh 2%Q 10%Q 1%Q 1)
    [1 # 2]%Q [0%Q] [0%Q] [48 # 5]%Q [0%Q] [0%Q] [1%Q] 1%Q.

(** The locals [wrap_locals_Q] returns. *)
Definition wrap_L_Q : locals Q :=
  {| rsmooth_squared := (1 * 1)%Q;
     l_xperiod := 10%Q; l_yperiod := 10%Q; l_zperiod := 10%Q;
     PBCs := 1;
     x1_sorted := [1 # 2]%Q; y1_sorted := [0%Q]; z1_sorted := [0%Q];
     x2_sorted := [48 # 5]%Q; y2_sorted := [0%Q]; z2_sorted := [0%Q];
     w2_sorted := [1%Q];
     cell1_indices := cell_id_indices (one_point_mesh 5 5 5 0 2%Q 2%Q 2%Q);
     cell2_indices := cell_id_indices (one_point_mesh 5 5 5 100 2%Q 2%Q 2%Q);
     num_x2_covering_steps := 1;
     num_y2_covering_steps := 1;
     num_z2_covering_steps := 1;
     num_x1divs := 5; num_y1divs := 5; num_z1divs := 5;
     num_x2divs := 5; num_y2divs := 5; num_z2divs := 5;
     num_x2_per_x1 := 1; num_y2_per_y1 := 1; num_z2_per_z1 := 1 |}.

End Fixtures.

(** *** More concrete inputs *)

Module MoreFixtures.

Import Fixtures.

(** The integer points, in exact rationals. *)
Definition pts_L_Q : locals Q := pts_L inject_Z 1 2%Q.

Definition pts_result_Q : list (tensor Q) * list Q :=
  Eval vm_compute in
    match pts_run inject_Z 1 2%Q (0, 27) with
    | inr r => r
    | inl _ => ([], [])
    end.

(** The integer points with the weights 1, 1, 1 and with the weights 3, 4,
    2 in place of 2, 3, 1. *)
Definition pts_run_weights (w : list Z) : M (list (tensor Z) * list Z) :=
  inertia_tensor_per_object_engine inverse_permutation (pts_mesh id 1)
    [3; 1] [3; 1] [3; 1] [5; 4; 2] [1; 4; 1] [1; 4; 1] w 2 (0, 27).

Definition pts_result_weights (w : list Z) : list (tensor Z) * list Z :=
  match pts_run_weights w with
  | inr r => r
  | inl _ => ([], [])
  end.

(** The grid of the integer points with a mesh 1 that has no division
    along x. *)
Definition no_xdivs_mesh : double_mesh Z :=
  {| mesh1 := {| ncells := 0; idx_sorted := [1; 0];
                 cell_id_indices := [0; 2];
                 num_xdivs := 0; num_ydivs := 3; num_zdivs := 3;
                 xcell_size := 2; ycell_size := 2; zcell_size := 2 |};
     mesh2 := pts_mesh2 id;
     xperiod := 6; yperiod := 6; zperiod := 6;
     search_xlength := 2; search_ylength := 2; search_zlength := 2;
     _PBCs := 1 |}.



(** Two samples that share a point: 3 x 3 x 3 cells of size 2 in a box of
    period 6, search length 2.  The point of sample 1 is at (3,3,3), in
    cell 13; sample 2 has the same point, with the weight [w], and the
    point (3,2,3) of the same cell with the weight 7. *)
Definition self_pair_mesh {F} (c : Z -> F) : double_mesh F :=
  {| mesh1 := one_point_mesh 3 3 3 13 (c 2) (c 2) (c 2);
     mesh2 := {| ncells := 27; idx_sorted := [0; 1];
                 cell_id_indices := replicate 14 0 ++ replicate 14 2;
                 num_xdivs := 3; num_ydivs := 3; num_zdivs := 3;
                 xcell_size := c 2; ycell_size := c 2; zcell_size := c 2 |};
     xperiod := c 6; yperiod := c 6; zperiod := c 6;
     search_xlength := c 2; search_ylength := c 2; search_zlength := c 2;
     _PBCs := 1 |}.

Definition self_pair_run {F} `{Float64 F} (c : Z -> F) (w rsmooth : F)
  : M (list (tensor F) * list F) :=
  inertia_tensor_per_object_engine inverse_permutation (self_pair_mesh c)
    [c 3] [c 3] [c 3] [c 3; c 3] [c 3; c 2] [c 3; c 3] [w; c 7] rsmooth (0, 27).

(** The locals of [self_pair_run inject_Z 5 2]. *)
Definition self_pair_L_Q : locals Q :=
  {| rsmooth_squared := (2 * 2)%Q;
     l_xperiod := 6%Q; l_yperiod := 6%Q; l_zperiod := 6%Q;
     PBCs := 1;
     x1_sorted := [3%Q]; y1_sorted := [3%Q]; z1_sorted := [3%Q];
     x2_sorted := [3%Q; 3%Q]; y2_sorted := [3%Q; 2%Q]; z2_sorted := [3%Q; 3%Q];
     w2_sorted := [5%Q; 7%Q];
     cell1_indices := cell_id_indices (mesh1 (self_pair_mesh inject_Z));
     cell2_indices := cell_id_indices (mesh2 (self_pair_mesh inject_Z));
     num_x2_covering_steps := 1;
     num_y2_covering_steps := 1;
     num_z2_covering_steps := 1;
     num_x1divs := 3; num_y1divs := 3; num_z1divs := 3;
     num_x2divs := 3; num_y2divs := 3; num_z2divs := 3;
     num_x2_per_x1 := 1; num_y2_per_y1 := 1; num_z2_per_z1 := 1 |}.

(** The tensor of a point of which another lies one unit along y and has
    the weight [w]. *)
Definition tensor_y {F} `{Float64 F} (w : F) : tensor F :=
  {| t00 := f_zero; t01 := f_zero; t02 := f_zero;
     t10 := f_zero; t11 := w; t12 := f_zero;
     t20 := f_zero; t21 := f_zero; t22 := f_zero |}.

(** The positive binary64 number [2^-600]; its square is less than the
    least positive binary64 number. *)
Definition tiny : float := 0x1p-600%float.

Definition tensor_nan : tensor float :=
  {| t00 := PrimFloat.nan; t01 := PrimFloat.nan; t02 := PrimFloat.nan;
     t10 := PrimFloat.nan; t11 := PrimFloat.nan; t12 := PrimFloat.nan;
     t20 := PrimFloat.nan; t21 := PrimFloat.nan; t22 := PrimFloat.nan |}.

End MoreFixtures.

(** * Facts *)

(** ** The error monad and the loop combinator *)

Lemma bind_inr {A B} (c : M A) (k : A -> M B) (b : B) :
  bind c k = inr b -> exists a, c = inr a /\ k a = inr b.
Proof. destruct c as [e|a]; simpl; [discriminate | eauto]. Qed.

Lemma to_c_int_inr (z v : Z) :
  to_c_int z = inr v -> v = z /\ - 2 ^ 31 <= z < 2 ^ 31.
Proof.
  unfold to_c_int, fits_c_int.
  destruct (Z.leb_spec (- 2 ^ 31) z), (Z.ltb_spec z (2 ^ 31)); simpl;
    intros E; inversion E; split; [reflexivity | lia].
Qed.

Lemma to_c_int64_inr (z v : Z) :
  to_c_int64 z = inr v -> v = z /\ - 2 ^ 63 <= z < 2 ^ 63.
Proof.
  unfold to_c_int64, fits_c_int64.
  destruct (Z.leb_spec (- 2 ^ 63) z), (Z.ltb_spec z (2 ^ 63)); simpl;
    intros E; inversion E; split; [reflexivity | lia].
Qed.

Lemma to_c_int_returns (z : Z) : fits_c_int z = true -> to_c_int z = inr z.
Proof. unfold to_c_int. now intros ->. Qed.

Lemma to_c_int64_returns (z : Z) : fits_c_int64 z = true -> to_c_int64 z = inr z.
Proof. unfold to_c_int64. now intros ->. Qed.

Lemma for_app {K S} (l1 l2 : list K) (body : K -> S -> M S) (s : S) :
  for_ (l1 ++ l2) body s = bind (for_ l1 body s) (for_ l2 body).
Proof.
  revert s. induction l1 as [|k l1 IH]; intros s; simpl; [reflexivity|].
  destruct (body k s) as [e|s1]; simpl; [reflexivity | apply IH].
Qed.

Lemma for_fmap {K K' S} (f : K -> K') (l : list K) (body : K' -> S -> M S) (s : S) :
  for_ (f <$> l) body s = for_ l (fun k => body (f k)) s.
Proof.
  revert s. induction l as [|k l IH]; intros s; simpl; [reflexivity|].
  destruct (body (f k) s); simpl; [reflexivity | apply IH].
Qed.

(** A loop whose every iteration is itself a fold over a list of events is
    the fold over the concatenation; the success of one run of the loop
    (with any innermost block) is what allows to read the lists off. *)
Lemma for_factor {K E S S'} (l : list K) (body : K -> S -> M S)
    (body' : K -> S' -> M S') (ev : K -> list E) (act' : E -> S' -> M S')
    (s s' : S) :
  for_ l body s = inr s' ->
  (forall k u u', k ∈ l -> body k u = inr u' ->
                  forall t, body' k t = for_ (ev k) act' t) ->
  forall t, for_ l body' t = for_ (l ≫= ev) act' t.
Proof.
  revert s. induction l as [|k l IH]; intros s Hrun Hbody t; [reflexivity|].
  simpl in Hrun. apply bind_inr in Hrun as (s1 & Hk & Hrest).
  change ((k :: l) ≫= ev) with (ev k ++ (l ≫= ev)).
  rewrite for_app. simpl.
  rewrite (Hbody k s s1 ltac:(left) Hk t).
  destruct (for_ (ev k) act' t) as [e|t1]; simpl; [reflexivity|].
  apply (IH s1 Hrest). intros k' u u' Hin. apply Hbody. now right.
Qed.

Lemma for_inv {K S} (P : S -> Prop) (l : list K) (body : K -> S -> M S) (s s' : S) :
  P s ->
  (forall k u u', k ∈ l -> P u -> body k u = inr u' -> P u') ->
  for_ l body s = inr s' -> P s'.
Proof.
  revert s. induction l as [|k l IH]; intros s Hs Hbody Hrun; simpl in Hrun.
  - now inversion Hrun; subst.
  - apply bind_inr in Hrun as (s1 & Hk & Hrest).
    apply (IH s1); [eapply Hbody; eauto; left | | exact Hrest].
    intros k' u u' Hin. apply Hbody. now right.
Qed.


(** ** Buffers *)

Lemma at_inr {A} (a : list A) (k : Z) (v : A) :
  at_ a k = inr v <-> 0 <= k /\ a !! Z.to_nat k = Some v.
Proof.
  unfold at_. destruct (Z.ltb_spec k 0).
  - split; [discriminate | lia].
  - destruct (a !! Z.to_nat k); split; intros Hx.
    + inversion Hx; subst; now split.
    + destruct Hx as [_ Hx]; now inversion Hx.
    + discriminate.
    + now destruct Hx.
Qed.

Lemma at_rd {A} (d : A) (a : list A) (k : Z) (v : A) :
  at_ a k = inr v -> rd d a k = v.
Proof. intros [_ Hv]%at_inr. unfold rd. now rewrite Hv. Qed.

(** ** A run of the nest is a fold over its iteration space *)

Section NestEvents.

Context {F : Type} `{Float64 F}.
Context {S S' : Type}.
Variable act : Z -> F -> F -> F -> Z -> S -> M S.
Variable act' : Z -> F -> F -> F -> Z -> S' -> M S'.
Variable L : locals F.

Lemma loop_j_events p x y z ifirst2 Nj (t : S') :
  loop_j act' p x y z ifirst2 Nj t
  = for_ (events_j p x y z ifirst2 Nj) (on_event act') t.
Proof. unfold loop_j, events_j. now rewrite for_fmap. Qed.

Lemma i_block_events ifirst1 xs ys zs ifirst2 Nj i s s' :
  i_block act L ifirst1 xs ys zs ifirst2 Nj i s = inr s' ->
  forall t, i_block act' L ifirst1 xs ys zs ifirst2 Nj i t
            = for_ (events_i_block L ifirst1 xs ys zs ifirst2 Nj i) (on_event act') t.
Proof.
  unfold i_block, events_i_block. intros Hrun t.
  apply bind_inr in Hrun as (x1 & Hx & Hrun).
  apply bind_inr in Hrun as (y1 & Hy & Hrun).
  apply bind_inr in Hrun as (z1 & Hz & Hrun).
  rewrite Hx, Hy, Hz. simpl.
  rewrite (at_rd f_zero _ _ _ Hx), (at_rd f_zero _ _ _ Hy), (at_rd f_zero _ _ _ Hz).
  apply loop_j_events.
Qed.

Lemma loop_i_events ifirst1 Ni xs ys zs ifirst2 Nj s s' :
  loop_i act L ifirst1 Ni xs ys zs ifirst2 Nj s = inr s' ->
  forall t, loop_i act' L ifirst1 Ni xs ys zs ifirst2 Nj t
            = for_ (events_i L ifirst1 Ni xs ys zs ifirst2 Nj) (on_event act') t.
Proof.
  unfold loop_i, events_i. intros Hrun.
  eapply for_factor; [exact Hrun|]. intros i u u' _. apply i_block_events.
Qed.

Lemma cell2_block_events ifirst1 Ni xs ix2 ys iy2 zs iz2 s s' :
  cell2_block act L ifirst1 Ni xs ix2 ys iy2 zs iz2 s = inr s' ->
  forall t, cell2_block act' L ifirst1 Ni xs ix2 ys iy2 zs iz2 t
            = for_ (events_cell2 L ifirst1 Ni xs ix2 ys iy2 zs iz2) (on_event act') t.
Proof.
  unfold cell2_block, events_cell2, icell2_of. intros Hrun t.
  apply bind_inr in Hrun as (ifirst2 & Hf & Hrun).
  apply bind_inr in Hrun as (ilast2 & Hl & Hrun).
  rewrite Hf, Hl. simpl.
  rewrite (at_rd 0 _ _ _ Hf), (at_rd 0 _ _ _ Hl).
  destruct (ilast2 - ifirst2 >? 0); [|reflexivity].
  eapply loop_i_events, Hrun.
Qed.

Lemma pymod_inr a n v : pymod a n = inr v -> v = a mod n /\ n <> 0.
Proof.
  unfold pymod. destruct (Z.eqb_spec n 0); [discriminate|].
  intros Hv; inversion Hv; now subst.
Qed.

Lemma floordiv_inr a n v : floordiv a n = inr v -> v = a / n /\ n <> 0.
Proof.
  unfold floordiv. destruct (Z.eqb_spec n 0); [discriminate|].
  intros Hv; inversion Hv; now subst.
Qed.

Lemma iz2_block_events ifirst1 Ni xs ix2 ys iy2 c s s' :
  iz2_block act L ifirst1 Ni xs ix2 ys iy2 c s = inr s' ->
  forall t, iz2_block act' L ifirst1 Ni xs ix2 ys iy2 c t
            = for_ (events_iz2_block L ifirst1 Ni xs ix2 ys iy2 c) (on_event act') t.
Proof.
  unfold iz2_block, events_iz2_block. intros Hrun t.
  apply bind_inr in Hrun as (iz2 & Hm & Hrun). rewrite Hm. simpl.
  apply pymod_inr in Hm as [-> _]. eapply cell2_block_events, Hrun.
Qed.

Lemma loop_iz2_events ifirst1 Ni iz1 xs ix2 ys iy2 s s' :
  loop_iz2 act L ifirst1 Ni iz1 xs ix2 ys iy2 s = inr s' ->
  forall t, loop_iz2 act' L ifirst1 Ni iz1 xs ix2 ys iy2 t
            = for_ (events_iz2 L ifirst1 Ni iz1 xs ix2 ys iy2) (on_event act') t.
Proof.
  unfold loop_iz2, events_iz2. intros Hrun.
  eapply for_factor; [exact Hrun|]. intros c u u' _. apply iz2_block_events.
Qed.

Lemma iy2_block_events ifirst1 Ni iz1 xs ix2 b s s' :
  iy2_block act L ifirst1 Ni iz1 xs ix2 b s = inr s' ->
  forall t, iy2_block act' L ifirst1 Ni iz1 xs ix2 b t
            = for_ (events_iy2_block L ifirst1 Ni iz1 xs ix2 b) (on_event act') t.
Proof.
  unfold iy2_block, events_iy2_block. intros Hrun t.
  apply bind_inr in Hrun as (iy2 & Hm & Hrun). rewrite Hm. simpl.
  apply pymod_inr in Hm as [-> _]. eapply loop_iz2_events, Hrun.
Qed.

Lemma loop_iy2_events ifirst1 Ni iy1 iz1 xs ix2 s s' :
  loop_iy2 act L ifirst1 Ni iy1 iz1 xs ix2 s = inr s' ->
  forall t, loop_iy2 act' L ifirst1 Ni iy1 iz1 xs ix2 t
            = for_ (events_iy2 L ifirst1 Ni iy1 iz1 xs ix2) (on_event act') t.
Proof.
  unfold loop_iy2, events_iy2. intros Hrun.
  eapply for_factor; [exact Hrun|]. intros b u u' _. apply iy2_block_events.
Qed.

Lemma ix2_block_events ifirst1 Ni iy1 iz1 a s s' :
  ix2_block act L ifirst1 Ni iy1 iz1 a s = inr s' ->
  forall t, ix2_block act' L ifirst1 Ni iy1 iz1 a t
            = for_ (events_ix2_block L ifirst1 Ni iy1 iz1 a) (on_event act') t.
Proof.
  unfold ix2_block, events_ix2_block. intros Hrun t.
  apply bind_inr in Hrun as (ix2 & Hm & Hrun). rewrite Hm. simpl.
  apply pymod_inr in Hm as [-> _]. eapply loop_iy2_events, Hrun.
Qed.

Lemma loop_ix2_events ifirst1 Ni ix1 iy1 iz1 s s' :
  loop_ix2 act L ifirst1 Ni ix1 iy1 iz1 s = inr s' ->
  forall t, loop_ix2 act' L ifirst1 Ni ix1 iy1 iz1 t
            = for_ (events_ix2 L ifirst1 Ni ix1 iy1 iz1) (on_event act') t.
Proof.
  unfold loop_ix2, events_ix2. intros Hrun.
  eapply for_factor; [exact Hrun|]. intros a u u' _. apply ix2_block_events.
Qed.

Lemma cell1_block_events icell1 s s' :
  cell1_block act L icell1 s = inr s' ->
  forall t, cell1_block act' L icell1 t
            = for_ (events_cell1 L icell1) (on_event act') t.
Proof.
  unfold cell1_block, events_cell1. intros Hrun t.
  apply bind_inr in Hrun as (ifirst1 & Hf & Hrun).
  apply bind_inr in Hrun as (ilast1 & Hl & Hrun).
  rewrite Hf, Hl. simpl.
  rewrite (at_rd 0 _ _ _ Hf), (at_rd 0 _ _ _ Hl).
  destruct (ilast1 - ifirst1 >? 0); [|reflexivity].
  apply bind_inr in Hrun as (ix1 & Hx & Hrun).
  apply bind_inr in Hrun as (iy1 & Hy & Hrun).
  rewrite Hx. simpl. rewrite Hy. simpl.
  apply floordiv_inr in Hx as [-> _]. apply floordiv_inr in Hy as [-> _].
  eapply loop_ix2_events, Hrun.
Qed.

(** If the nest returns for one innermost block and one start state, then
    for every innermost block and start state it is the fold of that block
    over [events]. *)
Lemma nest_events first last s s' :
  cell1_loop act L first last s = inr s' ->
  forall t, cell1_loop act' L first last t
            = for_ (events L first last) (on_event act') t.
Proof.
  unfold cell1_loop, events. intros Hrun.
  eapply for_factor; [exact Hrun|]. intros c u u' _. apply cell1_block_events.
Qed.

End NestEvents.

(** ** The innermost block *)

Section PairBlock.

Context {F : Type} `{Float64 F}.

Lemma mapM_inr {A B} (f : A -> M B) (l : list A) (bs : list B) :
  mapM f l = inr bs <-> Forall2 (fun a b => f a = inr b) l bs.
Proof.
  revert bs. induction l as [|a l IH]; intros bs; simpl.
  - split; [intros Hx; inversion Hx; constructor | intros Hx; now inversion Hx].
  - split.
    + intros Hx. apply bind_inr in Hx as (b & Hb & Hx).
      apply bind_inr in Hx as (bs' & Hbs & Hx). inversion Hx; subst.
      constructor; [exact Hb | now apply IH].
    + intros Hx. inversion Hx as [|? b ? bs' Hb Hbs]; subst.
      rewrite Hb. simpl. apply IH in Hbs. now rewrite Hbs.
Qed.

Lemma np_index_elem {A} (a : list A) (k : Z) (v : A) :
  np_index a k = inr v -> v ∈ a.
Proof.
  unfold np_index.
  destruct ((0 <=? k) && (k <? Z.of_nat (length a)));
    [|destruct ((- Z.of_nat (length a) <=? k) && (k <? 0)); [|discriminate]];
    intros [_ Hv]%at_inr; eapply list_elem_of_lookup_2, Hv.
Qed.

Lemma np_take_Forall {A} (P : A -> Prop) (a b : list A) (idx : list Z) :
  np_take a idx = inr b -> Forall P a -> Forall P b.
Proof.
  unfold np_take. intros Hb%mapM_inr Ha.
  induction Hb as [|k v idx b Hk _ IH]; constructor; [|exact IH].
  rewrite Forall_forall in Ha. apply Ha. eapply np_index_elem, Hk.
Qed.

Lemma upd_inr {A} (a a' : list A) (k : Z) (f : A -> A) :
  upd a k f = inr a' ->
  exists v, at_ a k = inr v /\ a' = <[Z.to_nat k := f v]> a.
Proof.
  unfold upd. intros (v & Hv & Hx)%bind_inr. inversion Hx; subst. eauto.
Qed.

(** What a call of the innermost block that returns has done. *)
Lemma pair_block_inr (L : locals F) p x1tmp y1tmp z1tmp q st st' :
  pair_block L p x1tmp y1tmp z1tmp q st = inr st' ->
  exists x2 y2 z2 w2,
    at_ (x2_sorted L) q = inr x2 /\ at_ (y2_sorted L) q = inr y2 /\
    at_ (z2_sorted L) q = inr z2 /\ at_ (w2_sorted L) q = inr w2 /\
    let dx := (x1tmp - x2)%f64 in
    let dy := (y1tmp - y2)%f64 in
    let dz := (z1tmp - z2)%f64 in
    ((dist_sq dx dy dz <? rsmooth_squared L)%f64 = false /\ st' = st) \/
    ((dist_sq dx dy dz <? rsmooth_squared L)%f64 = true /\
     exists t s,
       at_ (inertia_tensor st) p = inr t /\ at_ (sum_weights st) p = inr s /\
       st' = {| inertia_tensor :=
                  <[Z.to_nat p := add_products (dx * dx * w2)%f64 (dy * dy * w2)%f64
                                    (dz * dz * w2)%f64 (dx * dy * w2)%f64
                                    (dx * dz * w2)%f64 (dy * dz * w2)%f64 t]>
                    (inertia_tensor st);
                sum_weights := <[Z.to_nat p := (s + w2)%f64]> (sum_weights st) |}).
Proof.
  unfold pair_block. intros Hrun.
  apply bind_inr in Hrun as (x2 & Hx & Hrun).
  apply bind_inr in Hrun as (y2 & Hy & Hrun).
  apply bind_inr in Hrun as (z2 & Hz & Hrun).
  apply bind_inr in Hrun as (w2 & Hw & Hrun).
  exists x2, y2, z2, w2. repeat (split; [assumption|]). cbv zeta.
  destruct (f_ltb _ _).
  - right. split; [reflexivity|].
    apply bind_inr in Hrun as (T & HT & Hrun).
    apply bind_inr in Hrun as (W & HW & Hrun).
    apply upd_inr in HT as (t & Ht & ->). apply upd_inr in HW as (s & Hs & ->).
    exists t, s. inversion Hrun; subst. auto.
  - left. inversion Hrun; subst. auto.
Qed.

Lemma add_products_symmetric xx yy zz xy xz yz (t : tensor F) :
  symmetric t -> symmetric (add_products xx yy zz xy xz yz t).
Proof.
  unfold symmetric. intros (H01 & H02 & H12). simpl.
  rewrite H01, H02, H12. auto.
Qed.

Lemma pair_block_symmetric (L : locals F) p x1tmp y1tmp z1tmp q st st' :
  pair_block L p x1tmp y1tmp z1tmp q st = inr st' ->
  Forall symmetric (inertia_tensor st) -> Forall symmetric (inertia_tensor st').
Proof.
  intros (x2 & y2 & z2 & w2 & _ & _ & _ & _ & Hcase)%pair_block_inr Hsym.
  destruct Hcase as [[_ ->] | (_ & t & s & Ht & _ & ->)]; [exact Hsym|].
  simpl. apply Forall_insert; [exact Hsym|].
  apply add_products_symmetric.
  apply at_inr in Ht as [_ Ht].
  rewrite Forall_forall in Hsym. eapply Hsym, list_elem_of_lookup_2, Ht.
Qed.

Lemma pair_block_length (L : locals F) p x1tmp y1tmp z1tmp q st st' :
  pair_block L p x1tmp y1tmp z1tmp q st = inr st' ->
  length (inertia_tensor st') = length (inertia_tensor st) /\
  length (sum_weights st') = length (sum_weights st).
Proof.
  intros (x2 & y2 & z2 & w2 & _ & _ & _ & _ & Hcase)%pair_block_inr.
  destruct Hcase as [[_ ->] | (_ & t & s & _ & _ & ->)]; [auto|].
  simpl. now rewrite !length_insert.
Qed.

End PairBlock.

(** ** The engine's result *)

Section EngineFacts.

Context {F : Type} `{Float64 F}.
Variable unsorting_indices : list Z -> list Z.

(** The three stages of a call that returns. *)
Lemma engine_inr dm x1in y1in z1in x2in y2in z2in weights2in rsmooth cell1_tuple T W :
  inertia_tensor_per_object_engine unsorting_indices dm x1in y1in z1in x2in y2in z2in
    weights2in rsmooth cell1_tuple = inr (T, W) ->
  exists L st,
    setup dm x1in y1in z1in x2in y2in z2in weights2in rsmooth = inr L /\
    for_ (events L (fst cell1_tuple) (snd cell1_tuple)) (on_event (pair_block L))
         (accum_zero (length (x1_sorted L))) = inr st /\
    cell1_loop (pair_block L) L (fst cell1_tuple) (snd cell1_tuple)
         (accum_zero (length (x1_sorted L))) = inr st /\
    np_take (sum_weights st) (unsorting_indices (idx_sorted (mesh1 dm))) = inr W /\
    np_take (inertia_tensor st) (unsorting_indices (idx_sorted (mesh1 dm))) = inr T.
Proof.
  unfold inertia_tensor_per_object_engine. intros Hrun.
  apply bind_inr in Hrun as (a & [-> _]%to_c_int64_inr & Hrun).
  apply bind_inr in Hrun as (b & [-> _]%to_c_int64_inr & Hrun).
  apply bind_inr in Hrun as (L & HL & Hrun).
  apply bind_inr in Hrun as (st & Hst & Hrun).
  apply bind_inr in Hrun as (W' & HW & Hrun).
  apply bind_inr in Hrun as (T' & HT & Hrun).
  inversion Hrun; subst. exists L, st. repeat split; try assumption.
  now rewrite <- (nest_events (pair_block L) (pair_block L) L _ _ _ _ Hst).
Qed.

(** And conversely. *)
Lemma engine_intro dm x1in y1in z1in x2in y2in z2in weights2in rsmooth cell1_tuple
    L st T W :
  fits_c_int64 (fst cell1_tuple) = true -> fits_c_int64 (snd cell1_tuple) = true ->
  setup dm x1in y1in z1in x2in y2in z2in weights2in rsmooth = inr L ->
  cell1_loop (pair_block L) L (fst cell1_tuple) (snd cell1_tuple)
    (accum_zero (length (x1_sorted L))) = inr st ->
  np_take (sum_weights st) (unsorting_indices (idx_sorted (mesh1 dm))) = inr W ->
  np_take (inertia_tensor st) (unsorting_indices (idx_sorted (mesh1 dm))) = inr T ->
  inertia_tensor_per_object_engine unsorting_indices dm x1in y1in z1in x2in y2in z2in
    weights2in rsmooth cell1_tuple = inr (T, W).
Proof.
  intros Ha Hb HL Hst HW HT. unfold inertia_tensor_per_object_engine.
  rewrite (to_c_int64_returns _ Ha), (to_c_int64_returns _ Hb). simpl.
  rewrite HL. simpl. rewrite Hst. simpl. rewrite HW. simpl. now rewrite HT.
Qed.

(** The two ends of the range of a call that returns fit an [int64]. *)
Lemma engine_range_fits dm x1in y1in z1in x2in y2in z2in weights2in rsmooth cell1_tuple r :
  inertia_tensor_per_object_engine unsorting_indices dm x1in y1in z1in x2in y2in z2in
    weights2in rsmooth cell1_tuple = inr r ->
  fits_c_int64 (fst cell1_tuple) = true /\ fits_c_int64 (snd cell1_tuple) = true.
Proof.
  unfold inertia_tensor_per_object_engine, to_c_int64. intros Hrun.
  destruct (fits_c_int64 (fst cell1_tuple)); [|discriminate].
  destruct (fits_c_int64 (snd cell1_tuple)); [|discriminate]. auto.
Qed.

Lemma events_symmetric (L : locals F) (evs : list (event F)) st st' :
  for_ evs (on_event (pair_block L)) st = inr st' ->
  Forall symmetric (inertia_tensor st) -> Forall symmetric (inertia_tensor st').
Proof.
  intros Hrun Hsym. revert Hrun.
  apply (for_inv (fun u => Forall symmetric (inertia_tensor u))); [exact Hsym|].
  intros [[[[p x] y] z] q] u u' _ Hu Hstep. eapply pair_block_symmetric; eauto.
Qed.

(** C6.  Every tensor of the returned array is symmetric: for every input
    for which the engine returns and every point [i] of the result,
    [tensor[i][0][1] = tensor[i][1][0]], [tensor[i][0][2] = tensor[i][2][0]]
    and [tensor[i][1][2] = tensor[i][2][1]]. *)
Theorem engine_tensor_symmetric dm x1in y1in z1in x2in y2in z2in weights2in rsmooth
    cell1_tuple T W :
  inertia_tensor_per_object_engine unsorting_indices dm x1in y1in z1in x2in y2in z2in
    weights2in rsmooth cell1_tuple = inr (T, W) ->
  forall (i : nat) (t : tensor F),
    T !! i = Some t -> t01 t = t10 t /\ t02 t = t20 t /\ t12 t = t21 t.
Proof.
  intros (L & st & _ & Hfold & _ & _ & HT)%engine_inr i t Hi.
  assert (Hsym : Forall symmetric T).
  { eapply np_take_Forall; [exact HT|].
    eapply events_symmetric; [exact Hfold|].
    simpl. apply Forall_replicate. repeat split. }
  rewrite Forall_forall in Hsym. eapply Hsym, list_elem_of_lookup_2, Hi.
Qed.

End EngineFacts.

(** ** What the set-up has done *)

Lemma setup_inr {F : Type} `{Float64 F} (dm : double_mesh F)
    x1in y1in z1in x2in y2in z2in weights2in (rsmooth : F) (L : locals F) :
  setup dm x1in y1in z1in x2in y2in z2in weights2in rsmooth = inr L ->
  (np_take x1in (idx_sorted (mesh1 dm)) = inr (x1_sorted L) /\
   np_take y1in (idx_sorted (mesh1 dm)) = inr (y1_sorted L) /\
   np_take z1in (idx_sorted (mesh1 dm)) = inr (z1_sorted L) /\
   np_take x2in (idx_sorted (mesh2 dm)) = inr (x2_sorted L) /\
   np_take y2in (idx_sorted (mesh2 dm)) = inr (y2_sorted L) /\
   np_take z2in (idx_sorted (mesh2 dm)) = inr (z2_sorted L) /\
   np_take weights2in (idx_sorted (mesh2 dm)) = inr (w2_sorted L)) /\
  (floordiv (num_xdivs (mesh2 dm)) (num_xdivs (mesh1 dm)) = inr (num_x2_per_x1 L) /\
   floordiv (num_ydivs (mesh2 dm)) (num_ydivs (mesh1 dm)) = inr (num_y2_per_y1 L) /\
   floordiv (num_zdivs (mesh2 dm)) (num_zdivs (mesh1 dm)) = inr (num_z2_per_z1 L)) /\
  (rsmooth_squared L = (rsmooth * rsmooth)%f64 /\
   l_xperiod L = xperiod dm /\ l_yperiod L = yperiod dm /\ l_zperiod L = zperiod dm /\
   PBCs L = _PBCs dm) /\
  (cell1_indices L = cell_id_indices (mesh1 dm) /\
   cell2_indices L = cell_id_indices (mesh2 dm)) /\
  (num_x1divs L = num_xdivs (mesh1 dm) /\ num_y1divs L = num_ydivs (mesh1 dm) /\
   num_z1divs L = num_zdivs (mesh1 dm) /\
   num_x2divs L = num_xdivs (mesh2 dm) /\ num_y2divs L = num_ydivs (mesh2 dm) /\
   num_z2divs L = num_zdivs (mesh2 dm)) /\
  (covering_steps (search_xlength dm) (xcell_size (mesh2 dm))
   = inr (num_x2_covering_steps L) /\
   covering_steps (search_ylength dm) (ycell_size (mesh2 dm))
   = inr (num_y2_covering_steps L) /\
   covering_steps (search_zlength dm) (zcell_size (mesh2 dm))
   = inr (num_z2_covering_steps L)).
Proof.
  unfold setup. intros H1.
  apply bind_inr in H1 as (pbcs & [-> _]%to_c_int_inr & H1).
  apply bind_inr in H1 as (nc & _ & H1).
  apply bind_inr in H1 as (x1s & Ex1 & H1).
  apply bind_inr in H1 as (y1s & Ey1 & H1).
  apply bind_inr in H1 as (z1s & Ez1 & H1).
  apply bind_inr in H1 as (x2s & Ex2 & H1).
  apply bind_inr in H1 as (y2s & Ey2 & H1).
  apply bind_inr in H1 as (z2s & Ez2 & H1).
  apply bind_inr in H1 as (w2s & Ew2 & H1).
  apply bind_inr in H1 as (cx & Ecx & H1).
  apply bind_inr in H1 as (cy & Ecy & H1).
  apply bind_inr in H1 as (cz & Ecz & H1).
  apply bind_inr in H1 as (n1x & [-> _]%to_c_int_inr & H1).
  apply bind_inr in H1 as (n1y & [-> _]%to_c_int_inr & H1).
  apply bind_inr in H1 as (n1z & [-> _]%to_c_int_inr & H1).
  apply bind_inr in H1 as (n2x & [-> _]%to_c_int_inr & H1).
  apply bind_inr in H1 as (n2y & [-> _]%to_c_int_inr & H1).
  apply bind_inr in H1 as (n2z & [-> _]%to_c_int_inr & H1).
  apply bind_inr in H1 as (rx & Erx & H1).
  apply bind_inr in H1 as (ry & Ery & H1).
  apply bind_inr in H1 as (rz & Erz & H1).
  inversion H1; subst L; simpl. repeat split; assumption.
Qed.

(** What the conversions of a set-up that returns have checked. *)
Lemma setup_fits {F : Type} `{Float64 F} (dm : double_mesh F)
    x1in y1in z1in x2in y2in z2in weights2in (rsmooth : F) (L : locals F) :
  setup dm x1in y1in z1in x2in y2in z2in weights2in rsmooth = inr L ->
  fits_c_int (_PBCs dm) = true /\ fits_c_int (ncells (mesh1 dm)) = true.
Proof.
  unfold setup, to_c_int. intros H1.
  destruct (fits_c_int (_PBCs dm)); [|discriminate].
  destruct (fits_c_int (ncells (mesh1 dm))); [|discriminate]. auto.
Qed.

(** ** The radius test *)

Lemma setup_rsmooth_squared {F : Type} `{Float64 F} (dm : double_mesh F)
    x1in y1in z1in x2in y2in z2in weights2in (rsmooth : F) (L : locals F) :
  setup dm x1in y1in z1in x2in y2in z2in weights2in rsmooth = inr L ->
  rsmooth_squared L = (rsmooth * rsmooth)%f64.
Proof. intros (_ & _ & (E & _) & _)%setup_inr. exact E. Qed.

Section Strict.

Context {F : Type} `{Float64 F}.
Hypothesis f_ltb_irrefl : forall x : F, (x <? x)%f64 = false.

(** C4.  The distance test is strict.  For a pair whose squared separation
    equals the squared smoothing radius the innermost block returns the
    accumulator as it was: nothing is added to the tensor or to the weight
    sum of the point. *)
Theorem pair_at_radius_excluded (L : locals F) (rsmooth : F) p x1tmp y1tmp z1tmp q
    (st : accum F) x2 y2 z2 w2 :
  rsmooth_squared L = (rsmooth * rsmooth)%f64 ->
  at_ (x2_sorted L) q = inr x2 ->
  at_ (y2_sorted L) q = inr y2 ->
  at_ (z2_sorted L) q = inr z2 ->
  at_ (w2_sorted L) q = inr w2 ->
  dist_sq (x1tmp - x2)%f64 (y1tmp - y2)%f64 (z1tmp - z2)%f64 = (rsmooth * rsmooth)%f64 ->
  pair_block L p x1tmp y1tmp z1tmp q st = inr st.
Proof.
  intros Hr Hx Hy Hz Hw Hd. unfold pair_block.
  rewrite Hx, Hy, Hz, Hw. simpl. rewrite Hd, Hr, f_ltb_irrefl. reflexivity.
Qed.

End Strict.

(** ** The sign of the radius *)

Section RadiusSign.

Context {F : Type} `{Float64 F}.
Variable unsorting_indices : list Z -> list Z.
Hypothesis f_mul_neg_neg : forall x : F, (- x * - x)%f64 = (x * x)%f64.

(** C3, as the code has it.  The engine does not test the sign of the
    radius: the radius enters through its square only, so the call with
    [- rsmooth] is the call with [rsmooth]. *)
Theorem negative_radius_is_squared (dm : double_mesh F)
    x1in y1in z1in x2in y2in z2in weights2in (rsmooth : F) cell1_tuple :
  inertia_tensor_per_object_engine unsorting_indices dm x1in y1in z1in x2in y2in z2in
    weights2in (- rsmooth)%f64 cell1_tuple
  = inertia_tensor_per_object_engine unsorting_indices dm x1in y1in z1in x2in y2in z2in
      weights2in rsmooth cell1_tuple.
Proof.
  unfold inertia_tensor_per_object_engine, setup.
  now rewrite f_mul_neg_neg.
Qed.

End RadiusSign.

(** ** Splitting the range of cells *)

Lemma range_split (a b c : Z) : a <= b <= c -> range a c = range a b ++ range b c.
Proof.
  intros Habc. unfold range.
  replace (c - a) with ((b - a) + (c - b)) by lia.
  rewrite seqZ_app by lia. do 2 f_equal. lia.
Qed.

Lemma np_take_zip_with {A} (f : A -> A -> A) (a b a' b' : list A) (idx : list Z) :
  length a = length b ->
  np_take a idx = inr a' -> np_take b idx = inr b' ->
  np_take (zip_with f a b) idx = inr (zip_with f a' b').
Proof.
  unfold np_take. intros Hlen Ha%mapM_inr Hb%mapM_inr. apply mapM_inr.
  revert b' Hb. induction Ha as [|k v idx a' Hk _ IH]; intros b' Hb;
    inversion Hb as [|? w ? b'' Hk' Hb']; subst; simpl; constructor; [|now apply IH].
  clear IH Hb Hb'. unfold np_index in *.
  rewrite length_zip_with, <- Hlen, Nat.min_id. rewrite <- Hlen in Hk'.
  assert (Hat : forall j u w', at_ a j = inr u -> at_ b j = inr w' ->
                               at_ (zip_with f a b) j = inr (f u w')).
  { intros j u w' [Hj Hu]%at_inr [_ Hw]%at_inr. apply at_inr. split; [exact Hj|].
    rewrite lookup_zip_with, Hu, Hw. reflexivity. }
  destruct ((0 <=? k) && (k <? Z.of_nat (length a)));
    [|destruct ((- Z.of_nat (length a) <=? k) && (k <? 0)); [|discriminate]];
    now apply Hat.
Qed.

Lemma np_take_zip_with_inv {A} (f : A -> A -> A) (a b c : list A) (idx : list Z) :
  length a = length b ->
  np_take (zip_with f a b) idx = inr c ->
  exists a' b', np_take a idx = inr a' /\ np_take b idx = inr b' /\
                c = zip_with f a' b'.
Proof.
  unfold np_take. intros Hlen Hc%mapM_inr.
  assert (Hat : forall j v, at_ (zip_with f a b) j = inr v ->
            exists u w, at_ a j = inr u /\ at_ b j = inr w /\ v = f u w).
  { intros j v [Hj Hv]%at_inr.
    apply lookup_zip_with_Some in Hv as (u & w & -> & Hu & Hw).
    exists u, w. repeat split; apply at_inr; auto. }
  induction Hc as [|k v idx c Hk _ IH].
  - exists [], []. repeat split.
  - destruct IH as (a' & b' & Ha' & Hb' & ->).
    assert (Hkk : exists u w, np_index a k = inr u /\ np_index b k = inr w /\ v = f u w).
    { unfold np_index in *. rewrite length_zip_with, <- Hlen, Nat.min_id in Hk.
      rewrite <- Hlen.
      destruct ((0 <=? k) && (k <? Z.of_nat (length a)));
        [|destruct ((- Z.of_nat (length a) <=? k) && (k <? 0)); [|discriminate]];
        now apply Hat. }
    destruct Hkk as (u & w & Hu & Hw & ->).
    exists (u :: a'), (w :: b'). simpl. rewrite Hu, Hw. simpl.
    apply mapM_inr in Ha', Hb'. unfold np_take. apply mapM_inr in Ha', Hb'.
    now rewrite Ha', Hb'.
Qed.

Section Additivity.

Context {F : Type} `{Float64 F}.
Variable unsorting_indices : list Z -> list Z.
Hypothesis f_add_0_r : forall x : F, (x + f_zero)%f64 = x.
Hypothesis f_add_assoc : forall x y z : F, (x + (y + z))%f64 = (x + y + z)%f64.

Lemma tensor_add_zero_r (t : tensor F) : tensor_add t tensor_zero = t.
Proof. destruct t. unfold tensor_add. simpl. now rewrite !f_add_0_r. Qed.

Lemma accum_add_zero_r (s : accum F) (n : nat) :
  length (inertia_tensor s) = n -> length (sum_weights s) = n ->
  accum_add s (accum_zero n) = s.
Proof.
  intros HT HW. destruct s as [T W]. unfold accum_add, accum_zero. simpl in *.
  rewrite !zip_with_replicate_r_eq by assumption. f_equal.
  - transitivity (id <$> T); [|apply list_fmap_id].
    apply list_fmap_ext. intros i t _. apply tensor_add_zero_r.
  - transitivity (id <$> W); [|apply list_fmap_id].
    apply list_fmap_ext. intros i w _. apply f_add_0_r.
Qed.

Lemma add_products_tensor_add xx yy zz xy xz yz (t u : tensor F) :
  add_products xx yy zz xy xz yz (tensor_add t u)
  = tensor_add t (add_products xx yy zz xy xz yz u).
Proof. unfold add_products, tensor_add. simpl. now rewrite !f_add_assoc. Qed.

(** The innermost block adds to the accumulator what it adds to any other
    accumulator of the same size. *)
Lemma pair_block_accum_add (L : locals F) p x1tmp y1tmp z1tmp q (s d d' : accum F) :
  length (inertia_tensor s) = length (inertia_tensor d) ->
  length (sum_weights s) = length (sum_weights d) ->
  pair_block L p x1tmp y1tmp z1tmp q d = inr d' ->
  pair_block L p x1tmp y1tmp z1tmp q (accum_add s d) = inr (accum_add s d').
Proof.
  intros HT HW Hrun.
  apply pair_block_inr in Hrun
    as (x2 & y2 & z2 & w2 & Hx & Hy & Hz & Hw & Hcase).
  unfold pair_block. rewrite Hx, Hy, Hz, Hw. simpl.
  destruct Hcase as [[-> ->] | (-> & t & w & Ht & Hs & ->)]; [reflexivity|].
  apply at_inr in Ht as [Hp Ht]. apply at_inr in Hs as [_ Hs].
  destruct (lookup_lt_is_Some_2 (inertia_tensor s) (Z.to_nat p)) as [ts Hts].
  { rewrite HT. eapply lookup_lt_Some, Ht. }
  destruct (lookup_lt_is_Some_2 (sum_weights s) (Z.to_nat p)) as [ws Hws].
  { rewrite HW. eapply lookup_lt_Some, Hs. }
  unfold upd, accum_add. simpl.
  assert (HaT : at_ (zip_with tensor_add (inertia_tensor s) (inertia_tensor d)) p
                = inr (tensor_add ts t)).
  { apply at_inr. split; [exact Hp|]. now rewrite lookup_zip_with, Hts, Ht. }
  assert (HaW : at_ (zip_with f_add (sum_weights s) (sum_weights d)) p
                = inr (ws + w)%f64).
  { apply at_inr. split; [exact Hp|]. now rewrite lookup_zip_with, Hws, Hs. }
  rewrite HaT, HaW. simpl. unfold ret. do 2 f_equal.
  - rewrite add_products_tensor_add, insert_zip_with.
    now rewrite (list_insert_id _ _ _ Hts).
  - rewrite <- f_add_assoc, insert_zip_with.
    now rewrite (list_insert_id _ _ _ Hws).
Qed.

Lemma events_length (L : locals F) (evs : list (event F)) (d d' : accum F) :
  for_ evs (on_event (pair_block L)) d = inr d' ->
  length (inertia_tensor d') = length (inertia_tensor d) /\
  length (sum_weights d') = length (sum_weights d).
Proof.
  apply (for_inv (fun u => length (inertia_tensor u) = length (inertia_tensor d) /\
                           length (sum_weights u) = length (sum_weights d)));
    [auto|].
  intros [[[[p x] y] z] q] u u' _ [HT HW] Hstep.
  apply pair_block_length in Hstep as [-> ->]. auto.
Qed.

Lemma events_accum_add (L : locals F) (evs : list (event F)) (s d d' : accum F) :
  length (inertia_tensor s) = length (inertia_tensor d) ->
  length (sum_weights s) = length (sum_weights d) ->
  for_ evs (on_event (pair_block L)) d = inr d' ->
  for_ evs (on_event (pair_block L)) (accum_add s d) = inr (accum_add s d').
Proof.
  revert d. induction evs as [|[[[[p x] y] z] q] evs IH]; intros d HT HW Hrun;
    simpl in *.
  - now inversion Hrun.
  - apply bind_inr in Hrun as (d1 & Hstep & Hrun).
    rewrite (pair_block_accum_add L p x y z q s d d1 HT HW Hstep). simpl.
    apply pair_block_length in Hstep as [HT1 HW1].
    apply IH; [congruence | congruence | exact Hrun].
Qed.

(** And conversely: what the innermost block does on a sum it does on the
    second summand. *)
Lemma pair_block_accum_add_inv (L : locals F) p x1tmp y1tmp z1tmp q (s d s' : accum F) :
  length (inertia_tensor s) = length (inertia_tensor d) ->
  length (sum_weights s) = length (sum_weights d) ->
  pair_block L p x1tmp y1tmp z1tmp q (accum_add s d) = inr s' ->
  exists d', pair_block L p x1tmp y1tmp z1tmp q d = inr d' /\ s' = accum_add s d'.
Proof.
  intros HT HW Hrun.
  assert (Hd : exists d', pair_block L p x1tmp y1tmp z1tmp q d = inr d').
  { apply pair_block_inr in Hrun
      as (x2 & y2 & z2 & w2 & Hx & Hy & Hz & Hw & Hcase).
    unfold pair_block. rewrite Hx, Hy, Hz, Hw. simpl.
    destruct Hcase as [[-> _] | (-> & t & w & Ht & Hs & _)]; [eauto|].
    apply at_inr in Ht as [Hp Ht]. apply at_inr in Hs as [_ Hs]. simpl in Ht, Hs.
    apply lookup_zip_with_Some in Ht as (? & td & _ & _ & Htd).
    apply lookup_zip_with_Some in Hs as (? & wd & _ & _ & Hwd).
    unfold upd.
    assert (Ea : at_ (inertia_tensor d) p = inr td) by (apply at_inr; auto).
    assert (Eb : at_ (sum_weights d) p = inr wd) by (apply at_inr; auto).
    rewrite Ea, Eb. simpl. eauto. }
  destruct Hd as [d' Hd]. exists d'. split; [exact Hd|].
  rewrite (pair_block_accum_add L p x1tmp y1tmp z1tmp q s d d' HT HW Hd) in Hrun.
  now inversion Hrun.
Qed.

Lemma events_accum_add_inv (L : locals F) (evs : list (event F)) (s d s' : accum F) :
  length (inertia_tensor s) = length (inertia_tensor d) ->
  length (sum_weights s) = length (sum_weights d) ->
  for_ evs (on_event (pair_block L)) (accum_add s d) = inr s' ->
  exists d', for_ evs (on_event (pair_block L)) d = inr d' /\ s' = accum_add s d'.
Proof.
  revert d. induction evs as [|[[[[p x] y] z] q] evs IH]; intros d HT HW Hrun;
    simpl in *.
  - inversion Hrun; subst. eauto.
  - apply bind_inr in Hrun as (s1 & Hstep & Hrun).
    apply pair_block_accum_add_inv in Hstep as (d1 & Hstep & ->); [|exact HT|exact HW].
    rewrite Hstep. simpl.
    apply pair_block_length in Hstep as [HT1 HW1].
    apply IH; [congruence | congruence | exact Hrun].
Qed.

(** The loop over the cells of [first, last), started from what the loop
    over [first, mid) has left, adds what it computes from zero. *)
Lemma cell1_loop_split (L : locals F) (first mid last : Z) (n : nat) (s1 s2 : accum F) :
  first <= mid <= last ->
  cell1_loop (pair_block L) L first mid (accum_zero n) = inr s1 ->
  cell1_loop (pair_block L) L mid last (accum_zero n) = inr s2 ->
  cell1_loop (pair_block L) L first last (accum_zero n) = inr (accum_add s1 s2).
Proof.
  intros Hsplit H1 H2.
  pose proof (nest_events (pair_block L) (pair_block L) L _ _ _ _ H1) as E1.
  pose proof (nest_events (pair_block L) (pair_block L) L _ _ _ _ H2) as E2.
  assert (Hlen1 : length (inertia_tensor s1) = n /\ length (sum_weights s1) = n).
  { rewrite E1 in H1. apply events_length in H1. simpl in H1.
    now rewrite !length_replicate in H1. }
  destruct Hlen1 as [HT1 HW1].
  unfold cell1_loop in *. rewrite (range_split first mid last Hsplit), for_app.
  rewrite H1. simpl.
  rewrite E2. rewrite E2 in H2.
  rewrite <- (accum_add_zero_r s1 n HT1 HW1) at 1.
  apply events_accum_add; [| | exact H2]; simpl; now rewrite length_replicate.
Qed.

(** A loop over [first, last) that returns is made of a loop over
    [first, mid) and a loop over [mid, last) that return. *)
Lemma cell1_loop_split_inv (L : locals F) (first mid last : Z) (n : nat) (s : accum F) :
  first <= mid <= last ->
  cell1_loop (pair_block L) L first last (accum_zero n) = inr s ->
  exists s1 s2,
    cell1_loop (pair_block L) L first mid (accum_zero n) = inr s1 /\
    cell1_loop (pair_block L) L mid last (accum_zero n) = inr s2 /\
    s = accum_add s1 s2.
Proof.
  intros Hsplit Hrun. unfold cell1_loop in *.
  rewrite (range_split first mid last Hsplit), for_app in Hrun.
  apply bind_inr in Hrun as (s1 & H1 & H2).
  pose proof (nest_events (pair_block L) (pair_block L) L first mid _ _ H1) as E1.
  pose proof (nest_events (pair_block L) (pair_block L) L mid last _ _ H2) as E2.
  unfold cell1_loop in E1, E2.
  assert (Hlen1 : length (inertia_tensor s1) = n /\ length (sum_weights s1) = n).
  { rewrite E1 in H1. apply events_length in H1. simpl in H1.
    now rewrite !length_replicate in H1. }
  destruct Hlen1 as [HT1 HW1].
  rewrite E2 in H2. rewrite <- (accum_add_zero_r s1 n HT1 HW1) in H2.
  apply events_accum_add_inv in H2 as (s2 & H2 & ->);
    [|simpl; now rewrite length_replicate..].
  exists s1, s2. rewrite E2. auto.
Qed.

(** In exact arithmetic, for every input, also one with cells of mesh 1
    that overlap.  Split the range of cell ids of mesh 1, [0, total), at
    [k] into [0, k) and [k, total).  The engine returns on [0, total)
    exactly when it returns on each of the two, and what it returns is the
    element-wise sum of the two tensor arrays and of the two weight-sum
    arrays. *)
Theorem range_partition_additive (dm : double_mesh F)
    x1in y1in z1in x2in y2in z2in weights2in (rsmooth : F) (k total : Z) r :
  0 <= k <= total ->
  inertia_tensor_per_object_engine unsorting_indices dm x1in y1in z1in x2in y2in z2in
    weights2in rsmooth (0, total) = inr r
  <->
  exists r1 r2,
    inertia_tensor_per_object_engine unsorting_indices dm x1in y1in z1in x2in y2in z2in
      weights2in rsmooth (0, k) = inr r1 /\
    inertia_tensor_per_object_engine unsorting_indices dm x1in y1in z1in x2in y2in z2in
      weights2in rsmooth (k, total) = inr r2 /\
    r = result_add r1 r2.
Proof.
  intros Hsplit.
  assert (Hfit : forall a b, 0 <= a <= b -> fits_c_int64 b = true ->
                             fits_c_int64 a = true).
  { unfold fits_c_int64. intros a b Hab [H1%Z.leb_le H2%Z.ltb_lt]%andb_prop.
    apply andb_true_intro. split; [apply Z.leb_le | apply Z.ltb_lt]; lia. }
  split.
  - destruct r as [T W]. intros Hrun.
    destruct (engine_range_fits _ _ _ _ _ _ _ _ _ _ _ _ Hrun) as [F0 Ft]. simpl in F0, Ft.
    assert (Fk : fits_c_int64 k = true) by (apply (Hfit k total); [lia | exact Ft]).
    apply engine_inr in Hrun as (L & st & HL & E & N & HW & HT). simpl in *.
    apply cell1_loop_split_inv with (mid := k) in N as (s1 & s2 & N1 & N2 & ->);
      [|exact Hsplit].
    pose proof N1 as E1. pose proof N2 as E2.
    rewrite (nest_events (pair_block L) (pair_block L) L _ _ _ _ N1) in E1.
    rewrite (nest_events (pair_block L) (pair_block L) L _ _ _ _ N2) in E2.
    apply events_length in E1 as [LT1 LW1]. apply events_length in E2 as [LT2 LW2].
    simpl in LT1, LW1, LT2, LW2. rewrite ?length_replicate in LT1, LW1, LT2, LW2.
    simpl in HW, HT.
    apply np_take_zip_with_inv in HW as (W1 & W2 & HW1 & HW2 & ->); [|congruence].
    apply np_take_zip_with_inv in HT as (T1 & T2 & HT1 & HT2 & ->); [|congruence].
    exists (T1, W1), (T2, W2).
    split; [|split; [|reflexivity]];
      eapply engine_intro; simpl; eassumption.
  - intros ([T1 W1] & [T2 W2] & H1 & H2 & ->).
    destruct (engine_range_fits _ _ _ _ _ _ _ _ _ _ _ _ H1) as [F0 _].
    destruct (engine_range_fits _ _ _ _ _ _ _ _ _ _ _ _ H2) as [_ Ft].
    apply engine_inr in H1 as (L & s1 & HL & E1 & N1 & HW1 & HT1).
    apply engine_inr in H2 as (L' & s2 & HL' & E2 & N2 & HW2 & HT2).
    rewrite HL in HL'. inversion HL'; subst L'. simpl in *.
    apply events_length in E1 as [LT1 LW1]. apply events_length in E2 as [LT2 LW2].
    simpl in *. rewrite ?length_replicate in LT1, LW1, LT2, LW2.
    assert (LT : length (inertia_tensor s1) = length (inertia_tensor s2)) by congruence.
    assert (LW : length (sum_weights s1) = length (sum_weights s2)) by congruence.
    eapply engine_intro; [exact F0 | exact Ft | exact HL | | |].
    + exact (cell1_loop_split L 0 k total _ s1 s2 Hsplit N1 N2).
    + exact (np_take_zip_with f_add _ _ W1 W2 _ LW HW1 HW2).
    + exact (np_take_zip_with tensor_add _ _ T1 T2 _ LT HT1 HT2).
Qed.

End Additivity.

(** ** Two radii *)


Section TwoRadii.

Context {F : Type} `{Float64 F}.


Lemma setup_w2_sorted (dm : double_mesh F)
    x1in y1in z1in x2in y2in z2in weights2in (r : F) (L : locals F) :
  setup dm x1in y1in z1in x2in y2in z2in weights2in r = inr L ->
  np_take weights2in (idx_sorted (mesh2 dm)) = inr (w2_sorted L).
Proof. intros ((_ & _ & _ & _ & _ & _ & E) & _)%setup_inr. exact E. Qed.


Variable f_le : F -> F -> Prop.
Hypothesis f_add_0_r : forall x : F, (x + f_zero)%f64 = x.
Hypothesis f_add_le_mono :
  forall x y z t : F, f_le x y -> f_le z t -> f_le (x + z)%f64 (y + t)%f64.
Hypothesis f_le_refl : forall x : F, f_le x x.
Hypothesis f_ltb_le_trans :
  forall x y z : F, (x <? y)%f64 = true -> f_le y z -> (x <? z)%f64 = true.



Variable unsorting_indices : list Z -> list Z.


End TwoRadii.

(** *** In exact rationals *)





(** ** No pair is handed to the innermost block twice *)

Lemma nondecreasing_head (x : Z) (t : list Z) :
  nondecreasing (x :: t) = true -> Forall (fun y => x <= y) t.
Proof.
  revert x. induction t as [|y t IH]; intros x Hx; [constructor|].
  simpl in Hx. apply andb_prop in Hx as [Hxy Ht]. apply Z.leb_le in Hxy.
  constructor; [exact Hxy|].
  eapply Forall_impl; [apply IH, Ht|]. simpl. intros; lia.
Qed.

Lemma nondecreasing_tail (x : Z) (t : list Z) :
  nondecreasing (x :: t) = true -> nondecreasing t = true.
Proof.
  destruct t as [|y t]; [reflexivity|]. simpl.
  intros Hx. now apply andb_prop in Hx as [_ Ht].
Qed.

Lemma nondecreasing_lookup (a : list Z) (i j : nat) (x y : Z) :
  nondecreasing a = true -> (i <= j)%nat ->
  a !! i = Some x -> a !! j = Some y -> x <= y.
Proof.
  revert i j. induction a as [|h t IH]; intros i j Ha Hij Hi Hj; [discriminate|].
  destruct i as [|i], j as [|j]; simpl in Hi, Hj.
  - inversion Hi; inversion Hj; subst; lia.
  - inversion Hi; subst. apply nondecreasing_head in Ha.
    rewrite Forall_forall in Ha. eapply Ha, list_elem_of_lookup_2, Hj.
  - lia.
  - eapply (IH i j); eauto using nondecreasing_tail. lia.
Qed.

Lemma rd_lookup (a : list Z) (k : Z) :
  0 <= k < Z.of_nat (length a) -> a !! Z.to_nat k = Some (rd 0 a k).
Proof.
  intros Hk. unfold rd.
  destruct (lookup_lt_is_Some_2 a (Z.to_nat k)) as [v Hv]; [lia|].
  now rewrite Hv.
Qed.

Lemma nondecreasing_rd (a : list Z) (i j : Z) :
  nondecreasing a = true -> 0 <= i <= j -> j < Z.of_nat (length a) ->
  rd 0 a i <= rd 0 a j.
Proof.
  intros Ha Hij Hj.
  eapply (nondecreasing_lookup a (Z.to_nat i) (Z.to_nat j)); [exact Ha|lia| |];
    apply rd_lookup; lia.
Qed.

(** A point lies in one cell only. *)
Lemma in_cell_inj (a : list Z) (k1 k2 q : Z) :
  nondecreasing a = true ->
  0 <= k1 -> 0 <= k2 ->
  k1 + 1 < Z.of_nat (length a) -> k2 + 1 < Z.of_nat (length a) ->
  in_cell a k1 q -> in_cell a k2 q -> k1 = k2.
Proof.
  unfold in_cell. intros Ha H1 H2 L1 L2 [Lo1 Hi1] [Lo2 Hi2].
  destruct (Z.lt_trichotomy k1 k2) as [Hlt | [Heq | Hgt]]; [|exact Heq|].
  - pose proof (nondecreasing_rd a (k1 + 1) k2 Ha ltac:(lia) ltac:(lia)). lia.
  - pose proof (nondecreasing_rd a (k2 + 1) k1 Ha ltac:(lia) ltac:(lia)). lia.
Qed.

(** Within a window no wider than the grid, wrapping is injective. *)
Lemma mod_window_inj (n lo w c1 c2 : Z) :
  0 < n -> w <= n -> lo <= c1 < lo + w -> lo <= c2 < lo + w ->
  c1 mod n = c2 mod n -> c1 = c2.
Proof.
  intros Hn Hw H1 H2 Hmod.
  pose proof (Z.div_mod c1 n ltac:(lia)) as E1.
  pose proof (Z.div_mod c2 n ltac:(lia)) as E2.
  rewrite Hmod in E1.
  assert (c1 / n = c2 / n) by nia. congruence.
Qed.

Lemma flatten_inj (ny nz ix iy iz ix' iy' iz' : Z) :
  0 <= iy < ny -> 0 <= iz < nz -> 0 <= iy' < ny -> 0 <= iz' < nz ->
  ix * (ny * nz) + iy * nz + iz = ix' * (ny * nz) + iy' * nz + iz' ->
  ix = ix' /\ iy = iy' /\ iz = iz'.
Proof.
  intros Hy Hz Hy' Hz' E.
  destruct (Z.div_mod_unique nz (ix * ny + iy) (ix' * ny + iy') iz iz')
    as [E1 E2]; [left; lia | left; lia | lia |].
  destruct (Z.div_mod_unique ny ix ix' iy iy')
    as [E3 E4]; [left; lia | left; lia | lia |].
  auto.
Qed.

Lemma NoDup_fmap_bind {A B C} (g : B -> C) (f : A -> list B) (l : list A) :
  (forall x1 x2 y1 y2, x1 ∈ l -> x2 ∈ l -> y1 ∈ f x1 -> y2 ∈ f x2 ->
                       g y1 = g y2 -> x1 = x2) ->
  (forall x, x ∈ l -> NoDup (g <$> f x)) ->
  NoDup l -> NoDup (g <$> (l ≫= f)).
Proof.
  intros Hinj Hf Hl. induction Hl as [|x l Hx Hl IH].
  - constructor.
  - change ((x :: l) ≫= f) with (f x ++ (l ≫= f)). rewrite fmap_app.
    apply NoDup_app. split; [|split].
    + apply Hf. left.
    + intros c (y1 & -> & Hy1)%list_elem_of_fmap (y2 & E & Hy2)%list_elem_of_fmap.
      apply list_elem_of_bind in Hy2 as (x' & Hy2 & Hx').
      apply Hx. rewrite (Hinj x x' y1 y2); auto; [left | now right].
    + apply IH.
      * intros x1 x2 y1 y2 H1 H2. apply Hinj; now right.
      * intros x' Hx'. apply Hf. now right.
Qed.

Section PairsOnce.

Context {F : Type} `{Float64 F}.
Variable L : locals F.

Hypothesis Hnx : 0 < num_x2divs L.
Hypothesis Hny : 0 < num_y2divs L.
Hypothesis Hnz : 0 < num_z2divs L.
Hypothesis Hlen2 :
  Z.of_nat (length (cell2_indices L)) = num_x2divs L * num_y2divs L * num_z2divs L + 1.
Hypothesis Hmono2 : nondecreasing (cell2_indices L) = true.
Hypothesis Hwx : num_x2_per_x1 L + 2 * num_x2_covering_steps L <= num_x2divs L.
Hypothesis Hwy : num_y2_per_y1 L + 2 * num_y2_covering_steps L <= num_y2divs L.
Hypothesis Hwz : num_z2_per_z1 L + 2 * num_z2_covering_steps L <= num_z2divs L.

Lemma elem_events_j p x y z ifirst2 Nj (e : event F) :
  e ∈ events_j p x y z ifirst2 Nj ->
  (ev_pq e).1 = p /\ ifirst2 <= (ev_pq e).2 < ifirst2 + Nj.
Proof.
  unfold events_j, range. intros (j & -> & Hj)%list_elem_of_fmap.
  apply elem_of_seqZ in Hj. simpl. lia.
Qed.

Lemma NoDup_events_j p x y z ifirst2 Nj :
  NoDup (ev_pq <$> events_j (F:=F) p x y z ifirst2 Nj).
Proof.
  unfold events_j, range. rewrite <- list_fmap_compose.
  apply NoDup_fmap_2_strong; [|apply NoDup_seqZ].
  intros j1 j2 _ _ E. simpl in E. inversion E. lia.
Qed.

Lemma elem_events_i ifirst1 Ni xs ys zs ifirst2 Nj (e : event F) :
  e ∈ events_i L ifirst1 Ni xs ys zs ifirst2 Nj ->
  ifirst1 <= (ev_pq e).1 < ifirst1 + Ni /\ ifirst2 <= (ev_pq e).2 < ifirst2 + Nj.
Proof.
  unfold events_i, events_i_block, range.
  intros (i & He & Hi)%list_elem_of_bind.
  apply elem_of_seqZ in Hi. apply elem_events_j in He as [-> Hq]. lia.
Qed.

Lemma NoDup_events_i ifirst1 Ni xs ys zs ifirst2 Nj :
  NoDup (ev_pq <$> events_i L ifirst1 Ni xs ys zs ifirst2 Nj).
Proof.
  unfold events_i. apply NoDup_fmap_bind; [| |apply NoDup_seqZ].
  - unfold events_i_block. intros i1 i2 e1 e2 _ _ [E1 _]%elem_events_j
      [E2 _]%elem_events_j E. rewrite E in E1. lia.
  - intros i _. apply NoDup_events_j.
Qed.

Lemma elem_events_cell2 ifirst1 Ni xs ix2 ys iy2 zs iz2 (e : event F) :
  e ∈ events_cell2 L ifirst1 Ni xs ix2 ys iy2 zs iz2 ->
  ifirst1 <= (ev_pq e).1 < ifirst1 + Ni /\
  in_cell (cell2_indices L) (icell2_of L ix2 iy2 iz2) (ev_pq e).2.
Proof.
  unfold events_cell2, in_cell.
  destruct (_ >? 0); [|intros Hx; inversion Hx].
  intros [Hp Hq]%elem_events_i. split; [exact Hp | lia].
Qed.

Lemma NoDup_events_cell2 ifirst1 Ni xs ix2 ys iy2 zs iz2 :
  NoDup (ev_pq <$> events_cell2 L ifirst1 Ni xs ix2 ys iy2 zs iz2).
Proof.
  unfold events_cell2. destruct (_ >? 0); [apply NoDup_events_i | constructor].
Qed.

Lemma icell2_in_range ix2 iy2 iz2 :
  0 <= ix2 < num_x2divs L -> 0 <= iy2 < num_y2divs L -> 0 <= iz2 < num_z2divs L ->
  0 <= icell2_of L ix2 iy2 iz2 /\
  icell2_of L ix2 iy2 iz2 + 1 < Z.of_nat (length (cell2_indices L)).
Proof.
  unfold icell2_of. rewrite Hlen2. intros Hx Hy Hz.
  assert (0 <= num_y2divs L * num_z2divs L) by (apply Z.mul_nonneg_nonneg; lia).
  assert (0 <= ix2 * (num_y2divs L * num_z2divs L))
    by (apply Z.mul_nonneg_nonneg; lia).
  assert (0 <= iy2 * num_z2divs L) by (apply Z.mul_nonneg_nonneg; lia).
  assert (ix2 * (num_y2divs L * num_z2divs L)
          <= (num_x2divs L - 1) * (num_y2divs L * num_z2divs L))
    by (apply Z.mul_le_mono_nonneg_r; lia).
  assert (iy2 * num_z2divs L <= (num_y2divs L - 1) * num_z2divs L)
    by (apply Z.mul_le_mono_nonneg_r; lia).
  split; lia.
Qed.

(** Two cells of mesh 2 that hold the same point are the same cell. *)
Lemma cell2_inj ix2 iy2 iz2 ix2' iy2' iz2' q :
  0 <= ix2 < num_x2divs L -> 0 <= iy2 < num_y2divs L -> 0 <= iz2 < num_z2divs L ->
  0 <= ix2' < num_x2divs L -> 0 <= iy2' < num_y2divs L -> 0 <= iz2' < num_z2divs L ->
  in_cell (cell2_indices L) (icell2_of L ix2 iy2 iz2) q ->
  in_cell (cell2_indices L) (icell2_of L ix2' iy2' iz2') q ->
  ix2 = ix2' /\ iy2 = iy2' /\ iz2 = iz2'.
Proof.
  intros Hx Hy Hz Hx' Hy' Hz' Hq Hq'.
  destruct (icell2_in_range _ _ _ Hx Hy Hz) as [R1 R2].
  destruct (icell2_in_range _ _ _ Hx' Hy' Hz') as [R1' R2'].
  pose proof (in_cell_inj _ _ _ _ Hmono2 R1 R1' R2 R2' Hq Hq') as E.
  unfold icell2_of in E. eapply flatten_inj; eauto.
Qed.

Lemma elem_events_iz2 ifirst1 Ni iz1 xs ix2 ys iy2 (e : event F) :
  e ∈ events_iz2 L ifirst1 Ni iz1 xs ix2 ys iy2 ->
  ifirst1 <= (ev_pq e).1 < ifirst1 + Ni /\
  exists iz2, 0 <= iz2 < num_z2divs L /\
    in_cell (cell2_indices L) (icell2_of L ix2 iy2 iz2) (ev_pq e).2.
Proof.
  unfold events_iz2, events_iz2_block.
  intros (c & [Hp Hq]%elem_events_cell2 & _)%list_elem_of_bind.
  split; [exact Hp|]. exists (c mod num_z2divs L).
  split; [apply Z.mod_pos_bound; lia | exact Hq].
Qed.

Lemma NoDup_events_iz2 ifirst1 Ni iz1 xs ix2 ys iy2 :
  0 <= ix2 < num_x2divs L -> 0 <= iy2 < num_y2divs L ->
  NoDup (ev_pq <$> events_iz2 L ifirst1 Ni iz1 xs ix2 ys iy2).
Proof.
  intros Hx Hy. unfold events_iz2, range.
  apply NoDup_fmap_bind; [| |apply NoDup_seqZ].
  - unfold events_iz2_block.
    intros c1 c2 e1 e2 Hc1%elem_of_seqZ Hc2%elem_of_seqZ
      [_ Hq1]%elem_events_cell2 [_ Hq2]%elem_events_cell2 E.
    rewrite E in Hq1.
    destruct (cell2_inj _ _ _ _ _ _ _ Hx Hy
                (Z.mod_pos_bound c1 _ Hnz) Hx Hy (Z.mod_pos_bound c2 _ Hnz) Hq1 Hq2)
      as (_ & _ & Em).
    eapply (mod_window_inj (num_z2divs L)
              (iz1 * num_z2_per_z1 L - num_z2_covering_steps L));
      [exact Hnz | exact Hwz | | | exact Em]; lia.
  - intros c _. apply NoDup_events_cell2.
Qed.

Lemma elem_events_iy2 ifirst1 Ni iy1 iz1 xs ix2 (e : event F) :
  e ∈ events_iy2 L ifirst1 Ni iy1 iz1 xs ix2 ->
  ifirst1 <= (ev_pq e).1 < ifirst1 + Ni /\
  exists iy2 iz2, 0 <= iy2 < num_y2divs L /\ 0 <= iz2 < num_z2divs L /\
    in_cell (cell2_indices L) (icell2_of L ix2 iy2 iz2) (ev_pq e).2.
Proof.
  unfold events_iy2, events_iy2_block.
  intros (b & (Hp & iz2 & Hz & Hq)%elem_events_iz2 & _)%list_elem_of_bind.
  split; [exact Hp|]. exists (b mod num_y2divs L), iz2.
  split; [apply Z.mod_pos_bound; lia | auto].
Qed.

Lemma NoDup_events_iy2 ifirst1 Ni iy1 iz1 xs ix2 :
  0 <= ix2 < num_x2divs L ->
  NoDup (ev_pq <$> events_iy2 L ifirst1 Ni iy1 iz1 xs ix2).
Proof.
  intros Hx. unfold events_iy2, range.
  apply NoDup_fmap_bind; [| |apply NoDup_seqZ].
  - unfold events_iy2_block.
    intros b1 b2 e1 e2 Hb1%elem_of_seqZ Hb2%elem_of_seqZ
      (_ & iz2 & Hz & Hq1)%elem_events_iz2 (_ & iz2' & Hz' & Hq2)%elem_events_iz2 E.
    rewrite E in Hq1.
    destruct (cell2_inj _ _ _ _ _ _ _ Hx (Z.mod_pos_bound b1 _ Hny) Hz
                Hx (Z.mod_pos_bound b2 _ Hny) Hz' Hq1 Hq2)
      as (_ & Em & _).
    eapply (mod_window_inj (num_y2divs L)
              (iy1 * num_y2_per_y1 L - num_y2_covering_steps L));
      [exact Hny | exact Hwy | | | exact Em]; lia.
  - intros b _. apply NoDup_events_iz2; [exact Hx | apply Z.mod_pos_bound; lia].
Qed.

Lemma elem_events_ix2 ifirst1 Ni ix1 iy1 iz1 (e : event F) :
  e ∈ events_ix2 L ifirst1 Ni ix1 iy1 iz1 ->
  ifirst1 <= (ev_pq e).1 < ifirst1 + Ni /\
  exists ix2 iy2 iz2,
    0 <= ix2 < num_x2divs L /\ 0 <= iy2 < num_y2divs L /\ 0 <= iz2 < num_z2divs L /\
    in_cell (cell2_indices L) (icell2_of L ix2 iy2 iz2) (ev_pq e).2.
Proof.
  unfold events_ix2, events_ix2_block.
  intros (a & (Hp & iy2 & iz2 & Hy & Hz & Hq)%elem_events_iy2 & _)%list_elem_of_bind.
  split; [exact Hp|]. exists (a mod num_x2divs L), iy2, iz2.
  split; [apply Z.mod_pos_bound; lia | auto].
Qed.

Lemma NoDup_events_ix2 ifirst1 Ni ix1 iy1 iz1 :
  NoDup (ev_pq <$> events_ix2 L ifirst1 Ni ix1 iy1 iz1).
Proof.
  unfold events_ix2, range.
  apply NoDup_fmap_bind; [| |apply NoDup_seqZ].
  - unfold events_ix2_block.
    intros a1 a2 e1 e2 Ha1%elem_of_seqZ Ha2%elem_of_seqZ
      (_ & iy2 & iz2 & Hy & Hz & Hq1)%elem_events_iy2
      (_ & iy2' & iz2' & Hy' & Hz' & Hq2)%elem_events_iy2 E.
    rewrite E in Hq1.
    destruct (cell2_inj _ _ _ _ _ _ _ (Z.mod_pos_bound a1 _ Hnx) Hy Hz
                (Z.mod_pos_bound a2 _ Hnx) Hy' Hz' Hq1 Hq2)
      as (Em & _ & _).
    eapply (mod_window_inj (num_x2divs L)
              (ix1 * num_x2_per_x1 L - num_x2_covering_steps L));
      [exact Hnx | exact Hwx | | | exact Em]; lia.
  - intros a _. apply NoDup_events_iy2. apply Z.mod_pos_bound; lia.
Qed.

Lemma elem_events_cell1 icell1 (e : event F) :
  e ∈ events_cell1 L icell1 -> in_cell (cell1_indices L) icell1 (ev_pq e).1.
Proof.
  unfold events_cell1, in_cell.
  destruct (_ >? 0); [|intros Hx; inversion Hx].
  intros [Hp _]%elem_events_ix2. lia.
Qed.

Lemma NoDup_events_cell1 icell1 : NoDup (ev_pq <$> events_cell1 L icell1).
Proof.
  unfold events_cell1. destruct (_ >? 0); [apply NoDup_events_ix2 | constructor].
Qed.

Hypothesis Hmono1 : nondecreasing (cell1_indices L) = true.

Lemma NoDup_events first last :
  0 <= first -> last < Z.of_nat (length (cell1_indices L)) ->
  NoDup (ev_pq <$> events L first last).
Proof.
  intros Hfirst Hlast. unfold events, range.
  apply NoDup_fmap_bind; [| |apply NoDup_seqZ].
  - intros c1 c2 e1 e2 Hc1%elem_of_seqZ Hc2%elem_of_seqZ
      Hp1%elem_events_cell1 Hp2%elem_events_cell1 E.
    rewrite E in Hp1.
    eapply (in_cell_inj (cell1_indices L)); [exact Hmono1 | | | | | exact Hp1 | exact Hp2];
      lia.
  - intros c _. apply NoDup_events_cell1.
Qed.

End PairsOnce.

(** ** Every pair of the window is handed to the innermost block *)

Section PairsReached.

Context {F : Type} `{Float64 F}.
Variable L : locals F.

Lemma elem_range (lo hi k : Z) : k ∈ range lo hi <-> lo <= k < hi.
Proof. unfold range. rewrite elem_of_seqZ. lia. Qed.

Lemma events_cell2_reached ifirst1 Ni a b c p q :
  ifirst1 <= p < ifirst1 + Ni ->
  in_cell (cell2_indices L)
    (icell2_of L (a mod num_x2divs L) (b mod num_y2divs L) (c mod num_z2divs L)) q ->
  event_at L p q a b c
  ∈ events_cell2 L ifirst1 Ni
      (axis_shift L (l_xperiod L) a (num_x2divs L)) (a mod num_x2divs L)
      (axis_shift L (l_yperiod L) b (num_y2divs L)) (b mod num_y2divs L)
      (axis_shift L (l_zperiod L) c (num_z2divs L)) (c mod num_z2divs L).
Proof.
  unfold in_cell, events_cell2. intros Hp Hq.
  destruct (Z.gtb_spec
              (rd 0 (cell2_indices L) (icell2_of L (a mod num_x2divs L)
                 (b mod num_y2divs L) (c mod num_z2divs L) + 1)
               - rd 0 (cell2_indices L) (icell2_of L (a mod num_x2divs L)
                   (b mod num_y2divs L) (c mod num_z2divs L))) 0) as [Hgt|Hle];
    [|lia].
  unfold events_i. apply list_elem_of_bind. exists (p - ifirst1).
  split; [|apply elem_range; lia].
  unfold events_i_block, events_j. apply list_elem_of_fmap.
  exists (q - rd 0 (cell2_indices L) (icell2_of L (a mod num_x2divs L)
                 (b mod num_y2divs L) (c mod num_z2divs L))).
  split; [|apply elem_range; lia].
  unfold event_at. replace (ifirst1 + (p - ifirst1)) with p by lia.
  do 2 f_equal. lia.
Qed.

Lemma events_reached first last icell1 a b c p q :
  first <= icell1 < last ->
  in_cell (cell1_indices L) icell1 p ->
  ix1_of L icell1 * num_x2_per_x1 L - num_x2_covering_steps L <= a
    < (ix1_of L icell1 + 1) * num_x2_per_x1 L + num_x2_covering_steps L ->
  iy1_of L icell1 * num_y2_per_y1 L - num_y2_covering_steps L <= b
    < (iy1_of L icell1 + 1) * num_y2_per_y1 L + num_y2_covering_steps L ->
  iz1_of L icell1 * num_z2_per_z1 L - num_z2_covering_steps L <= c
    < (iz1_of L icell1 + 1) * num_z2_per_z1 L + num_z2_covering_steps L ->
  in_cell (cell2_indices L)
    (icell2_of L (a mod num_x2divs L) (b mod num_y2divs L) (c mod num_z2divs L)) q ->
  event_at L p q a b c ∈ events L first last.
Proof.
  intros Hc Hp Ha Hb Hcz Hq. unfold events.
  apply list_elem_of_bind. exists icell1. split; [|now apply elem_range].
  unfold events_cell1. unfold in_cell in Hp.
  destruct (Z.gtb_spec (rd 0 (cell1_indices L) (icell1 + 1)
                        - rd 0 (cell1_indices L) icell1) 0) as [Hgt|Hle]; [|lia].
  unfold events_ix2. apply list_elem_of_bind. exists a.
  split; [|now apply elem_range].
  unfold events_ix2_block, events_iy2. apply list_elem_of_bind. exists b.
  split; [|now apply elem_range].
  unfold events_iy2_block, events_iz2. apply list_elem_of_bind. exists c.
  split; [|now apply elem_range].
  unfold events_iz2_block. apply events_cell2_reached; [lia | exact Hq].
Qed.

End PairsReached.

Section ExactlyOnce.

Context {F : Type} `{Float64 F}.

(** Let the index arrays be well formed and let, on every axis, the window
    of a cell of mesh 1 span no more cells than mesh 2 has.  Then
    - a run of the loop nest that returns is the fold of the innermost
      block over the list [events];
    - no pair (point of sample 1, point of sample 2) occurs twice in that
      list;
    - for a point [p] of a cell of the range, an unwrapped cell [(a, b, c)]
      of the window of that cell and a point [q] of the cell of mesh 2 it
      wraps to, the pair occurs in the list, with the coordinates of [p]
      shifted as for [(a, b, c)].
    So such a pair is handed to the innermost block exactly once. *)
Lemma window_pairs_exactly_once (L : locals F) (first last : Z) :
  indices_ok L first last = true ->
  window_fits L = true ->
  (forall (S : Type) (act : Z -> F -> F -> F -> Z -> S -> M S) (s s' : S),
      cell1_loop act L first last s = inr s' ->
      for_ (events L first last) (on_event act) s = inr s') /\
  NoDup (ev_pq <$> events L first last) /\
  (forall icell1 a b c p q,
      first <= icell1 < last ->
      in_cell (cell1_indices L) icell1 p ->
      ix1_of L icell1 * num_x2_per_x1 L - num_x2_covering_steps L <= a
        < (ix1_of L icell1 + 1) * num_x2_per_x1 L + num_x2_covering_steps L ->
      iy1_of L icell1 * num_y2_per_y1 L - num_y2_covering_steps L <= b
        < (iy1_of L icell1 + 1) * num_y2_per_y1 L + num_y2_covering_steps L ->
      iz1_of L icell1 * num_z2_per_z1 L - num_z2_covering_steps L <= c
        < (iz1_of L icell1 + 1) * num_z2_per_z1 L + num_z2_covering_steps L ->
      in_cell (cell2_indices L)
        (icell2_of L (a mod num_x2divs L) (b mod num_y2divs L) (c mod num_z2divs L)) q ->
      event_at L p q a b c ∈ events L first last).
Proof.
  unfold indices_ok, window_fits. intros Hok Hfit.
  repeat (apply andb_prop in Hok as [Hok ?]).
  repeat (apply andb_prop in Hfit as [Hfit ?]).
  repeat match goal with
         | Hb : (_ <=? _) = true |- _ => apply Z.leb_le in Hb
         | Hb : (_ <? _) = true |- _ => apply Z.ltb_lt in Hb
         | Hb : (_ =? _) = true |- _ => apply Z.eqb_eq in Hb
         end.
  split; [|split].
  - intros S act s s' Hrun.
    now rewrite <- (nest_events act act L first last s s' Hrun).
  - apply NoDup_events; assumption.
  - intros. eapply events_reached; eassumption.
Qed.

End ExactlyOnce.

(** ** Every pair within the radius, in exact rationals *)

Section InRadius.

Import Geometry.

Lemma Qltb_lt (a b : Q) : Qltb a b = true <-> (a < b)%Q.
Proof.
  unfold Qltb. rewrite Qlt_alt. destruct (a ?= b)%Q; split; congruence.
Qed.

Lemma in_slab_spec (s : Q) (i : Z) (x : Q) :
  in_slab s i x = true -> (inject_Z i * s <= x)%Q /\ (x < inject_Z (i + 1) * s)%Q.
Proof.
  unfold in_slab. intros [Hlo Hhi]%andb_prop.
  split; [now apply Qle_bool_iff | now apply Qltb_lt].
Qed.

Lemma axis_ok_spec size1 size2 period search rsmooth ratio n2 :
  axis_ok size1 size2 period search rsmooth ratio n2 = true ->
  (0 < size2)%Q /\ (size1 == inject_Z ratio * size2)%Q /\
  (period == inject_Z n2 * size2)%Q /\ (rsmooth <= search)%Q.
Proof.
  unfold axis_ok. intros Hok.
  repeat (apply andb_prop in Hok as [Hok ?]).
  repeat split; [now apply Qltb_lt | now apply Qeq_bool_iff | now apply Qeq_bool_iff
                 | now apply Qle_bool_iff].
Qed.

Lemma forallb_range (f : Z -> bool) (lo hi k : Z) :
  forallb f (range lo hi) = true -> lo <= k < hi -> f k = true.
Proof.
  intros Hall Hk. rewrite forallb_forall in Hall. apply Hall.
  apply list_elem_of_In, elem_range, Hk.
Qed.

Lemma points2_in_cells_spec (dm : double_mesh Q) (L : locals Q) ix2 iy2 iz2 q :
  points2_in_cells dm L = true ->
  0 <= ix2 < num_x2divs L -> 0 <= iy2 < num_y2divs L -> 0 <= iz2 < num_z2divs L ->
  in_cell (cell2_indices L) (icell2_of L ix2 iy2 iz2) q ->
  in_slab (xcell_size (mesh2 dm)) ix2 (rd 0%Q (x2_sorted L) q) = true /\
  in_slab (ycell_size (mesh2 dm)) iy2 (rd 0%Q (y2_sorted L) q) = true /\
  in_slab (zcell_size (mesh2 dm)) iz2 (rd 0%Q (z2_sorted L) q) = true.
Proof.
  unfold points2_in_cells, in_cell. intros Hall Hx Hy Hz Hq.
  apply (forallb_range _ _ _ ix2) in Hall; [|exact Hx].
  apply (forallb_range _ _ _ iy2) in Hall; [|exact Hy].
  apply (forallb_range _ _ _ iz2) in Hall; [|exact Hz].
  apply (forallb_range _ _ _ q) in Hall; [|exact Hq].
  apply andb_prop in Hall as [[H1 H2]%andb_prop H3]. auto.
Qed.

Lemma points1_in_cells_spec (dm : double_mesh Q) (L : locals Q) first last icell1 p :
  points1_in_cells dm L first last = true ->
  first <= icell1 < last ->
  in_cell (cell1_indices L) icell1 p ->
  in_slab (xcell_size (mesh1 dm)) (ix1_of L icell1) (rd 0%Q (x1_sorted L) p) = true /\
  in_slab (ycell_size (mesh1 dm)) (iy1_of L icell1) (rd 0%Q (y1_sorted L) p) = true /\
  in_slab (zcell_size (mesh1 dm)) (iz1_of L icell1) (rd 0%Q (z1_sorted L) p) = true.
Proof.
  unfold points1_in_cells, in_cell. intros Hall Hc Hp.
  apply (forallb_range _ _ _ icell1) in Hall; [|exact Hc].
  apply (forallb_range _ _ _ p) in Hall; [|exact Hp].
  apply andb_prop in Hall as [[H1 H2]%andb_prop H3]. auto.
Qed.

Lemma covering_steps_Q (a b : Q) (n : Z) :
  covering_steps a b = inr n -> Qeq_bool b 0 = false /\ n = Qceiling (a / b).
Proof.
  unfold covering_steps. cbn.
  destruct (Qeq_bool b 0); [destruct (Qeq_bool a 0); discriminate|].
  intros [-> _]%to_c_int_inr. auto.
Qed.

(** The covering steps cover the search length. *)
Lemma covering_steps_covers (a b : Q) (n : Z) :
  covering_steps a b = inr n -> (0 < b)%Q -> (a <= inject_Z n * b)%Q.
Proof.
  intros [_ ->]%covering_steps_Q Hb.
  assert (Hnz : ~ (b == 0)%Q) by (intros E; rewrite E in Hb; now apply Qlt_irrefl in Hb).
  rewrite <- (Qmult_div_r a b Hnz) at 1. rewrite (Qmult_comm b).
  apply Qmult_le_compat_r; [apply Qle_ceiling | now apply Qlt_le_weak].
Qed.

Lemma setup_covering_steps (dm : double_mesh Q)
    x1in y1in z1in x2in y2in z2in weights2in (rsmooth : Q) (L : locals Q) :
  setup dm x1in y1in z1in x2in y2in z2in weights2in rsmooth = inr L ->
  covering_steps (search_xlength dm) (xcell_size (mesh2 dm))
    = inr (num_x2_covering_steps L) /\
  covering_steps (search_ylength dm) (ycell_size (mesh2 dm))
    = inr (num_y2_covering_steps L) /\
  covering_steps (search_zlength dm) (zcell_size (mesh2 dm))
    = inr (num_z2_covering_steps L).
Proof. intros (_ & _ & _ & _ & _ & E)%setup_inr. exact E. Qed.

Lemma scaled_lt (a b : Z) (s : Q) :
  (0 < s)%Q -> (inject_Z a * s < inject_Z b * s)%Q -> a < b.
Proof.
  intros Hs Hab. rewrite Zlt_Qlt. apply (Qmult_lt_r _ _ s Hs). exact Hab.
Qed.

(** One axis: a point of a cell of mesh 2 whose image [k] periods away is
    closer than [r] to a point of the cell [ix1] of mesh 1 lies, unwrapped,
    in the window of [ix1]. *)
Lemma axis_in_window (sx s1 Lx x1 x2 r : Q) (ix1 ix2 ratio cov n2 k : Z) :
  (0 < sx)%Q ->
  (s1 == inject_Z ratio * sx)%Q ->
  (Lx == inject_Z n2 * sx)%Q ->
  (inject_Z ix1 * s1 <= x1)%Q -> (x1 < inject_Z (ix1 + 1) * s1)%Q ->
  (inject_Z ix2 * sx <= x2)%Q -> (x2 < inject_Z (ix2 + 1) * sx)%Q ->
  (- r < x1 - (x2 + inject_Z k * Lx))%Q -> (x1 - (x2 + inject_Z k * Lx) < r)%Q ->
  (r <= inject_Z cov * sx)%Q ->
  ix1 * ratio - cov <= ix2 + k * n2 < (ix1 + 1) * ratio + cov.
Proof.
  intros Hs Hs1 HL Hx1 Hx1' Hx2 Hx2' Hlo Hhi Hr.
  rewrite Hs1 in Hx1, Hx1'. rewrite HL in Hlo, Hhi.
  split.
  - cut (ix1 * ratio - cov < ix2 + k * n2 + 1); [lia|].
    apply (scaled_lt _ _ sx Hs). unfold Z.sub in *.
    repeat rewrite ?inject_Z_plus, ?inject_Z_mult, ?inject_Z_opp in *.
    nra.
  - apply (scaled_lt _ _ sx Hs). unfold Z.sub in *.
    repeat rewrite ?inject_Z_plus, ?inject_Z_mult, ?inject_Z_opp in *.
    nra.
Qed.

Lemma square_bound (dx dy dz r : Q) :
  (0 <= r)%Q -> (dx * dx + dy * dy + dz * dz < r * r)%Q ->
  ((- r < dx)%Q /\ (dx < r)%Q) /\ ((- r < dy)%Q /\ (dy < r)%Q) /\
  ((- r < dz)%Q /\ (dz < r)%Q).
Proof. intros Hr Hd. repeat split; nra. Qed.

(** The shift of an unwrapped coordinate [ix2 + k * n2] is [k] periods. *)
Lemma axis_shift_image (L : locals Q) (period : Q) (ix2 n2 k : Z) :
  0 <= ix2 < n2 -> image L k ->
  (axis_shift L period (ix2 + k * n2) n2 == inject_Z k * period)%Q.
Proof.
  unfold axis_shift, image. intros Hix [-> | [Hpbc [-> | ->]]]; cbn.
  - destruct (Z.ltb_spec (ix2 + 0 * n2) 0); [lia|].
    destruct (Z.geb_spec (ix2 + 0 * n2) n2); [lia|]. ring.
  - destruct (Z.ltb_spec (ix2 + -1 * n2) 0); [|lia]. rewrite Hpbc. ring.
  - destruct (Z.ltb_spec (ix2 + 1 * n2) 0); [lia|].
    destruct (Z.geb_spec (ix2 + 1 * n2) n2); [|lia]. rewrite Hpbc. ring.
Qed.

End InRadius.

(** ** The engine on a store *)

Section Store.

Context {F : Type} `{Float64 F}.
Variable unsorting_indices : list Z -> list Z.

Lemma load_floats_inr (h : store F) r a :
  load_floats h r = inr a <-> h !! r = Some (Floats a).
Proof.
  unfold load_floats. destruct (h !! r) as [[b|b]|]; split; intros Hx;
    inversion Hx; subst; reflexivity.
Qed.

Lemma load_tensors_inr (h : store F) r a :
  load_tensors h r = inr a <-> h !! r = Some (Tensors a).
Proof.
  unfold load_tensors. destruct (h !! r) as [[b|b]|]; split; intros Hx;
    inversion Hx; subst; reflexivity.
Qed.

(** A write changes the array it is made on and nothing else. *)
Lemma store_upd_tensors_inr (h h' : store F) r k f :
  store_upd_tensors h r k f = inr h' ->
  exists a a', h !! r = Some (Tensors a) /\ upd a k f = inr a' /\
               h' = <[r := Tensors a']> h.
Proof.
  unfold store_upd_tensors. intros (a & Ha%load_tensors_inr & Hx)%bind_inr.
  apply bind_inr in Hx as (a' & Ha' & Hx). inversion Hx; subst. eauto.
Qed.

Lemma store_upd_floats_inr (h h' : store F) r k f :
  store_upd_floats h r k f = inr h' ->
  exists a a', h !! r = Some (Floats a) /\ upd a k f = inr a' /\
               h' = <[r := Floats a']> h.
Proof.
  unfold store_upd_floats. intros (a & Ha%load_floats_inr & Hx)%bind_inr.
  apply bind_inr in Hx as (a' & Ha' & Hx). inversion Hx; subst. eauto.
Qed.

Lemma pair_block_in_store_frame rT rW (L : locals F) p x y z q (h h' : store F) :
  pair_block_in_store rT rW L p x y z q h = inr h' -> same_elsewhere rT rW h h'.
Proof.
  unfold pair_block_in_store, same_elsewhere. intros Hrun.
  do 4 (apply bind_inr in Hrun as (? & _ & Hrun)).
  destruct (f_ltb _ _); [|inversion Hrun; subst; auto].
  apply bind_inr in Hrun as (h1 & H1 & H2).
  apply store_upd_tensors_inr in H1 as (a & a' & _ & _ & ->).
  apply store_upd_floats_inr in H2 as (b & b' & _ & _ & ->).
  rewrite !length_insert. split; [reflexivity|].
  intros r HrT HrW. now rewrite !list_lookup_insert_ne by congruence.
Qed.

Lemma events_in_store_frame rT rW (L : locals F) (evs : list (event F))
    (h h' : store F) :
  for_ evs (on_event (pair_block_in_store rT rW L)) h = inr h' ->
  same_elsewhere rT rW h h'.
Proof.
  apply (for_inv (same_elsewhere rT rW h)); [now split|].
  intros [[[[p x] y] z] q] u u' _ [Hlen Hu] Hstep.
  apply pair_block_in_store_frame in Hstep as [Hlen' Hu'].
  split; [congruence|]. intros r H1 H2. rewrite Hu', Hu; auto.
Qed.

(** The innermost block on the store does what the innermost block does on
    the two arrays. *)
Lemma pair_block_in_store_sim rT rW (L : locals F) p x y z q (h h' : store F) T W :
  rT <> rW ->
  h !! rT = Some (Tensors T) -> h !! rW = Some (Floats W) ->
  pair_block_in_store rT rW L p x y z q h = inr h' ->
  exists st', pair_block L p x y z q {| inertia_tensor := T; sum_weights := W |} = inr st' /\
              h' !! rT = Some (Tensors (inertia_tensor st')) /\
              h' !! rW = Some (Floats (sum_weights st')).
Proof.
  unfold pair_block_in_store, pair_block. intros Hne HT HW Hrun.
  apply bind_inr in Hrun as (x2 & -> & Hrun).
  apply bind_inr in Hrun as (y2 & -> & Hrun).
  apply bind_inr in Hrun as (z2 & -> & Hrun).
  apply bind_inr in Hrun as (w2 & -> & Hrun). simpl.
  destruct (f_ltb _ _).
  - apply bind_inr in Hrun as (h1 & H1 & H2).
    apply store_upd_tensors_inr in H1 as (a & a' & Ha & Hupd & ->).
    rewrite HT in Ha. inversion Ha; subst a.
    apply store_upd_floats_inr in H2 as (b & b' & Hb & Hupd' & ->).
    rewrite list_lookup_insert_ne in Hb by congruence.
    rewrite HW in Hb. inversion Hb; subst b.
    rewrite Hupd. simpl. rewrite Hupd'. simpl.
    eexists. split; [reflexivity|]. simpl.
    assert (rT < length h)%nat by (eapply lookup_lt_Some, HT).
    assert (rW < length h)%nat by (eapply lookup_lt_Some, HW).
    split.
    + rewrite list_lookup_insert_ne by congruence.
      now rewrite list_lookup_insert_eq.
    + rewrite list_lookup_insert_eq; [reflexivity|]. now rewrite length_insert.
  - inversion Hrun; subst. eexists. split; [reflexivity|]. auto.
Qed.

Lemma events_in_store_sim rT rW (L : locals F) (evs : list (event F))
    (h h' : store F) T W :
  rT <> rW ->
  h !! rT = Some (Tensors T) -> h !! rW = Some (Floats W) ->
  for_ evs (on_event (pair_block_in_store rT rW L)) h = inr h' ->
  exists st', for_ evs (on_event (pair_block L))
                {| inertia_tensor := T; sum_weights := W |} = inr st' /\
              h' !! rT = Some (Tensors (inertia_tensor st')) /\
              h' !! rW = Some (Floats (sum_weights st')).
Proof.
  intros Hne. revert h T W.
  induction evs as [|[[[[p x] y] z] q] evs IH]; intros h T W HT HW Hrun; simpl in *.
  - inversion Hrun; subst. eexists. split; [reflexivity|]. auto.
  - apply bind_inr in Hrun as (h1 & Hstep & Hrun).
    destruct (pair_block_in_store_sim _ _ _ _ _ _ _ _ _ _ _ _ Hne HT HW Hstep)
      as ([T1 W1] & -> & HT1 & HW1).
    simpl. eapply IH; eauto.
Qed.

(** What a call of [engine_in_store] that returns has done. *)
Lemma engine_in_store_inr (h h' : store F) dm x1in y1in z1in x2in y2in z2in weights2in
    rsmooth cell1_tuple rT' rW' :
  engine_in_store unsorting_indices h dm x1in y1in z1in x2in y2in z2in weights2in
    rsmooth cell1_tuple = inr (h', (rT', rW')) ->
  exists x1 y1 z1 x2 y2 z2 w2 L h3 h4 T W T' W',
    load_floats h x1in = inr x1 /\ load_floats h y1in = inr y1 /\
    load_floats h z1in = inr z1 /\ load_floats h x2in = inr x2 /\
    load_floats h y2in = inr y2 /\ load_floats h z2in = inr z2 /\
    load_floats h weights2in = inr w2 /\
    setup dm x1 y1 z1 x2 y2 z2 w2 rsmooth = inr L /\
    h3 = (h ++ [Floats (x1_sorted L); Floats (y1_sorted L); Floats (z1_sorted L);
                Floats (x2_sorted L); Floats (y2_sorted L); Floats (z2_sorted L);
                Floats (w2_sorted L)])
         ++ [Tensors (replicate (length (x1_sorted L)) tensor_zero)]
         ++ [Floats (replicate (length (x1_sorted L)) f_zero)] /\
    cell1_loop (pair_block_in_store (length h + 7) (length h + 8) L) L
      (fst cell1_tuple) (snd cell1_tuple) h3 = inr h4 /\
    h4 !! (length h + 7)%nat = Some (Tensors T) /\
    h4 !! (length h + 8)%nat = Some (Floats W) /\
    np_take W (unsorting_indices (idx_sorted (mesh1 dm))) = inr W' /\
    np_take T (unsorting_indices (idx_sorted (mesh1 dm))) = inr T' /\
    h' = h4 ++ [Tensors T; Floats W; Floats W'; Tensors T'] /\
    rT' = (length h4 + 3)%nat /\ rW' = (length h4 + 2)%nat.
Proof.
  unfold engine_in_store, alloc. intros Hrun.
  apply bind_inr in Hrun as (a & [-> _]%to_c_int64_inr & Hrun).
  apply bind_inr in Hrun as (b & [-> _]%to_c_int64_inr & Hrun).
  apply bind_inr in Hrun as (pbcs & _ & Hrun).
  apply bind_inr in Hrun as (nc & _ & Hrun).
  apply bind_inr in Hrun as (x1 & Hx1 & Hrun).
  apply bind_inr in Hrun as (y1 & Hy1 & Hrun).
  apply bind_inr in Hrun as (z1 & Hz1 & Hrun).
  apply bind_inr in Hrun as (x2 & Hx2 & Hrun).
  apply bind_inr in Hrun as (y2 & Hy2 & Hrun).
  apply bind_inr in Hrun as (z2 & Hz2 & Hrun).
  apply bind_inr in Hrun as (w2 & Hw2 & Hrun).
  apply bind_inr in Hrun as (L & HL & Hrun).
  apply bind_inr in Hrun as (h4 & Hloop & Hrun).
  apply bind_inr in Hrun as (T & HT & Hrun).
  apply bind_inr in Hrun as (W & HW & Hrun).
  apply bind_inr in Hrun as (W' & HW' & Hrun).
  apply bind_inr in Hrun as (T' & HT' & Hrun).
  inversion Hrun; subst; clear Hrun.
  rewrite !length_app in Hloop. rewrite !length_app in HT.
  rewrite !length_app in HW. rewrite !length_app. simpl length in *.
  replace (length h + 7 + 1)%nat with (length h + 8)%nat in * by lia.
  apply load_tensors_inr in HT. apply load_floats_inr in HW.
  assert (HW4 : h4 !! (length h + 8)%nat = Some (Floats W)).
  { destruct (decide (length h + 8 < length h4)%nat) as [Hlt|Hge].
    - now rewrite lookup_app_l in HW.
    - rewrite lookup_app_r in HW by lia.
      destruct (length h + 8 - length h4)%nat as [|n]; simpl in HW; discriminate. }
  exists x1, y1, z1, x2, y2, z2, w2, L.
  eexists _, h4, T, W, T', W'.
  repeat (split; [eassumption || reflexivity|]).
  rewrite <- !app_assoc in Hloop. simpl in Hloop.
  split; [rewrite <- !app_assoc; simpl; exact Hloop|].
  repeat (split; [eassumption || reflexivity|]).
  split; [now rewrite <- !app_assoc|]. split; lia.
Qed.

Lemma engine_in_store_range_fits (h : store F) dm x1in y1in z1in x2in y2in z2in
    weights2in rsmooth cell1_tuple r :
  engine_in_store unsorting_indices h dm x1in y1in z1in x2in y2in z2in weights2in
    rsmooth cell1_tuple = inr r ->
  fits_c_int64 (fst cell1_tuple) = true /\ fits_c_int64 (snd cell1_tuple) = true.
Proof.
  unfold engine_in_store, to_c_int64. intros Hrun.
  destruct (fits_c_int64 (fst cell1_tuple)); [|discriminate].
  destruct (fits_c_int64 (snd cell1_tuple)); [|discriminate]. auto.
Qed.

(** The arrays there were before the call are as they were. *)
Lemma engine_in_store_frame (h h' : store F) dm x1in y1in z1in x2in y2in z2in
    weights2in rsmooth cell1_tuple out :
  engine_in_store unsorting_indices h dm x1in y1in z1in x2in y2in z2in weights2in
    rsmooth cell1_tuple = inr (h', out) ->
  forall r, (r < length h)%nat -> h' !! r = h !! r.
Proof.
  destruct out as [rT' rW']. intros Hrun r Hr.
  apply engine_in_store_inr in Hrun
    as (x1 & y1 & z1 & x2 & y2 & z2 & w2 & L & h3 & h4 & T & W & T' & W'
        & _ & _ & _ & _ & _ & _ & _ & _ & -> & Hloop & _ & _ & _ & _ & -> & _).
  rewrite (nest_events _ (pair_block_in_store (length h + 7) (length h + 8) L)
             L _ _ _ _ Hloop) in Hloop.
  apply events_in_store_frame in Hloop as [Hlen Hsame].
  rewrite !length_app in Hlen. simpl in Hlen.
  rewrite lookup_app_l by lia. rewrite Hsame by lia.
  rewrite <- app_assoc. now rewrite lookup_app_l by lia.
Qed.

(** C10.  The engine leaves the arrays of its caller as they were: when
    [engine_in_store] returns, each of the seven arrays the caller passed
    (the coordinates of the two samples and the weights of sample 2) holds
    in the store after the call what it held before. *)
Theorem engine_leaves_inputs_unmodified (h h' : store F) dm
    x1in y1in z1in x2in y2in z2in weights2in rsmooth cell1_tuple out :
  engine_in_store unsorting_indices h dm x1in y1in z1in x2in y2in z2in weights2in
    rsmooth cell1_tuple = inr (h', out) ->
  forall r, r ∈ [x1in; y1in; z1in; x2in; y2in; z2in; weights2in] ->
            h' !! r = h !! r.
Proof.
  intros Hrun r Hr.
  eapply engine_in_store_frame; [exact Hrun|].
  destruct out as [rT' rW'].
  apply engine_in_store_inr in Hrun
    as (x1 & y1 & z1 & x2 & y2 & z2 & w2 & L & h3 & h4 & T & W & T' & W'
        & Hx1 & Hy1 & Hz1 & Hx2 & Hy2 & Hz2 & Hw2 & _).
  apply load_floats_inr, lookup_lt_Some in Hx1, Hy1, Hz1, Hx2, Hy2, Hz2, Hw2.
  repeat (apply elem_of_cons in Hr as [-> | Hr]; [assumption|]).
  inversion Hr.
Qed.

(** What [engine_in_store] returns is what the engine returns on the
    contents of the arrays. *)
Lemma engine_in_store_refines (h h' : store F) dm x1in y1in z1in x2in y2in z2in
    weights2in rsmooth cell1_tuple rT' rW' :
  engine_in_store unsorting_indices h dm x1in y1in z1in x2in y2in z2in weights2in
    rsmooth cell1_tuple = inr (h', (rT', rW')) ->
  exists x1 y1 z1 x2 y2 z2 w2 T W,
    h !! x1in = Some (Floats x1) /\ h !! y1in = Some (Floats y1) /\
    h !! z1in = Some (Floats z1) /\ h !! x2in = Some (Floats x2) /\
    h !! y2in = Some (Floats y2) /\ h !! z2in = Some (Floats z2) /\
    h !! weights2in = Some (Floats w2) /\
    inertia_tensor_per_object_engine unsorting_indices dm x1 y1 z1 x2 y2 z2 w2
      rsmooth cell1_tuple = inr (T, W) /\
    h' !! rT' = Some (Tensors T) /\ h' !! rW' = Some (Floats W).
Proof.
  intros Hrun.
  destruct (engine_in_store_range_fits _ _ _ _ _ _ _ _ _ _ _ _ Hrun) as [Fa Fb].
  apply engine_in_store_inr in Hrun
    as (x1 & y1 & z1 & x2 & y2 & z2 & w2 & L & h3 & h4 & T & W & T' & W'
        & Hx1 & Hy1 & Hz1 & Hx2 & Hy2 & Hz2 & Hw2 & HL & -> & Hloop & HT & HW
        & HW' & HT' & -> & -> & ->).
  exists x1, y1, z1, x2, y2, z2, w2, T', W'.
  apply load_floats_inr in Hx1, Hy1, Hz1, Hx2, Hy2, Hz2, Hw2.
  repeat (split; [assumption|]).
  pose proof Hloop as Hfold.
  rewrite (nest_events _ (pair_block_in_store (length h + 7) (length h + 8) L)
             L _ _ _ _ Hloop) in Hfold.
  eapply (events_in_store_sim _ _ _ _ _ _
            (replicate (length (x1_sorted L)) tensor_zero)
            (replicate (length (x1_sorted L)) f_zero)) in Hfold
    as (st' & Hpure & HT4 & HW4); [|lia| |].
  - rewrite HT in HT4. rewrite HW in HW4. inversion HT4; inversion HW4; subst.
    split; [|split].
    + eapply (engine_intro unsorting_indices); [exact Fa | exact Fb | exact HL | | |].
      * rewrite (nest_events _ (pair_block L) L _ _ _ _ Hloop). exact Hpure.
      * exact HW'.
      * exact HT'.
    + rewrite lookup_app_r by lia.
      now replace (length h4 + 3 - length h4)%nat with 3%nat by lia.
    + rewrite lookup_app_r by lia.
      now replace (length h4 + 2 - length h4)%nat with 2%nat by lia.
  - rewrite lookup_app_r by (rewrite length_app; simpl; lia).
    rewrite length_app. simpl.
    now replace (length h + 7 - (length h + 7))%nat with 0%nat by lia.
  - rewrite lookup_app_r by (rewrite length_app; simpl; lia).
    rewrite length_app. simpl.
    now replace (length h + 8 - (length h + 7))%nat with 1%nat by lia.
Qed.

End Store.


(** * More of the engine *)

(** ** A call on buffers that are large enough returns *)

Lemma for_returns {K S} (P : S -> Prop) (l : list K) (body : K -> S -> M S) (s : S) :
  P s ->
  (forall k u, k ∈ l -> P u -> exists u', body k u = inr u' /\ P u') ->
  exists s', for_ l body s = inr s' /\ P s'.
Proof.
  revert s. induction l as [|k l IH]; intros s Hs Hbody; simpl.
  - eauto.
  - destruct (Hbody k s ltac:(left) Hs) as (s1 & -> & Hs1). simpl.
    apply IH; [exact Hs1|]. intros k' u Hin. apply Hbody. now right.
Qed.

Lemma at_returns {A} (a : list A) (k : Z) :
  0 <= k < Z.of_nat (length a) -> exists v, at_ a k = inr v.
Proof.
  intros Hk. destruct (lookup_lt_is_Some_2 a (Z.to_nat k)) as [v Hv]; [lia|].
  exists v. apply at_inr. split; [lia | exact Hv].
Qed.

Lemma np_index_returns {A} (a : list A) (k : Z) :
  - Z.of_nat (length a) <= k < Z.of_nat (length a) -> exists v, np_index a k = inr v.
Proof.
  intros Hk. unfold np_index.
  destruct (Z.leb_spec 0 k), (Z.ltb_spec k (Z.of_nat (length a))); simpl; try lia.
  - apply at_returns; lia.
  - destruct (Z.leb_spec (- Z.of_nat (length a)) k), (Z.ltb_spec k 0); simpl; try lia.
    apply at_returns; lia.
Qed.

Lemma np_take_returns {A} (a : list A) (idx : list Z) :
  valid_indices (length a) idx = true -> exists b, np_take a idx = inr b.
Proof.
  unfold valid_indices, np_take. induction idx as [|k idx IH]; simpl; [eauto|].
  intros [Hk Hidx]%andb_prop. apply andb_prop in Hk as [H1%Z.leb_le H2%Z.ltb_lt].
  destruct (np_index_returns a k) as [v ->]; [lia|].
  destruct (IH Hidx) as [b ->]. simpl. eauto.
Qed.

Lemma np_take_length {A} (a b : list A) (idx : list Z) :
  np_take a idx = inr b -> length b = length idx.
Proof. unfold np_take. intros Hb%mapM_inr. symmetry. eapply Forall2_length, Hb. Qed.

Lemma valid_offsets_spec (n : nat) (a : list Z) :
  valid_offsets n a = true -> Forall (fun k => 0 <= k <= Z.of_nat n) a.
Proof.
  unfold valid_offsets. rewrite forallb_forall, Forall_forall.
  intros Ha k Hk%list_elem_of_In. apply Ha in Hk. lia.
Qed.

Lemma at_Forall {A} (Q : A -> Prop) (a : list A) (k : Z) (v : A) :
  Forall Q a -> at_ a k = inr v -> Q v.
Proof.
  rewrite Forall_forall. intros Ha [_ Hv]%at_inr.
  eapply Ha, list_elem_of_lookup_2, Hv.
Qed.

Section NestReturns.

Context {F : Type} `{Float64 F} {S : Type}.
Variable act : Z -> F -> F -> F -> Z -> S -> M S.
Variable L : locals F.
Variable P : S -> Prop.
Variables n1 n2 : Z.

Hypothesis Hact : forall p x y z q u,
  0 <= p < n1 -> 0 <= q < n2 -> P u -> exists u', act p x y z q u = inr u' /\ P u'.
Hypothesis Hx1 : Z.of_nat (length (x1_sorted L)) = n1.
Hypothesis Hy1 : Z.of_nat (length (y1_sorted L)) = n1.
Hypothesis Hz1 : Z.of_nat (length (z1_sorted L)) = n1.
Hypothesis Hc1 : Forall (fun k => 0 <= k <= n1) (cell1_indices L).
Hypothesis Hc2 : Forall (fun k => 0 <= k <= n2) (cell2_indices L).
Hypothesis Hnx : 0 < num_x2divs L.
Hypothesis Hny : 0 < num_y2divs L.
Hypothesis Hnz : 0 < num_z2divs L.
Hypothesis Hlen2 :
  num_x2divs L * num_y2divs L * num_z2divs L < Z.of_nat (length (cell2_indices L)).
Hypothesis Hy1divs : num_y1divs L <> 0.
Hypothesis Hz1divs : num_z1divs L <> 0.

Lemma loop_j_returns p x y z ifirst2 Nj u :
  0 <= p < n1 -> 0 <= ifirst2 -> ifirst2 + Nj <= n2 -> P u ->
  exists u', loop_j act p x y z ifirst2 Nj u = inr u' /\ P u'.
Proof.
  intros Hp Hf Hl Hu. unfold loop_j. apply for_returns; [exact Hu|].
  intros j u0 Hj%elem_range Hu0. apply Hact; [exact Hp | lia | exact Hu0].
Qed.

Lemma i_block_returns ifirst1 xs ys zs ifirst2 Nj i u :
  0 <= ifirst1 + i < n1 -> 0 <= ifirst2 -> ifirst2 + Nj <= n2 -> P u ->
  exists u', i_block act L ifirst1 xs ys zs ifirst2 Nj i u = inr u' /\ P u'.
Proof.
  intros Hp Hf Hl Hu. unfold i_block.
  destruct (at_returns (x1_sorted L) (ifirst1 + i)) as [x1 ->]; [lia|].
  destruct (at_returns (y1_sorted L) (ifirst1 + i)) as [y1 ->]; [lia|].
  destruct (at_returns (z1_sorted L) (ifirst1 + i)) as [z1 ->]; [lia|].
  simpl. now apply loop_j_returns.
Qed.

Lemma loop_i_returns ifirst1 Ni xs ys zs ifirst2 Nj u :
  0 <= ifirst1 -> ifirst1 + Ni <= n1 -> 0 <= ifirst2 -> ifirst2 + Nj <= n2 -> P u ->
  exists u', loop_i act L ifirst1 Ni xs ys zs ifirst2 Nj u = inr u' /\ P u'.
Proof.
  intros Hf1 Hl1 Hf2 Hl2 Hu. unfold loop_i. apply for_returns; [exact Hu|].
  intros i u0 Hi%elem_range Hu0. apply i_block_returns; [lia | | | ]; assumption.
Qed.

Lemma icell2_inside ix2 iy2 iz2 :
  0 <= ix2 < num_x2divs L -> 0 <= iy2 < num_y2divs L -> 0 <= iz2 < num_z2divs L ->
  0 <= ix2 * (num_y2divs L * num_z2divs L) + iy2 * num_z2divs L + iz2 /\
  ix2 * (num_y2divs L * num_z2divs L) + iy2 * num_z2divs L + iz2 + 1
  < Z.of_nat (length (cell2_indices L)).
Proof.
  intros Hx Hy Hz.
  assert (0 <= num_y2divs L * num_z2divs L) by (apply Z.mul_nonneg_nonneg; lia).
  assert (0 <= ix2 * (num_y2divs L * num_z2divs L))
    by (apply Z.mul_nonneg_nonneg; lia).
  assert (0 <= iy2 * num_z2divs L) by (apply Z.mul_nonneg_nonneg; lia).
  assert (ix2 * (num_y2divs L * num_z2divs L)
          <= (num_x2divs L - 1) * (num_y2divs L * num_z2divs L))
    by (apply Z.mul_le_mono_nonneg_r; lia).
  assert (iy2 * num_z2divs L <= (num_y2divs L - 1) * num_z2divs L)
    by (apply Z.mul_le_mono_nonneg_r; lia).
  split; lia.
Qed.

Lemma cell2_block_returns ifirst1 Ni xs ix2 ys iy2 zs iz2 u :
  0 <= ifirst1 -> ifirst1 + Ni <= n1 ->
  0 <= ix2 < num_x2divs L -> 0 <= iy2 < num_y2divs L -> 0 <= iz2 < num_z2divs L ->
  P u ->
  exists u', cell2_block act L ifirst1 Ni xs ix2 ys iy2 zs iz2 u = inr u' /\ P u'.
Proof.
  intros Hf1 Hl1 Hx Hy Hz Hu. unfold cell2_block.
  destruct (icell2_inside ix2 iy2 iz2 Hx Hy Hz) as [Hlo Hhi].
  destruct (at_returns (cell2_indices L)
              (ix2 * (num_y2divs L * num_z2divs L) + iy2 * num_z2divs L + iz2))
    as [ifirst2 Ef]; [lia|].
  destruct (at_returns (cell2_indices L)
              (ix2 * (num_y2divs L * num_z2divs L) + iy2 * num_z2divs L + iz2 + 1))
    as [ilast2 El]; [lia|].
  rewrite Ef, El. simpl.
  pose proof (at_Forall _ _ _ _ Hc2 Ef) as Bf. pose proof (at_Forall _ _ _ _ Hc2 El) as Bl.
  simpl in Bf, Bl.
  destruct (ilast2 - ifirst2 >? 0); [|eauto].
  apply loop_i_returns; [assumption | assumption | lia | lia | assumption].
Qed.

Lemma pymod_returns (a n : Z) : 0 < n -> exists r, pymod a n = inr r /\ 0 <= r < n.
Proof.
  intros Hn. unfold pymod. destruct (Z.eqb_spec n 0); [lia|].
  eexists. split; [reflexivity|]. now apply Z.mod_pos_bound.
Qed.

Lemma iz2_block_returns ifirst1 Ni xs ix2 ys iy2 c u :
  0 <= ifirst1 -> ifirst1 + Ni <= n1 ->
  0 <= ix2 < num_x2divs L -> 0 <= iy2 < num_y2divs L -> P u ->
  exists u', iz2_block act L ifirst1 Ni xs ix2 ys iy2 c u = inr u' /\ P u'.
Proof.
  intros Hf1 Hl1 Hx Hy Hu. unfold iz2_block.
  destruct (pymod_returns c _ Hnz) as (iz2 & -> & Hz). simpl.
  now apply cell2_block_returns.
Qed.

Lemma loop_iz2_returns ifirst1 Ni iz1 xs ix2 ys iy2 u :
  0 <= ifirst1 -> ifirst1 + Ni <= n1 ->
  0 <= ix2 < num_x2divs L -> 0 <= iy2 < num_y2divs L -> P u ->
  exists u', loop_iz2 act L ifirst1 Ni iz1 xs ix2 ys iy2 u = inr u' /\ P u'.
Proof.
  intros Hf1 Hl1 Hx Hy Hu. unfold loop_iz2. apply for_returns; [exact Hu|].
  intros c u0 _ Hu0. now apply iz2_block_returns.
Qed.

Lemma iy2_block_returns ifirst1 Ni iz1 xs ix2 b u :
  0 <= ifirst1 -> ifirst1 + Ni <= n1 -> 0 <= ix2 < num_x2divs L -> P u ->
  exists u', iy2_block act L ifirst1 Ni iz1 xs ix2 b u = inr u' /\ P u'.
Proof.
  intros Hf1 Hl1 Hx Hu. unfold iy2_block.
  destruct (pymod_returns b _ Hny) as (iy2 & -> & Hy). simpl.
  now apply loop_iz2_returns.
Qed.

Lemma loop_iy2_returns ifirst1 Ni iy1 iz1 xs ix2 u :
  0 <= ifirst1 -> ifirst1 + Ni <= n1 -> 0 <= ix2 < num_x2divs L -> P u ->
  exists u', loop_iy2 act L ifirst1 Ni iy1 iz1 xs ix2 u = inr u' /\ P u'.
Proof.
  intros Hf1 Hl1 Hx Hu. unfold loop_iy2. apply for_returns; [exact Hu|].
  intros b u0 _ Hu0. now apply iy2_block_returns.
Qed.

Lemma ix2_block_returns ifirst1 Ni iy1 iz1 a u :
  0 <= ifirst1 -> ifirst1 + Ni <= n1 -> P u ->
  exists u', ix2_block act L ifirst1 Ni iy1 iz1 a u = inr u' /\ P u'.
Proof.
  intros Hf1 Hl1 Hu. unfold ix2_block.
  destruct (pymod_returns a _ Hnx) as (ix2 & -> & Hx). simpl.
  now apply loop_iy2_returns.
Qed.

Lemma loop_ix2_returns ifirst1 Ni ix1 iy1 iz1 u :
  0 <= ifirst1 -> ifirst1 + Ni <= n1 -> P u ->
  exists u', loop_ix2 act L ifirst1 Ni ix1 iy1 iz1 u = inr u' /\ P u'.
Proof.
  intros Hf1 Hl1 Hu. unfold loop_ix2. apply for_returns; [exact Hu|].
  intros a u0 _ Hu0. now apply ix2_block_returns.
Qed.

Lemma cell1_block_returns icell1 u :
  0 <= icell1 -> icell1 + 1 < Z.of_nat (length (cell1_indices L)) -> P u ->
  exists u', cell1_block act L icell1 u = inr u' /\ P u'.
Proof.
  intros Hlo Hhi Hu. unfold cell1_block.
  destruct (at_returns (cell1_indices L) icell1) as [ifirst1 Ef]; [lia|].
  destruct (at_returns (cell1_indices L) (icell1 + 1)) as [ilast1 El]; [lia|].
  rewrite Ef, El. simpl.
  pose proof (at_Forall _ _ _ _ Hc1 Ef) as Bf. pose proof (at_Forall _ _ _ _ Hc1 El) as Bl.
  simpl in Bf, Bl.
  destruct (ilast1 - ifirst1 >? 0); [|eauto].
  unfold floordiv.
  destruct (Z.eqb_spec (num_y1divs L * num_z1divs L) 0) as [E|_];
    [apply Z.eq_mul_0 in E; tauto|].
  simpl. destruct (Z.eqb_spec (num_z1divs L) 0) as [E|_]; [tauto|]. simpl.
  apply loop_ix2_returns; [lia | lia | exact Hu].
Qed.

Lemma cell1_loop_returns first last u :
  last <= first \/ (0 <= first /\ last < Z.of_nat (length (cell1_indices L))) ->
  P u ->
  exists u', cell1_loop act L first last u = inr u' /\ P u'.
Proof.
  intros Hr Hu. unfold cell1_loop. apply for_returns; [exact Hu|].
  intros c u0 Hc%elem_range Hu0. apply cell1_block_returns; [lia | lia | exact Hu0].
Qed.

End NestReturns.

Section Returns.

Context {F : Type} `{Float64 F}.
Variable unsorting_indices : list Z -> list Z.

Lemma pair_block_returns (L : locals F) (n1 n2 : Z) p x y z q (st : accum F) :
  Z.of_nat (length (x2_sorted L)) = n2 -> Z.of_nat (length (y2_sorted L)) = n2 ->
  Z.of_nat (length (z2_sorted L)) = n2 -> Z.of_nat (length (w2_sorted L)) = n2 ->
  0 <= p < n1 -> 0 <= q < n2 ->
  Z.of_nat (length (inertia_tensor st)) = n1 /\ Z.of_nat (length (sum_weights st)) = n1 ->
  exists st', pair_block L p x y z q st = inr st' /\
    Z.of_nat (length (inertia_tensor st')) = n1 /\
    Z.of_nat (length (sum_weights st')) = n1.
Proof.
  intros Hx Hy Hz Hw Hp Hq [HT HW]. unfold pair_block.
  destruct (at_returns (x2_sorted L) q) as [x2 ->]; [lia|].
  destruct (at_returns (y2_sorted L) q) as [y2 ->]; [lia|].
  destruct (at_returns (z2_sorted L) q) as [z2 ->]; [lia|].
  destruct (at_returns (w2_sorted L) q) as [w2 ->]; [lia|].
  simpl. destruct (f_ltb _ _); [|eauto].
  unfold upd.
  destruct (at_returns (inertia_tensor st) p) as [t ->]; [lia|].
  destruct (at_returns (sum_weights st) p) as [s ->]; [lia|].
  simpl. eexists. split; [reflexivity|]. simpl. now rewrite !length_insert.
Qed.

Lemma covering_steps_returns (a b : F) :
  ceil_quot_within (- 2 ^ 31) (2 ^ 31) a b = true -> exists n, covering_steps a b = inr n.
Proof.
  unfold ceil_quot_within, covering_steps, to_c_int, fits_c_int.
  destruct (f_ceil_quot a b); [|discriminate..]. intros ->. eauto.
Qed.

Lemma divs_ok_spec (dm : double_mesh F) :
  divs_ok dm = true ->
  (fits_c_int (num_xdivs (mesh1 dm)) = true /\ fits_c_int (num_ydivs (mesh1 dm)) = true /\
   fits_c_int (num_zdivs (mesh1 dm)) = true) /\
  (fits_c_int (num_xdivs (mesh2 dm)) = true /\ fits_c_int (num_ydivs (mesh2 dm)) = true /\
   fits_c_int (num_zdivs (mesh2 dm)) = true).
Proof.
  unfold divs_ok. rewrite forallb_forall. intros Hall.
  assert (Hfit : forall n, (0 <=? n) && (n <? 2 ^ 31) = true -> fits_c_int n = true).
  { unfold fits_c_int. intros n [H0%Z.leb_le H1%Z.ltb_lt]%andb_prop.
    apply andb_true_intro. split; [apply Z.leb_le | apply Z.ltb_lt]; lia. }
  repeat split; apply Hfit, Hall; simpl; tauto.
Qed.

Lemma divs_positive_spec (dm : double_mesh F) :
  divs_positive dm = true ->
  (0 < num_xdivs (mesh1 dm) /\ 0 < num_ydivs (mesh1 dm) /\ 0 < num_zdivs (mesh1 dm)) /\
  (0 < num_xdivs (mesh2 dm) /\ 0 < num_ydivs (mesh2 dm) /\ 0 < num_zdivs (mesh2 dm)).
Proof.
  unfold divs_positive. rewrite forallb_forall. intros Hall.
  repeat split; apply Z.ltb_lt, Hall; simpl; tauto.
Qed.

Lemma floordiv_returns (a b : Z) : b <> 0 -> exists r, floordiv a b = inr r.
Proof. intros Hb. unfold floordiv. destruct (Z.eqb_spec b 0); [tauto | eauto]. Qed.

(** X1.  Arguments with which every conversion succeeds, every buffer is
    large enough and no divisor is zero: the engine returns, with one
    tensor and one weight sum for every index of the un-sorting
    permutation. *)
Theorem engine_returns_on_valid_buffers (dm : double_mesh F)
    x1in y1in z1in x2in y2in z2in weights2in (rsmooth : F) (cell1_tuple : Z * Z) :
  buffers_ok (unsorting_indices (idx_sorted (mesh1 dm))) dm
    x1in y1in z1in x2in y2in z2in weights2in cell1_tuple = true ->
  exists T W,
    inertia_tensor_per_object_engine unsorting_indices dm x1in y1in z1in x2in y2in z2in
      weights2in rsmooth cell1_tuple = inr (T, W) /\
    length T = length (unsorting_indices (idx_sorted (mesh1 dm))) /\
    length W = length (unsorting_indices (idx_sorted (mesh1 dm))).
Proof.
  unfold buffers_ok. intros Hok.
  apply andb_prop in Hok as [Hok _].
  apply andb_prop in Hok as [Hok Hc].
  apply andb_prop in Hok as [Hok Hc0].
  apply andb_prop in Hok as [Hok Hc1%Z.ltb_lt].
  apply andb_prop in Hok as [Hok Hc2].
  apply andb_prop in Hok as [Hok Hc3].
  apply andb_prop in Hok as [Hok Hpos].
  apply andb_prop in Hok as [Hok Hdivs].
  apply andb_prop in Hok as [Hok Hq].
  apply andb_prop in Hok as [Hconv Hs].
  unfold conversions_ok in Hconv.
  apply andb_prop in Hconv as [Hconv Fn].
  apply andb_prop in Hconv as [Hconv Fp].
  apply andb_prop in Hconv as [Fa Fb].
  unfold sorting_indices_ok in Hs.
  apply andb_prop in Hs as [Hs Hw2].
  apply andb_prop in Hs as [Hs Hz2].
  apply andb_prop in Hs as [Hs Hy2].
  apply andb_prop in Hs as [Hs Hx2].
  apply andb_prop in Hs as [Hs Hz1].
  apply andb_prop in Hs as [Hx1 Hy1].
  unfold covering_steps_ok in Hq.
  apply andb_prop in Hq as [[Hqx Hqy]%andb_prop Hqz].
  apply divs_ok_spec in Hdivs as ((D1x & D1y & D1z) & (D2x & D2y & D2z)).
  apply divs_positive_spec in Hpos as ((Hp9 & Hp8 & Hp7) & (Hc4 & Hc5 & Hc6)).
  assert (Hc9 : num_xdivs (mesh1 dm) <> 0) by lia.
  assert (Hc8 : num_ydivs (mesh1 dm) <> 0) by lia.
  assert (Hc7 : num_zdivs (mesh1 dm) <> 0) by lia.
  destruct (np_take_returns _ _ Hx1) as [x1s Ex1].
  destruct (np_take_returns _ _ Hy1) as [y1s Ey1].
  destruct (np_take_returns _ _ Hz1) as [z1s Ez1].
  destruct (np_take_returns _ _ Hx2) as [x2s Ex2].
  destruct (np_take_returns _ _ Hy2) as [y2s Ey2].
  destruct (np_take_returns _ _ Hz2) as [z2s Ez2].
  destruct (np_take_returns _ _ Hw2) as [w2s Ew2].
  destruct (covering_steps_returns _ _ Hqx) as [cx Ecx].
  destruct (covering_steps_returns _ _ Hqy) as [cy Ecy].
  destruct (covering_steps_returns _ _ Hqz) as [cz Ecz].
  destruct (floordiv_returns (num_xdivs (mesh2 dm)) _ Hc9) as [rx Erx].
  destruct (floordiv_returns (num_ydivs (mesh2 dm)) _ Hc8) as [ry Ery].
  destruct (floordiv_returns (num_zdivs (mesh2 dm)) _ Hc7) as [rz Erz].
  apply valid_offsets_spec in Hc2, Hc0.
  unfold inertia_tensor_per_object_engine, setup.
  rewrite (to_c_int64_returns _ Fa), (to_c_int64_returns _ Fb). simpl.
  rewrite (to_c_int_returns _ Fp), (to_c_int_returns _ Fn). simpl.
  rewrite Ex1, Ey1, Ez1, Ex2, Ey2, Ez2, Ew2. simpl.
  rewrite Ecx, Ecy, Ecz. simpl.
  rewrite (to_c_int_returns _ D1x), (to_c_int_returns _ D1y), (to_c_int_returns _ D1z),
    (to_c_int_returns _ D2x), (to_c_int_returns _ D2y), (to_c_int_returns _ D2z). simpl.
  rewrite Erx, Ery, Erz. simpl.
  apply np_take_length in Ex1, Ey1, Ez1, Ex2, Ey2, Ez2, Ew2.
  match goal with
  | |- context [cell1_loop ?act ?L ?a ?b ?s] =>
      destruct (cell1_loop_returns act L
                  (fun st => Z.of_nat (length (inertia_tensor st))
                             = Z.of_nat (length (idx_sorted (mesh1 dm))) /\
                             Z.of_nat (length (sum_weights st))
                             = Z.of_nat (length (idx_sorted (mesh1 dm))))
                  (Z.of_nat (length (idx_sorted (mesh1 dm))))
                  (Z.of_nat (length (idx_sorted (mesh2 dm)))))
        with (first := a) (last := b) (u := s) as (st & -> & HT & HW)
  end; simpl; try assumption; try congruence.
  - intros p x y z q u. apply pair_block_returns; simpl; congruence.
  - apply orb_prop in Hc3 as [Hle%Z.leb_le | [Hlo%Z.leb_le Hhi%Z.ltb_lt]%andb_prop];
      [left | right]; lia.
  - rewrite !length_replicate, Ex1. auto.
  - apply Nat2Z.inj in HT, HW. rewrite <- HW in Hc at 1.
    destruct (np_take_returns _ _ Hc) as [W EW]. rewrite EW. simpl.
    rewrite HW, <- HT in Hc.
    destruct (np_take_returns _ _ Hc) as [T ET]. rewrite ET. simpl.
    exists T, W. split; [reflexivity|].
    split; eapply np_take_length; eassumption.
Qed.

End Returns.

(** ** Errors of a call *)

Lemma np_index_invalid {A} (a : list A) (k : Z) :
  ~ (- Z.of_nat (length a) <= k < Z.of_nat (length a)) -> np_index a k = inl IndexError.
Proof.
  intros Hk. unfold np_index.
  destruct (Z.leb_spec 0 k), (Z.ltb_spec k (Z.of_nat (length a))); simpl; try lia;
    destruct (Z.leb_spec (- Z.of_nat (length a)) k), (Z.ltb_spec k 0); simpl; try lia;
    reflexivity.
Qed.

Lemma np_take_invalid {A} (a : list A) (idx : list Z) :
  valid_indices (length a) idx = false -> np_take a idx = inl IndexError.
Proof.
  unfold valid_indices, np_take. induction idx as [|k idx IH]; simpl; [discriminate|].
  intros Hx. apply andb_false_iff in Hx as [Hk | Hidx].
  - rewrite np_index_invalid; [reflexivity|].
    apply andb_false_iff in Hk as [Hk%Z.leb_gt | Hk%Z.ltb_ge]; lia.
  - destruct (np_index a k) as [e|v] eqn:Ek.
    + destruct (decide (- Z.of_nat (length a) <= k < Z.of_nat (length a))) as [Hin|Hout].
      * destruct (np_index_returns a k Hin) as [v Ev]. congruence.
      * rewrite (np_index_invalid a k Hout) in Ek. now inversion Ek.
    + simpl. now rewrite (IH Hidx).
Qed.

Lemma valid_indices_dec (n : nat) (idx : list Z) :
  valid_indices n idx = true \/ valid_indices n idx = false.
Proof. destruct (valid_indices n idx); auto. Qed.

Section Errors.

Context {F : Type} `{Float64 F}.
Variable unsorting_indices : list Z -> list Z.

Lemma conversions_ok_spec (dm : double_mesh F) (cell1_tuple : Z * Z) :
  conversions_ok dm cell1_tuple = true ->
  to_c_int64 (fst cell1_tuple) = inr (fst cell1_tuple) /\
  to_c_int64 (snd cell1_tuple) = inr (snd cell1_tuple) /\
  to_c_int (_PBCs dm) = inr (_PBCs dm) /\
  to_c_int (ncells (mesh1 dm)) = inr (ncells (mesh1 dm)).
Proof.
  unfold conversions_ok. intros Hconv.
  apply andb_prop in Hconv as [Hconv Fn].
  apply andb_prop in Hconv as [Hconv Fp].
  apply andb_prop in Hconv as [Fa Fb].
  auto using to_c_int_returns, to_c_int64_returns.
Qed.

(** X22.  The conversions of lines 53-57 come first: when an end of the
    range of cells does not fit an [int64], or [_PBCs] or the number of
    cells of mesh 1 does not fit an [int], the call raises
    [OverflowError], whatever the other arguments are. *)
Theorem engine_OverflowError (dm : double_mesh F)
    x1in y1in z1in x2in y2in z2in weights2in (rsmooth : F) (cell1_tuple : Z * Z) :
  conversions_ok dm cell1_tuple = false ->
  inertia_tensor_per_object_engine unsorting_indices dm x1in y1in z1in x2in y2in z2in
    weights2in rsmooth cell1_tuple = inl OverflowError.
Proof.
  unfold conversions_ok, inertia_tensor_per_object_engine, setup, to_c_int64, to_c_int.
  intros Hbad.
  destruct (fits_c_int64 (fst cell1_tuple)); [|reflexivity].
  destruct (fits_c_int64 (snd cell1_tuple)); [|reflexivity].
  destruct (fits_c_int (_PBCs dm)); [|reflexivity].
  destruct (fits_c_int (ncells (mesh1 dm))); [discriminate | reflexivity].
Qed.

(** X2.  When the conversions of lines 53-57 succeed ([conversions_ok]) and
    a sorting permutation has an index that is out of range for one of the
    arrays it is applied to, the call raises [IndexError]. *)
Theorem engine_IndexError (dm : double_mesh F)
    x1in y1in z1in x2in y2in z2in weights2in (rsmooth : F) (cell1_tuple : Z * Z) :
  conversions_ok dm cell1_tuple = true ->
  sorting_indices_ok dm x1in y1in z1in x2in y2in z2in weights2in = false ->
  inertia_tensor_per_object_engine unsorting_indices dm x1in y1in z1in x2in y2in z2in
    weights2in rsmooth cell1_tuple = inl IndexError.
Proof.
  intros (Ca & Cb & Cp & Cn)%conversions_ok_spec.
  unfold sorting_indices_ok, inertia_tensor_per_object_engine, setup. intros Hbad.
  rewrite Ca, Cb. simpl. rewrite Cp, Cn. simpl.
  destruct (valid_indices_dec (length x1in) (idx_sorted (mesh1 dm))) as [E|E];
    [destruct (np_take_returns _ _ E) as [? ->]; rewrite E in Hbad; simpl in *
    | now rewrite (np_take_invalid _ _ E)].
  destruct (valid_indices_dec (length y1in) (idx_sorted (mesh1 dm))) as [E1|E1];
    [destruct (np_take_returns _ _ E1) as [? ->]; rewrite E1 in Hbad; simpl in *
    | now rewrite (np_take_invalid _ _ E1)].
  destruct (valid_indices_dec (length z1in) (idx_sorted (mesh1 dm))) as [E2|E2];
    [destruct (np_take_returns _ _ E2) as [? ->]; rewrite E2 in Hbad; simpl in *
    | now rewrite (np_take_invalid _ _ E2)].
  destruct (valid_indices_dec (length x2in) (idx_sorted (mesh2 dm))) as [E3|E3];
    [destruct (np_take_returns _ _ E3) as [? ->]; rewrite E3 in Hbad; simpl in *
    | now rewrite (np_take_invalid _ _ E3)].
  destruct (valid_indices_dec (length y2in) (idx_sorted (mesh2 dm))) as [E4|E4];
    [destruct (np_take_returns _ _ E4) as [? ->]; rewrite E4 in Hbad; simpl in *
    | now rewrite (np_take_invalid _ _ E4)].
  destruct (valid_indices_dec (length z2in) (idx_sorted (mesh2 dm))) as [E5|E5];
    [destruct (np_take_returns _ _ E5) as [? ->]; rewrite E5 in Hbad; simpl in *
    | now rewrite (np_take_invalid _ _ E5)].
  now rewrite (np_take_invalid _ _ Hbad).
Qed.

(** X3.  A mesh 1 without divisions on some axis ([mesh1_has_zero_divs]):
    when the conversions of lines 53-57 succeed ([conversions_ok]), every
    index of the two sorting permutations is valid
    ([sorting_indices_ok]), sample 1 has fewer than [2^31] points, the
    three numbers of covering steps have a value that fits an [int]
    ([covering_steps_ok]) and the six numbers of divisions are not
    negative and fit an [int] ([divs_ok]), the call raises
    [ZeroDivisionError]. *)
Theorem engine_ZeroDivisionError (dm : double_mesh F)
    x1in y1in z1in x2in y2in z2in weights2in (rsmooth : F) (cell1_tuple : Z * Z) :
  conversions_ok dm cell1_tuple = true ->
  sorting_indices_ok dm x1in y1in z1in x2in y2in z2in weights2in = true ->
  Z.of_nat (length (idx_sorted (mesh1 dm))) < 2 ^ 31 ->
  covering_steps_ok dm = true ->
  divs_ok dm = true ->
  mesh1_has_zero_divs dm = true ->
  inertia_tensor_per_object_engine unsorting_indices dm x1in y1in z1in x2in y2in z2in
    weights2in rsmooth cell1_tuple = inl ZeroDivisionError.
Proof.
  intros (Ca & Cb & Cp & Cn)%conversions_ok_spec.
  unfold sorting_indices_ok, covering_steps_ok, mesh1_has_zero_divs.
  intros Hs _ Hq ((D1x & D1y & D1z) & (D2x & D2y & D2z))%divs_ok_spec Hz.
  apply andb_prop in Hs as [Hs Hw2].
  apply andb_prop in Hs as [Hs Hz2].
  apply andb_prop in Hs as [Hs Hy2].
  apply andb_prop in Hs as [Hs Hx2].
  apply andb_prop in Hs as [Hs Hz1].
  apply andb_prop in Hs as [Hx1 Hy1].
  apply andb_prop in Hq as [[Hqx Hqy]%andb_prop Hqz].
  destruct (np_take_returns _ _ Hx1) as [x1s Ex1].
  destruct (np_take_returns _ _ Hy1) as [y1s Ey1].
  destruct (np_take_returns _ _ Hz1) as [z1s Ez1].
  destruct (np_take_returns _ _ Hx2) as [x2s Ex2].
  destruct (np_take_returns _ _ Hy2) as [y2s Ey2].
  destruct (np_take_returns _ _ Hz2) as [z2s Ez2].
  destruct (np_take_returns _ _ Hw2) as [w2s Ew2].
  destruct (covering_steps_returns _ _ Hqx) as [cx Ecx].
  destruct (covering_steps_returns _ _ Hqy) as [cy Ecy].
  destruct (covering_steps_returns _ _ Hqz) as [cz Ecz].
  unfold inertia_tensor_per_object_engine, setup.
  rewrite Ca, Cb. simpl. rewrite Cp, Cn. simpl.
  rewrite Ex1, Ey1, Ez1, Ex2, Ey2, Ez2, Ew2. simpl.
  rewrite Ecx, Ecy, Ecz. simpl.
  rewrite (to_c_int_returns _ D1x), (to_c_int_returns _ D1y), (to_c_int_returns _ D1z),
    (to_c_int_returns _ D2x), (to_c_int_returns _ D2y), (to_c_int_returns _ D2z). simpl.
  unfold floordiv.
  destruct (num_xdivs (mesh1 dm) =? 0); [reflexivity|]. simpl.
  destruct (num_ydivs (mesh1 dm) =? 0); [reflexivity|]. simpl.
  destruct (num_zdivs (mesh1 dm) =? 0); [reflexivity | discriminate].
Qed.

End Errors.

(** ** The range of cells *)

Lemma for_inr_elem {K S} (l : list K) (body : K -> S -> M S) (s s' : S) (k : K) :
  for_ l body s = inr s' -> k ∈ l -> exists u u', body k u = inr u'.
Proof.
  revert s. induction l as [|k0 l IH]; intros s Hrun Hin; [inversion Hin|].
  simpl in Hrun. apply bind_inr in Hrun as (s1 & Hk & Hrest).
  apply elem_of_cons in Hin as [-> | Hin]; [eauto | eapply IH; eauto].
Qed.

Lemma range_empty (lo hi : Z) : hi <= lo -> range lo hi = [].
Proof. intros Hle. unfold range. apply seqZ_nil. lia. Qed.

Lemma np_index_nonneg {A} (a : list A) (k : Z) (v : A) :
  0 <= k -> np_index a k = inr v -> a !! Z.to_nat k = Some v.
Proof.
  intros Hk. unfold np_index.
  destruct ((0 <=? k) && (k <? Z.of_nat (length a)));
    [now intros [_ Hv]%at_inr|].
  destruct (Z.ltb_spec k 0); [lia|]. rewrite andb_false_r. discriminate.
Qed.

Lemma np_take_lookup {A} (a b : list A) (idx : list Z) (i : nat) (k : Z) :
  np_take a idx = inr b -> idx !! i = Some k ->
  exists v, b !! i = Some v /\ np_index a k = inr v.
Proof.
  unfold np_take. intros Hb%mapM_inr Hi.
  destruct (Forall2_lookup_l _ _ _ _ _ Hb Hi) as (v & Hv & Hk). eauto.
Qed.

Section CellRange.

Context {F : Type} `{Float64 F}.
Variable unsorting_indices : list Z -> list Z.

(** The point of sample 1 of an event of the range lies in a cell of the
    range. *)
Lemma events_p_in_range (L : locals F) (first last : Z) (e : event F) :
  e ∈ events L first last ->
  exists c, first <= c < last /\ in_cell (cell1_indices L) c (ev_pq e).1.
Proof.
  unfold events. intros (c & He & Hc%elem_range)%list_elem_of_bind.
  exists c. split; [exact Hc|].
  unfold events_cell1 in He. unfold in_cell.
  destruct (_ >? 0); [|inversion He].
  unfold events_ix2, events_ix2_block, events_iy2, events_iy2_block, events_iz2,
    events_iz2_block in He.
  apply list_elem_of_bind in He as (a & He & _).
  apply list_elem_of_bind in He as (b & He & _).
  apply list_elem_of_bind in He as (c' & He & _).
  apply elem_events_cell2 in He as [Hp _]. lia.
Qed.

(** The innermost block writes row [p] only. *)
Lemma pair_block_other (L : locals F) p x y z q (st st' : accum F) (k : nat) :
  pair_block L p x y z q st = inr st' -> p <> Z.of_nat k ->
  inertia_tensor st' !! k = inertia_tensor st !! k /\
  sum_weights st' !! k = sum_weights st !! k.
Proof.
  intros (x2 & y2 & z2 & w2 & _ & _ & _ & _ & Hcase)%pair_block_inr Hk.
  destruct Hcase as [[_ ->] | (_ & t & s & [Hp _]%at_inr & _ & ->)]; [auto|].
  simpl. rewrite !list_lookup_insert_ne by lia. auto.
Qed.

Lemma events_other (L : locals F) (evs : list (event F)) (st st' : accum F) (k : nat) :
  for_ evs (on_event (pair_block L)) st = inr st' ->
  (forall e, e ∈ evs -> (ev_pq e).1 <> Z.of_nat k) ->
  inertia_tensor st' !! k = inertia_tensor st !! k /\
  sum_weights st' !! k = sum_weights st !! k.
Proof.
  intros Hrun Hk. revert Hrun.
  apply (for_inv (fun u => inertia_tensor u !! k = inertia_tensor st !! k /\
                           sum_weights u !! k = sum_weights st !! k)); [auto|].
  intros [[[[p x] y] z] q] u u' Hin [HT HW] Hstep.
  apply (pair_block_other _ _ _ _ _ _ _ _ k) in Hstep as [-> ->]; [auto|].
  apply (Hk _ Hin).
Qed.

(** X4.  An empty range of cells: every tensor and every weight sum of the
    result is zero. *)
Theorem empty_range_gives_zeros (dm : double_mesh F)
    x1in y1in z1in x2in y2in z2in weights2in (rsmooth : F) (first last : Z) T W :
  last <= first ->
  inertia_tensor_per_object_engine unsorting_indices dm x1in y1in z1in x2in y2in z2in
    weights2in rsmooth (first, last) = inr (T, W) ->
  Forall (fun t => t = tensor_zero) T /\ Forall (fun w => w = f_zero) W.
Proof.
  intros Hle (L & st & _ & Hfold & _ & HW & HT)%engine_inr.
  unfold events in Hfold. simpl in Hfold. rewrite (range_empty _ _ Hle) in Hfold.
  simpl in Hfold. inversion Hfold; subst st. simpl in HW, HT.
  split; (eapply np_take_Forall; [eassumption|]); now apply Forall_replicate.
Qed.

(** X5.  A point of sample 1 that lies in no cell of the range: its tensor and
    its weight sum are zero.  [k] is the place of the point among the
    sorted points, [i] its place in the result. *)
Theorem point_outside_range_gets_zeros (dm : double_mesh F)
    x1in y1in z1in x2in y2in z2in weights2in (rsmooth : F) (first last : Z) T W
    (i : nat) (k : Z) :
  inertia_tensor_per_object_engine unsorting_indices dm x1in y1in z1in x2in y2in z2in
    weights2in rsmooth (first, last) = inr (T, W) ->
  unsorting_indices (idx_sorted (mesh1 dm)) !! i = Some k ->
  0 <= k ->
  (forall c, first <= c < last -> ~ in_cell (cell_id_indices (mesh1 dm)) c k) ->
  T !! i = Some tensor_zero /\ W !! i = Some f_zero.
Proof.
  intros (L & st & HL & Hfold & _ & HW & HT)%engine_inr Hi Hk Hout.
  apply setup_inr in HL as (_ & _ & _ & [Hc1 _] & _).
  destruct (np_take_lookup _ _ _ _ _ HW Hi) as (w & Hw & Ew).
  destruct (np_take_lookup _ _ _ _ _ HT Hi) as (t & Ht & Et).
  apply np_index_nonneg in Ew, Et; try exact Hk.
  destruct (events_other L _ _ _ (Z.to_nat k) Hfold) as [ET EW].
  { intros e (c & Hc & Hin)%events_p_in_range E. simpl in Hc.
    apply (Hout c Hc). rewrite <- Hc1. rewrite E in Hin.
    now rewrite Z2Nat.id in Hin. }
  rewrite ET in Et. rewrite EW in Ew. simpl in Et, Ew.
  apply lookup_replicate in Et as [-> _]. apply lookup_replicate in Ew as [-> _].
  auto.
Qed.

(** X6.  A call on a range of cells that is not empty returns, with every read
    inside its buffer, only if the range lies within the array of cell
    boundaries of mesh 1, which has one entry more than there are cells. *)
Theorem returning_call_reads_cells_inside (dm : double_mesh F)
    x1in y1in z1in x2in y2in z2in weights2in (rsmooth : F) (first last : Z) T W :
  inertia_tensor_per_object_engine unsorting_indices dm x1in y1in z1in x2in y2in z2in
    weights2in rsmooth (first, last) = inr (T, W) ->
  first < last ->
  0 <= first /\ last < Z.of_nat (length (cell_id_indices (mesh1 dm))).
Proof.
  intros (L & st & HL & _ & Hloop & _)%engine_inr Hne.
  apply setup_inr in HL as (_ & _ & _ & [Hc1 _] & _). rewrite <- Hc1.
  simpl in Hloop. unfold cell1_loop in Hloop.
  assert (Hcell : forall c, first <= c < last ->
            0 <= c /\ c + 1 < Z.of_nat (length (cell1_indices L))).
  { intros c Hc%elem_range.
    destruct (for_inr_elem _ _ _ _ c Hloop Hc) as (u & u' & Hb).
    unfold cell1_block in Hb.
    apply bind_inr in Hb as (a & [Ha _]%at_inr & Hb).
    apply bind_inr in Hb as (b & [_ Hb1%lookup_lt_Some]%at_inr & _). lia. }
  destruct (Hcell first ltac:(lia)) as [Hlo _].
  destruct (Hcell (last - 1) ltac:(lia)) as [_ Hhi]. lia.
Qed.

End CellRange.

(** ** Splitting the range of cells, on binary64 *)


Lemma np_take_same_length {A B} (a : list A) (b : list B) (idx : list Z) (a' : list A) :
  length b = length a -> np_take a idx = inr a' -> exists b', np_take b idx = inr b'.
Proof.
  intros Hlen Ha.
  destruct (valid_indices_dec (length b) idx) as [E|E]; [now apply np_take_returns|].
  rewrite Hlen in E. rewrite (np_take_invalid _ _ E) in Ha. discriminate.
Qed.

Section Rows.

Context {F : Type} `{Float64 F}.





End Rows.

(** *** A binary64 sum is [-0.0] only when both summands are

    [SFadd] rounds the exact sum of two finite values; the exponents of
    binary64 values are not below [emin], so the rounding shifts out
    fewer bits than the sum has and a sum that is not zero does not round
    to zero. *)










Lemma float_add_zero_r_eq (x : float) : x <> neg_zero -> PrimFloat.add x PrimFloat.zero = x.
Proof.
  intros Hx. apply Prim2SF_inj. rewrite add_spec.
  change (Prim2SF PrimFloat.zero) with (S754_zero false).
  destruct (Prim2SF x) as [s|s| |s m e] eqn:E; try reflexivity.
  destruct s; [|reflexivity]. exfalso. apply Hx, Prim2SF_inj. now rewrite E.
Qed.


Lemma zero_not_neg_zero : not_neg_zero PrimFloat.zero.
Proof. intros E. apply (f_equal Prim2SF) in E. vm_compute in E. discriminate. Qed.






Section SplitBinary64.

Variable unsorting_indices : list Z -> list Z.


End SplitBinary64.

(** ** The pairs of a call, in any arithmetic *)

Section EnginePairs.

Context {F : Type} `{Float64 F}.
Variable unsorting_indices : list Z -> list Z.

(** X24.  In any arithmetic, binary64 too.  What a call returns is what the
    innermost block, applied to the events of the range one after the
    other from arrays of zeros, leaves, un-sorted; and when the index
    arrays are well formed and the window of a cell of mesh 1 spans no
    more cells than mesh 2 has, no two events are of the same pair of
    points: no pair is handed to the innermost block twice. *)
Theorem engine_pairs_once (dm : double_mesh F)
    x1in y1in z1in x2in y2in z2in weights2in (rsmooth : F) (first last : Z) T W :
  inertia_tensor_per_object_engine unsorting_indices dm x1in y1in z1in x2in y2in z2in
    weights2in rsmooth (first, last) = inr (T, W) ->
  exists L st,
    setup dm x1in y1in z1in x2in y2in z2in weights2in rsmooth = inr L /\
    for_ (events L first last) (on_event (pair_block L))
      (accum_zero (length (x1_sorted L))) = inr st /\
    np_take (sum_weights st) (unsorting_indices (idx_sorted (mesh1 dm))) = inr W /\
    np_take (inertia_tensor st) (unsorting_indices (idx_sorted (mesh1 dm))) = inr T /\
    (indices_ok L first last = true -> window_fits L = true ->
     NoDup (ev_pq <$> events L first last)).
Proof.
  intros (L & st & HL & E & _ & HW & HT)%engine_inr. simpl in E.
  exists L, st. repeat split; try assumption.
  intros Hok Hfit. exact (proj1 (proj2 (window_pairs_exactly_once L first last Hok Hfit))).
Qed.

End EnginePairs.

(** ** A pair of coincident points, on binary64 *)

Lemma float_sub_diag (x : float) : finite64 x = true -> PrimFloat.sub x x = PrimFloat.zero.
Proof.
  unfold finite64. intros Hx. apply Prim2SF_inj. rewrite sub_spec.
  change (Prim2SF PrimFloat.zero) with (S754_zero false).
  destruct (Prim2SF x) as [s|s| |s m e]; try discriminate.
  - now destruct s.
  - unfold SF64sub, SFsub. cbv zeta. now rewrite Z.sub_diag.
Qed.

Lemma float_zero_mul (w : float) :
  finite64 w = true ->
  PrimFloat.mul PrimFloat.zero w = PrimFloat.zero \/
  PrimFloat.mul PrimFloat.zero w = neg_zero.
Proof.
  unfold finite64. intros Hw.
  assert (E : exists s, Prim2SF (PrimFloat.mul PrimFloat.zero w) = S754_zero s).
  { rewrite mul_spec. change (Prim2SF PrimFloat.zero) with (S754_zero false).
    destruct (Prim2SF w) as [s|s| |s m e]; try discriminate; simpl; eauto. }
  destruct E as [[|] E]; [right | left]; apply Prim2SF_inj; now rewrite E.
Qed.

Lemma float_add_signed_zero (x z : float) :
  not_neg_zero x -> z = PrimFloat.zero \/ z = neg_zero -> PrimFloat.add x z = x.
Proof.
  intros Hx [-> | ->]; [now apply float_add_zero_r_eq|].
  apply Prim2SF_inj. rewrite add_spec.
  change (Prim2SF neg_zero) with (S754_zero true).
  destruct (Prim2SF x) as [s|s| |s m e]; try reflexivity. now destruct s.
Qed.

(** X23.  binary64.  A pair of coincident points, its coordinates and the
    weight being numbers (neither infinite nor NaN), the square of the
    radius being positive: the innermost block adds the weight of the
    point of sample 2 to the weight sum of the point of sample 1 and
    leaves its tensor, of which no entry is [-0.0], as it was. *)
Theorem coincident_pair_binary64 (L : locals float) p x y z q (st : accum float)
    w2 t s :
  at_ (x2_sorted L) q = inr x ->
  at_ (y2_sorted L) q = inr y ->
  at_ (z2_sorted L) q = inr z ->
  at_ (w2_sorted L) q = inr w2 ->
  finite64 x = true -> finite64 y = true -> finite64 z = true -> finite64 w2 = true ->
  PrimFloat.ltb PrimFloat.zero (rsmooth_squared L) = true ->
  at_ (inertia_tensor st) p = inr t ->
  at_ (sum_weights st) p = inr s ->
  tensor_not_neg_zero t ->
  pair_block L p x y z q st
  = inr {| inertia_tensor := inertia_tensor st;
           sum_weights := <[Z.to_nat p := PrimFloat.add s w2]> (sum_weights st) |}.
Proof.
  intros Hx Hy Hz Hw Fx Fy Fz Fw Hr Ht Hs
    (H00 & H01 & H02 & H10 & H11 & H12 & H20 & H21 & H22).
  unfold pair_block. rewrite Hx, Hy, Hz, Hw. simpl.
  rewrite (float_sub_diag x Fx), (float_sub_diag y Fy), (float_sub_diag z Fz).
  change (PrimFloat.mul PrimFloat.zero PrimFloat.zero) with PrimFloat.zero.
  change (PrimFloat.add (PrimFloat.add PrimFloat.zero PrimFloat.zero) PrimFloat.zero)
    with PrimFloat.zero.
  rewrite Hr. unfold upd. rewrite Ht, Hs. simpl.
  pose proof (float_zero_mul w2 Fw) as Hz0.
  assert (E : add_products (PrimFloat.mul PrimFloat.zero w2) (PrimFloat.mul PrimFloat.zero w2)
                (PrimFloat.mul PrimFloat.zero w2) (PrimFloat.mul PrimFloat.zero w2)
                (PrimFloat.mul PrimFloat.zero w2) (PrimFloat.mul PrimFloat.zero w2) t = t).
  { destruct t. unfold add_products. simpl in *.
    f_equal; now apply float_add_signed_zero. }
  rewrite E. apply at_inr in Ht as [_ Ht]. now rewrite (list_insert_id _ _ _ Ht).
Qed.

(** ** Invariants of the accumulators, in exact rationals *)

Lemma np_take_related {A B} (R : A -> B -> Prop) (a a' : list A) (b b' : list B)
    (idx : list Z) :
  Forall2 R a b ->
  np_take a idx = inr a' -> np_take b idx = inr b' -> Forall2 R a' b'.
Proof.
  unfold np_take. intros HR Ha%mapM_inr Hb%mapM_inr.
  pose proof (Forall2_length _ _ _ HR) as Hlen.
  revert b' Hb. induction Ha as [|k v idx a' Hk _ IH]; intros b' Hb;
    inversion Hb as [|? w ? b'' Hk' Hb']; subst; constructor; [|now apply IH].
  clear IH Hb Hb'. unfold np_index in *. rewrite <- Hlen in Hk'.
  assert (Hat : forall j u w', at_ a j = inr u -> at_ b j = inr w' -> R u w').
  { intros j u w' [_ Hu]%at_inr [_ Hw]%at_inr. eapply Forall2_lookup_lr; eauto. }
  destruct ((0 <=? k) && (k <? Z.of_nat (length a)));
    [|destruct ((- Z.of_nat (length a) <=? k) && (k <? 0)); [|discriminate]];
    eapply Hat; eauto.
Qed.

Lemma Qsquare_nonneg (x : Q) : (0 <= x * x)%Q.
Proof. destruct (Qlt_le_dec x 0); nra. Qed.

Section ExactInvariants.

Variable unsorting_indices : list Z -> list Z.

Lemma add_products_quadratic_form (t : tensor Q) (dx dy dz w2 a b c : Q) :
  (0 <= w2)%Q -> (0 <= quadratic_form t a b c)%Q ->
  (0 <= quadratic_form
          (add_products (dx * dx * w2)%Q (dy * dy * w2)%Q (dz * dz * w2)%Q
             (dx * dy * w2)%Q (dx * dz * w2)%Q (dy * dz * w2)%Q t) a b c)%Q.
Proof.
  intros Hw Ht. unfold quadratic_form, add_products in *. cbn in *.
  assert (Hsq : (0 <= w2 * ((a * dx + b * dy + c * dz) * (a * dx + b * dy + c * dz)))%Q).
  { apply Qmult_le_0_compat; [exact Hw | apply Qsquare_nonneg]. }
  lra.
Qed.

Lemma events_quadratic_form (L : locals Q) (evs : list (event Q)) (st st' : accum Q) :
  Forall (Qle 0) (w2_sorted L) ->
  for_ evs (on_event (pair_block L)) st = inr st' ->
  Forall (fun t => forall a b c, (0 <= quadratic_form t a b c)%Q) (inertia_tensor st) ->
  Forall (fun t => forall a b c, (0 <= quadratic_form t a b c)%Q) (inertia_tensor st').
Proof.
  intros Hw Hrun Hst. revert Hrun.
  apply (for_inv (fun u => Forall (fun t => forall a b c,
                                      (0 <= quadratic_form t a b c)%Q)
                             (inertia_tensor u))); [exact Hst|].
  intros [[[[p x] y] z] q] u u' _ Hu
    (x2 & y2 & z2 & w2 & _ & _ & _ & Hw2 & Hcase)%pair_block_inr.
  destruct Hcase as [[_ ->] | (_ & t & s & Ht & _ & ->)]; [exact Hu|].
  simpl. apply Forall_insert; [exact Hu|]. intros a b c.
  apply add_products_quadratic_form.
  - apply (at_Forall _ _ _ _ Hw Hw2).
  - apply (at_Forall _ _ _ _ Hu Ht).
Qed.

(** X7.  With weights that are not negative every tensor of the result is
    positive semi-definite: [v^T t v >= 0] for every vector [v]. *)
Theorem tensor_positive_semidefinite (dm : double_mesh Q)
    x1in y1in z1in x2in y2in z2in weights2in (rsmooth : Q) cell1_tuple T W :
  Forall (Qle 0) weights2in ->
  inertia_tensor_per_object_engine unsorting_indices dm x1in y1in z1in x2in y2in z2in
    weights2in rsmooth cell1_tuple = inr (T, W) ->
  forall (i : nat) (t : tensor Q), T !! i = Some t ->
  forall a b c : Q, (0 <= quadratic_form t a b c)%Q.
Proof.
  intros Hw (L & st & HL & Hfold & _ & _ & HT)%engine_inr i t Hi.
  assert (Hall : Forall (fun t => forall a b c, (0 <= quadratic_form t a b c)%Q) T).
  { eapply np_take_Forall; [exact HT|].
    eapply events_quadratic_form; [|exact Hfold|].
    - eapply np_take_Forall; [eapply setup_w2_sorted, HL | exact Hw].
    - simpl. apply Forall_replicate. intros a b c.
      unfold quadratic_form. cbn. nra. }
  rewrite Forall_forall in Hall. eapply Hall, list_elem_of_lookup_2, Hi.
Qed.

Lemma events_trace_bound (L : locals Q) (evs : list (event Q)) (st st' : accum Q) :
  Forall (Qle 0) (w2_sorted L) ->
  for_ evs (on_event (pair_block L)) st = inr st' ->
  Forall2 (fun t w => (trace t <= rsmooth_squared L * w)%Q)
    (inertia_tensor st) (sum_weights st) ->
  Forall2 (fun t w => (trace t <= rsmooth_squared L * w)%Q)
    (inertia_tensor st') (sum_weights st').
Proof.
  intros Hw Hrun Hst. revert Hrun.
  apply (for_inv (fun u => Forall2 (fun t w => (trace t <= rsmooth_squared L * w)%Q)
                             (inertia_tensor u) (sum_weights u))); [exact Hst|].
  intros [[[[p x] y] z] q] u u' _ Hu
    (x2 & y2 & z2 & w2 & _ & _ & _ & Hw2 & Hcase)%pair_block_inr.
  destruct Hcase as [[_ ->] | (Hlt & t & s & [_ Ht]%at_inr & [_ Hs]%at_inr & ->)];
    [exact Hu|].
  simpl. apply Forall2_insert; [exact Hu|].
  pose proof (Forall2_lookup_lr _ _ _ _ _ _ Hu Ht Hs) as Hts.
  pose proof (at_Forall _ _ _ _ Hw Hw2) as Hw2pos. simpl in Hw2pos.
  apply Qltb_lt in Hlt. unfold dist_sq in Hlt.
  unfold trace, add_products in *. cbn in *.
  assert (Hprod : (0 <= (rsmooth_squared L
                         - ((x - x2) * (x - x2) + (y - y2) * (y - y2)
                            + (z - z2) * (z - z2))) * w2)%Q).
  { apply Qmult_le_0_compat; [|exact Hw2pos]. lra. }
  nra.
Qed.

(** X8.  With weights that are not negative the trace of the tensor of a point is
    at most [rsmooth^2] times its weight sum: every pair that is counted is
    closer than [rsmooth]. *)
Theorem trace_at_most_radius_squared_times_weight (dm : double_mesh Q)
    x1in y1in z1in x2in y2in z2in weights2in (rsmooth : Q) cell1_tuple T W :
  Forall (Qle 0) weights2in ->
  inertia_tensor_per_object_engine unsorting_indices dm x1in y1in z1in x2in y2in z2in
    weights2in rsmooth cell1_tuple = inr (T, W) ->
  forall (i : nat) (t : tensor Q) (w : Q), T !! i = Some t -> W !! i = Some w ->
  (trace t <= rsmooth * rsmooth * w)%Q.
Proof.
  intros Hw (L & st & HL & Hfold & _ & HW & HT)%engine_inr i t w Hi Hj.
  assert (Hall : Forall2 (fun t w => (trace t <= rsmooth * rsmooth * w)%Q) T W).
  { eapply np_take_related; [|exact HT|exact HW].
    pose proof (setup_rsmooth_squared _ _ _ _ _ _ _ _ _ _ HL) as Hr. cbn in Hr.
    rewrite <- Hr.
    eapply events_trace_bound; [|exact Hfold|].
    - eapply np_take_Forall; [eapply setup_w2_sorted, HL | exact Hw].
    - simpl. apply Forall2_replicate. unfold trace. cbn. lra. }
  exact (Forall2_lookup_lr _ _ _ _ _ _ Hall Hi Hj).
Qed.

End ExactInvariants.

(** ** The result is additive in the weights *)

Section WeightsAdditive.

Context {F : Type} `{Float64 F}.
Variable unsorting_indices : list Z -> list Z.
Hypothesis f_add_0_0 : (f_zero + f_zero)%f64 = f_zero.
Hypothesis f_mul_add_distr_l :
  forall x y z : F, (x * (y + z))%f64 = (x * y + x * z)%f64.
Hypothesis f_add_swap :
  forall x y z t : F, (x + y + (z + t))%f64 = (x + z + (y + t))%f64.

Lemma setup_set_w2_sorted (dm : double_mesh F)
    x1in y1in z1in x2in y2in z2in (w w' : list F) (r : F) (L L' : locals F) :
  setup dm x1in y1in z1in x2in y2in z2in w r = inr L ->
  setup dm x1in y1in z1in x2in y2in z2in w' r = inr L' ->
  L' = set_w2_sorted L (w2_sorted L').
Proof.
  unfold setup. intros H1 H2.
  do 8 (let E := fresh "E" in
        apply bind_inr in H1 as (? & E & H1); rewrite E in H2; simpl in H2).
  apply bind_inr in H1 as (w1 & _ & H1). apply bind_inr in H2 as (w2 & _ & H2).
  repeat (let E := fresh "E" in
          apply bind_inr in H1 as (? & E & H1); rewrite E in H2; simpl in H2).
  inversion H1; inversion H2; subst. reflexivity.
Qed.

Lemma add_products_weights_add (dx dy dz w w' : F) (t t' : tensor F) :
  add_products (dx * dx * (w + w'))%f64 (dy * dy * (w + w'))%f64
    (dz * dz * (w + w'))%f64 (dx * dy * (w + w'))%f64 (dx * dz * (w + w'))%f64
    (dy * dz * (w + w'))%f64 (tensor_add t t')
  = tensor_add
      (add_products (dx * dx * w)%f64 (dy * dy * w)%f64 (dz * dz * w)%f64
         (dx * dy * w)%f64 (dx * dz * w)%f64 (dy * dz * w)%f64 t)
      (add_products (dx * dx * w')%f64 (dy * dy * w')%f64 (dz * dz * w')%f64
         (dx * dy * w')%f64 (dx * dz * w')%f64 (dy * dz * w')%f64 t').
Proof.
  unfold add_products, tensor_add. simpl.
  rewrite !f_mul_add_distr_l. f_equal; apply f_add_swap.
Qed.

Lemma pair_block_weights_add (L : locals F) (w w' : list F) p x y z q
    (s1 s2 s1' s2' : accum F) :
  length (inertia_tensor s1) = length (inertia_tensor s2) ->
  length (sum_weights s1) = length (sum_weights s2) ->
  pair_block (set_w2_sorted L w) p x y z q s1 = inr s1' ->
  pair_block (set_w2_sorted L w') p x y z q s2 = inr s2' ->
  pair_block (set_w2_sorted L (zip_with f_add w w')) p x y z q (accum_add s1 s2)
  = inr (accum_add s1' s2').
Proof.
  intros HT HW H1 H2.
  apply pair_block_inr in H1 as (x2 & y2 & z2 & w2 & Hx & Hy & Hz & Hw & C1).
  apply pair_block_inr in H2 as (x2' & y2' & z2' & w2' & Hx' & Hy' & Hz' & Hw' & C2).
  simpl in Hx, Hy, Hz, Hw, Hx', Hy', Hz', Hw', C1, C2.
  rewrite Hx in Hx'. rewrite Hy in Hy'. rewrite Hz in Hz'.
  inversion Hx'; inversion Hy'; inversion Hz'; subst x2' y2' z2'.
  assert (Hww : at_ (zip_with f_add w w') q = inr (w2 + w2')%f64).
  { apply at_inr in Hw as [Hq Hw]. apply at_inr in Hw' as [_ Hw'].
    apply at_inr. split; [exact Hq|]. now rewrite lookup_zip_with, Hw, Hw'. }
  unfold pair_block. simpl. rewrite Hx, Hy, Hz, Hww. simpl.
  destruct C1 as [[E1 ->] | (E1 & t1 & w1 & Ht1 & Hs1 & ->)];
    destruct C2 as [[E2 ->] | (E2 & t2 & v2 & Ht2 & Hs2 & ->)];
    try (rewrite E1 in E2; discriminate); rewrite E1; [reflexivity|].
  apply at_inr in Ht1 as [Hp Ht1]. apply at_inr in Hs1 as [_ Hs1].
  apply at_inr in Ht2 as [_ Ht2]. apply at_inr in Hs2 as [_ Hs2].
  unfold upd, accum_add. simpl.
  assert (HaT : at_ (zip_with tensor_add (inertia_tensor s1) (inertia_tensor s2)) p
                = inr (tensor_add t1 t2)).
  { apply at_inr. split; [exact Hp|]. now rewrite lookup_zip_with, Ht1, Ht2. }
  assert (HaW : at_ (zip_with f_add (sum_weights s1) (sum_weights s2)) p
                = inr (w1 + v2)%f64).
  { apply at_inr. split; [exact Hp|]. now rewrite lookup_zip_with, Hs1, Hs2. }
  rewrite HaT, HaW. simpl. unfold ret. do 2 f_equal.
  - now rewrite add_products_weights_add, insert_zip_with.
  - now rewrite f_add_swap, insert_zip_with.
Qed.

Lemma events_weights_add (L : locals F) (w w' : list F) (evs : list (event F))
    (s1 s2 s1' s2' : accum F) :
  length (inertia_tensor s1) = length (inertia_tensor s2) ->
  length (sum_weights s1) = length (sum_weights s2) ->
  for_ evs (on_event (pair_block (set_w2_sorted L w))) s1 = inr s1' ->
  for_ evs (on_event (pair_block (set_w2_sorted L w'))) s2 = inr s2' ->
  for_ evs (on_event (pair_block (set_w2_sorted L (zip_with f_add w w'))))
    (accum_add s1 s2) = inr (accum_add s1' s2').
Proof.
  revert s1 s2. induction evs as [|[[[[p x] y] z] q] evs IH];
    intros s1 s2 HT HW H1 H2; simpl in *.
  - inversion H1; inversion H2; now subst.
  - apply bind_inr in H1 as (u1 & K1 & H1). apply bind_inr in H2 as (u2 & K2 & H2).
    rewrite (pair_block_weights_add L w w' p x y z q s1 s2 u1 u2 HT HW K1 K2). simpl.
    apply pair_block_length in K1 as [HT1 HW1].
    apply pair_block_length in K2 as [HT2 HW2].
    apply IH; [congruence | congruence | exact H1 | exact H2].
Qed.

Lemma accum_zero_add (n : nat) :
  accum_add (accum_zero n) (accum_zero n) = accum_zero (F:=F) n.
Proof.
  unfold accum_add, accum_zero. simpl. f_equal.
  - induction n as [|n IH]; simpl; [reflexivity|]. rewrite IH. f_equal.
    unfold tensor_add, tensor_zero. simpl. now rewrite f_add_0_0.
  - induction n as [|n IH]; simpl; [reflexivity|]. now rewrite IH, f_add_0_0.
Qed.

(** X9.  The result is additive in the weights of sample 2: a call with the sums
    [w[j] + w'[j]] as weights returns the element-wise sum of what the call
    with [w] and the call with [w'] return. *)
Theorem weights_additive (dm : double_mesh F)
    x1in y1in z1in x2in y2in z2in (w w' : list F) (rsmooth : F) cell1_tuple r1 r2 :
  length w = length w' ->
  inertia_tensor_per_object_engine unsorting_indices dm x1in y1in z1in x2in y2in z2in
    w rsmooth cell1_tuple = inr r1 ->
  inertia_tensor_per_object_engine unsorting_indices dm x1in y1in z1in x2in y2in z2in
    w' rsmooth cell1_tuple = inr r2 ->
  inertia_tensor_per_object_engine unsorting_indices dm x1in y1in z1in x2in y2in z2in
    (zip_with f_add w w') rsmooth cell1_tuple = inr (result_add r1 r2).
Proof.
  destruct r1 as [T1 W1], r2 as [T2 W2]. intros Hlen H1 H2.
  destruct (engine_range_fits _ _ _ _ _ _ _ _ _ _ _ _ H1) as [Fa Fb].
  apply engine_inr in H1 as (L & s1 & HL & E1 & N1 & HW1 & HT1).
  apply engine_inr in H2 as (L' & s2 & HL' & E2 & _ & HW2 & HT2).
  pose proof (setup_set_w2_sorted _ _ _ _ _ _ _ _ _ _ _ _ HL HL') as EL'.
  pose proof (setup_w2_sorted _ _ _ _ _ _ _ _ _ _ HL) as Hw.
  pose proof (setup_w2_sorted _ _ _ _ _ _ _ _ _ _ HL') as Hw'.
  assert (HL12 : setup dm x1in y1in z1in x2in y2in z2in (zip_with f_add w w') rsmooth
                 = inr (set_w2_sorted L (zip_with f_add (w2_sorted L) (w2_sorted L')))).
  { pose proof (np_take_zip_with f_add _ _ _ _ _ Hlen Hw Hw') as Hww.
    revert HL. unfold setup. intros HL.
    do 8 (let E := fresh "E" in
          apply bind_inr in HL as (? & E & HL); rewrite E; simpl).
    apply bind_inr in HL as (? & _ & HL). rewrite Hww. simpl.
    repeat (let E := fresh "E" in
            apply bind_inr in HL as (? & E & HL); rewrite E; simpl).
    inversion HL; subst L. reflexivity. }
  assert (EL : L = set_w2_sorted L (w2_sorted L)) by (now destruct L).
  rewrite EL in E1 at 2. rewrite EL' in E2.
  change (events (set_w2_sorted L (w2_sorted L')) cell1_tuple.1 cell1_tuple.2)
    with (events L cell1_tuple.1 cell1_tuple.2) in E2.
  change (length (x1_sorted (set_w2_sorted L (w2_sorted L'))))
    with (length (x1_sorted L)) in E2.
  pose proof (events_length _ _ _ _ E1) as [LT1 LW1].
  pose proof (events_length _ _ _ _ E2) as [LT2 LW2].
  simpl in LT1, LW1, LT2, LW2.
  rewrite length_replicate in LT1. rewrite length_replicate in LW1.
  rewrite length_replicate in LT2. rewrite length_replicate in LW2.
  assert (E12 := events_weights_add L (w2_sorted L) (w2_sorted L') _ _ _ _ _
                   ltac:(reflexivity) ltac:(reflexivity) E1 E2).
  rewrite accum_zero_add in E12.
  assert (N12 : cell1_loop
                  (pair_block (set_w2_sorted L (zip_with f_add (w2_sorted L) (w2_sorted L'))))
                  (set_w2_sorted L (zip_with f_add (w2_sorted L) (w2_sorted L')))
                  cell1_tuple.1 cell1_tuple.2 (accum_zero (length (x1_sorted L)))
                = inr (accum_add s1 s2)).
  { rewrite <- E12.
    exact (nest_events (pair_block L) _ L _ _ _ _ N1 _). }
  assert (LT : length (inertia_tensor s1) = length (inertia_tensor s2)) by congruence.
  assert (LW : length (sum_weights s1) = length (sum_weights s2)) by congruence.
  eapply (engine_intro unsorting_indices); [exact Fa | exact Fb | exact HL12 | | |].
  - exact N12.
  - exact (np_take_zip_with f_add _ _ W1 W2 _ LW HW1 HW2).
  - exact (np_take_zip_with tensor_add _ _ T1 T2 _ LT HT1 HT2).
Qed.

End WeightsAdditive.

(** ** Radii and coordinates for which no pair passes the test *)

Section NoPairPasses.

Context {F : Type} `{Float64 F}.
Variable unsorting_indices : list Z -> list Z.

Lemma events_no_pair_passes (L : locals F) (evs : list (event F)) (st st' : accum F) :
  (forall dx dy dz : F, (dist_sq dx dy dz <? rsmooth_squared L)%f64 = false) ->
  for_ evs (on_event (pair_block L)) st = inr st' -> st' = st.
Proof.
  intros Hno. apply (for_inv (fun u => u = st)); [reflexivity|].
  intros [[[[p x] y] z] q] u u' _ ->
    (x2 & y2 & z2 & w2 & _ & _ & _ & _ & Hcase)%pair_block_inr.
  destruct Hcase as [[_ ->] | [Hlt _]]; [reflexivity|].
  rewrite Hno in Hlt. discriminate.
Qed.

Lemma engine_no_pair_passes (dm : double_mesh F)
    x1in y1in z1in x2in y2in z2in weights2in (rsmooth : F) cell1_tuple T W :
  (forall dx dy dz : F, (dist_sq dx dy dz <? rsmooth * rsmooth)%f64 = false) ->
  inertia_tensor_per_object_engine unsorting_indices dm x1in y1in z1in x2in y2in z2in
    weights2in rsmooth cell1_tuple = inr (T, W) ->
  Forall (fun t => t = tensor_zero) T /\ Forall (fun w => w = f_zero) W.
Proof.
  intros Hno (L & st & HL & Hfold & _ & HW & HT)%engine_inr.
  apply events_no_pair_passes in Hfold;
    [|now rewrite (setup_rsmooth_squared _ _ _ _ _ _ _ _ _ _ HL)].
  subst st. simpl in HW, HT.
  split; (eapply np_take_Forall; [eassumption|]); now apply Forall_replicate.
Qed.

End NoPairPasses.

(** *** binary64: NaN *)

Lemma float_ltb_nan_r (x : float) : PrimFloat.ltb x nan = false.
Proof.
  rewrite ltb_spec. change (Prim2SF nan) with S754_nan.
  unfold SFltb. now destruct (Prim2SF x).
Qed.

Lemma float_ltb_nan_l (x : float) : PrimFloat.ltb nan x = false.
Proof. rewrite ltb_spec. reflexivity. Qed.

Lemma float_mul_nan_nan : PrimFloat.mul nan nan = nan.
Proof. reflexivity. Qed.

Lemma float_add_nan_l (x : float) : PrimFloat.add nan x = nan.
Proof. apply Prim2SF_inj. rewrite add_spec. reflexivity. Qed.

Lemma float_add_nan_r (x : float) : PrimFloat.add x nan = nan.
Proof.
  apply Prim2SF_inj. rewrite add_spec. change (Prim2SF nan) with S754_nan.
  now destruct (Prim2SF x) as [s|s| |s m e]; try destruct s.
Qed.

Lemma float_sub_nan_l (x : float) : PrimFloat.sub nan x = nan.
Proof. apply Prim2SF_inj. rewrite sub_spec. reflexivity. Qed.

Lemma float_sub_nan_r (x : float) : PrimFloat.sub x nan = nan.
Proof.
  apply Prim2SF_inj. rewrite sub_spec. change (Prim2SF nan) with S754_nan.
  now destruct (Prim2SF x) as [s|s| |s m e]; try destruct s.
Qed.

Section NaN.

Variable unsorting_indices : list Z -> list Z.

(** X10.  binary64.  A radius that is NaN: no pair passes the test [dsq <
    rsmooth_squared], and a call that returns gives zeros only. *)
Theorem nan_radius_gives_zeros (dm : double_mesh float)
    x1in y1in z1in x2in y2in z2in weights2in cell1_tuple T W :
  inertia_tensor_per_object_engine unsorting_indices dm x1in y1in z1in x2in y2in z2in
    weights2in nan cell1_tuple = inr (T, W) ->
  Forall (fun t => t = tensor_zero) T /\ Forall (fun w => w = PrimFloat.zero) W.
Proof.
  intros Hrun.
  eapply (engine_no_pair_passes (F:=float) (H:=binary64)); [|exact Hrun].
  intros dx dy dz. cbn. apply float_ltb_nan_r.
Qed.

(** X11.  binary64.  A pair of which a coordinate is NaN, of the point of sample
    1 or of the point of sample 2, does not pass the test: the innermost
    block leaves the accumulators as they are. *)
Theorem nan_coordinate_contributes_nothing (L : locals float) p x1tmp y1tmp z1tmp q
    (x2 y2 z2 : float) (st st' : accum float) :
  at_ (x2_sorted L) q = inr x2 ->
  at_ (y2_sorted L) q = inr y2 ->
  at_ (z2_sorted L) q = inr z2 ->
  x1tmp = nan \/ y1tmp = nan \/ z1tmp = nan \/ x2 = nan \/ y2 = nan \/ z2 = nan ->
  pair_block L p x1tmp y1tmp z1tmp q st = inr st' ->
  st' = st.
Proof.
  intros Hx Hy Hz Hnan
    (x2' & y2' & z2' & w2 & Hx' & Hy' & Hz' & _ & Hcase)%pair_block_inr.
  rewrite Hx in Hx'. rewrite Hy in Hy'. rewrite Hz in Hz'.
  inversion Hx'; inversion Hy'; inversion Hz'; subst x2' y2' z2'.
  destruct Hcase as [[_ ->] | [Hlt _]]; [reflexivity|].
  exfalso. revert Hlt. unfold dist_sq. cbn.
  assert (E : PrimFloat.add
                (PrimFloat.add
                   (PrimFloat.mul (PrimFloat.sub x1tmp x2) (PrimFloat.sub x1tmp x2))
                   (PrimFloat.mul (PrimFloat.sub y1tmp y2) (PrimFloat.sub y1tmp y2)))
                (PrimFloat.mul (PrimFloat.sub z1tmp z2) (PrimFloat.sub z1tmp z2))
              = nan).
  { destruct Hnan as [-> | [-> | [-> | [-> | [-> | ->]]]]];
      repeat first [rewrite float_sub_nan_l | rewrite float_sub_nan_r
                   | rewrite float_mul_nan_nan | rewrite float_add_nan_l
                   | rewrite float_add_nan_r];
      reflexivity. }
  rewrite E, float_ltb_nan_l. discriminate.
Qed.

End NaN.

(** *** exact rationals: radius zero *)

Section ZeroRadius.

Variable unsorting_indices : list Z -> list Z.

(** X12.  Exact rationals.  With the radius 0 no pair passes the test, not even a
    pair at separation zero, and a call that returns gives zeros only. *)
Theorem zero_radius_gives_zeros (dm : double_mesh Q)
    x1in y1in z1in x2in y2in z2in weights2in (rsmooth : Q) cell1_tuple T W :
  (rsmooth == 0)%Q ->
  inertia_tensor_per_object_engine unsorting_indices dm x1in y1in z1in x2in y2in z2in
    weights2in rsmooth cell1_tuple = inr (T, W) ->
  Forall (fun t => t = tensor_zero) T /\ Forall (fun w => w = 0%Q) W.
Proof.
  intros Hr Hrun.
  eapply (engine_no_pair_passes (F:=Q) (H:=exactQ)); [|exact Hrun].
  intros dx dy dz. unfold dist_sq. cbn.
  destruct (Qltb (dx * dx + dy * dy + dz * dz) (rsmooth * rsmooth)) eqn:E;
    [|reflexivity].
  apply Qltb_lt in E. rewrite Hr in E.
  pose proof (Qsquare_nonneg dx). pose proof (Qsquare_nonneg dy).
  pose proof (Qsquare_nonneg dz). lra.
Qed.

End ZeroRadius.

(** ** The covering steps and the cell ids *)

(** X13.  Exact rationals.  Each number of covering steps that the set-up
    computes is the least number of cells of mesh 2 that reach the search
    length: [(n - 1) * cell_size < search_length <= n * cell_size]. *)
Theorem covering_steps_least_cover (dm : double_mesh Q)
    x1in y1in z1in x2in y2in z2in weights2in (rsmooth : Q) (L : locals Q) :
  setup dm x1in y1in z1in x2in y2in z2in weights2in rsmooth = inr L ->
  (0 < xcell_size (mesh2 dm))%Q -> (0 < ycell_size (mesh2 dm))%Q ->
  (0 < zcell_size (mesh2 dm))%Q ->
  ((inject_Z (num_x2_covering_steps L - 1) * xcell_size (mesh2 dm) < search_xlength dm)%Q /\
   (search_xlength dm <= inject_Z (num_x2_covering_steps L) * xcell_size (mesh2 dm))%Q) /\
  ((inject_Z (num_y2_covering_steps L - 1) * ycell_size (mesh2 dm) < search_ylength dm)%Q /\
   (search_ylength dm <= inject_Z (num_y2_covering_steps L) * ycell_size (mesh2 dm))%Q) /\
  ((inject_Z (num_z2_covering_steps L - 1) * zcell_size (mesh2 dm) < search_zlength dm)%Q /\
   (search_zlength dm <= inject_Z (num_z2_covering_steps L) * zcell_size (mesh2 dm))%Q).
Proof.
  intros HL Hx Hy Hz.
  destruct (setup_covering_steps _ _ _ _ _ _ _ _ _ _ HL) as (Hcx & Hcy & Hcz).
  assert (Hcov : forall (a b : Q) (n : Z), covering_steps a b = inr n -> (0 < b)%Q ->
            (inject_Z (n - 1) * b < a)%Q /\ (a <= inject_Z n * b)%Q).
  { intros a b n Hn Hb. split; [|now apply covering_steps_covers].
    apply covering_steps_Q in Hn as [_ ->].
    assert (Hnz : ~ (b == 0)%Q)
      by (intros E; rewrite E in Hb; now apply Qlt_irrefl in Hb).
    rewrite <- (Qmult_div_r a b Hnz) at 2. rewrite (Qmult_comm b).
    apply Qmult_lt_compat_r; [exact Hb | apply Qceiling_lt]. }
  auto.
Qed.

Section CellIds.

Context {F : Type} `{Float64 F}.

(** X14.  The coordinates that the engine computes for a cell id of a grid with
    [ny] and [nz] divisions along y and z (lines 131-133) are those from
    which the id is made up as [ix * (ny * nz) + iy * nz + iz] (line 173),
    and the other way round. *)
Theorem cell_id_round_trip (L : locals F) :
  0 < num_y1divs L -> 0 < num_z1divs L ->
  (forall ix iy iz,
      0 <= iy < num_y1divs L -> 0 <= iz < num_z1divs L ->
      let icell := ix * (num_y1divs L * num_z1divs L) + iy * num_z1divs L + iz in
      ix1_of L icell = ix /\ iy1_of L icell = iy /\ iz1_of L icell = iz) /\
  (forall icell,
      ix1_of L icell * (num_y1divs L * num_z1divs L)
      + iy1_of L icell * num_z1divs L + iz1_of L icell = icell /\
      0 <= iy1_of L icell < num_y1divs L /\ 0 <= iz1_of L icell < num_z1divs L).
Proof.
  intros Hy Hz.
  assert (Hyz : 0 < num_y1divs L * num_z1divs L) by nia.
  assert (Hdec : forall icell,
            ix1_of L icell * (num_y1divs L * num_z1divs L)
            + iy1_of L icell * num_z1divs L + iz1_of L icell = icell /\
            0 <= iy1_of L icell < num_y1divs L /\ 0 <= iz1_of L icell < num_z1divs L).
  { intros c. unfold iz1_of, iy1_of, ix1_of.
    pose proof (Z.div_mod c (num_y1divs L * num_z1divs L) ltac:(lia)) as E1.
    pose proof (Z.mod_pos_bound c (num_y1divs L * num_z1divs L) Hyz) as B1.
    replace (c - c / (num_y1divs L * num_z1divs L) * num_y1divs L * num_z1divs L)
      with (c mod (num_y1divs L * num_z1divs L)) by lia.
    pose proof (Z.div_mod (c mod (num_y1divs L * num_z1divs L)) (num_z1divs L)
                  ltac:(lia)) as E2.
    pose proof (Z.mod_pos_bound (c mod (num_y1divs L * num_z1divs L)) (num_z1divs L) Hz)
      as B2.
    assert (0 <= c mod (num_y1divs L * num_z1divs L) / num_z1divs L)
      by (apply Z.div_pos; lia).
    assert (c mod (num_y1divs L * num_z1divs L) / num_z1divs L < num_y1divs L)
      by (apply Z.div_lt_upper_bound; [lia | nia]).
    repeat split; lia. }
  split; [|exact Hdec].
  intros ix iy iz Hiy Hiz icell.
  destruct (Hdec icell) as (E & By & Bz).
  apply (flatten_inj (num_y1divs L) (num_z1divs L)); try assumption.
Qed.

End CellIds.

(** ** The weight sum of a point is the weight within the radius *)

Lemma Qsum_app (l k : list Q) : (Qsum (l ++ k) == Qsum l + Qsum k)%Q.
Proof.
  induction l as [|x l IH]; simpl; [ring|]. rewrite IH. ring.
Qed.

Lemma Qsum_Permutation (l k : list Q) : l ≡ₚ k -> (Qsum l == Qsum k)%Q.
Proof.
  induction 1 as [|x l k _ IH|x y l|l k m _ IH1 _ IH2]; simpl.
  - reflexivity.
  - now rewrite IH.
  - ring.
  - now rewrite IH1.
Qed.

Lemma Qsum_zero {A} (g : A -> Q) (l : list A) :
  (forall x, x ∈ l -> (g x == 0)%Q) -> (Qsum (g <$> l) == 0)%Q.
Proof.
  induction l as [|x l IH]; intros Hz; simpl; [reflexivity|].
  rewrite (Hz x) by left. rewrite IH; [ring|]. intros y Hy. apply Hz. now right.
Qed.

Lemma Qsum_ext {A} (g h : A -> Q) (l : list A) :
  (forall x, x ∈ l -> (g x == h x)%Q) -> (Qsum (g <$> l) == Qsum (h <$> l))%Q.
Proof.
  induction l as [|x l IH]; intros Hz; simpl; [reflexivity|].
  rewrite (Hz x) by left. rewrite IH; [reflexivity|]. intros y Hy. apply Hz. now right.
Qed.

(** The sum over a list without duplicates is the sum over any list
    without duplicates that holds it, when the function is zero on the
    rest. *)
Lemma Qsum_sub {A} (g : A -> Q) (l k : list A) :
  NoDup l -> NoDup k -> (forall x, x ∈ l -> x ∈ k) ->
  (forall x, x ∈ k -> x ∉ l -> (g x == 0)%Q) ->
  (Qsum (g <$> l) == Qsum (g <$> k))%Q.
Proof.
  revert k. induction l as [|x l IH]; intros k Hl Hk Hsub Hz; simpl.
  - symmetry. apply Qsum_zero. intros y Hy. apply Hz; [exact Hy|]. apply not_elem_of_nil.
  - apply NoDup_cons in Hl as [Hx Hl].
    destruct (proj1 (elem_of_Permutation k x) (Hsub x ltac:(left))) as [k' Hk'].
    rewrite (Qsum_Permutation _ _ (fmap_Permutation g _ _ Hk')). simpl.
    rewrite Hk' in Hk. apply NoDup_cons in Hk as [Hxk' Hk].
    rewrite (IH k' Hl Hk); [reflexivity| |].
    + intros y Hy. assert (Hyk : y ∈ k) by (apply Hsub; now right).
      rewrite Hk' in Hyk. apply elem_of_cons in Hyk as [-> | Hyk]; [contradiction|exact Hyk].
    + intros y Hy Hyl. apply Hz.
      * rewrite Hk'. now right.
      * intros [-> | Hyl']%elem_of_cons; contradiction.
Qed.

Lemma NoDup_fmap_inj_on {A B} (f : A -> B) (l : list A) (x y : A) :
  NoDup (f <$> l) -> x ∈ l -> y ∈ l -> f x = f y -> x = y.
Proof.
  induction l as [|a l IH]; intros Hnd Hx Hy E; [inversion Hx|].
  simpl in Hnd. apply NoDup_cons in Hnd as [Ha Hnd].
  apply elem_of_cons in Hx as [-> | Hx]; apply elem_of_cons in Hy as [-> | Hy].
  - reflexivity.
  - exfalso. apply Ha. rewrite E. now apply list_elem_of_fmap_2.
  - exfalso. apply Ha. rewrite <- E. now apply list_elem_of_fmap_2.
  - now apply IH.
Qed.

(** A point between the first and the last boundary lies in a cell. *)
Lemma in_some_cell (a : list Z) (q : Z) :
  (1 <= length a)%nat ->
  rd 0 a 0 <= q < rd 0 a (Z.of_nat (length a) - 1) ->
  exists k, 0 <= k /\ k + 1 < Z.of_nat (length a) /\ in_cell a k q.
Proof.
  intros Hlen Hq.
  assert (Hind : forall n : nat, (n < length a)%nat -> rd 0 a 0 <= q < rd 0 a (Z.of_nat n) ->
            exists k, 0 <= k /\ k + 1 <= Z.of_nat n /\ in_cell a k q).
  { induction n as [|n IH]; intros Hn Hb.
    - change (Z.of_nat 0) with 0 in Hb. lia.
    - destruct (Z_lt_le_dec q (rd 0 a (Z.of_nat n))) as [Hlt | Hge].
      + destruct (IH ltac:(lia) ltac:(lia)) as (k & Hk0 & Hk1 & Hk).
        exists k. repeat split; try lia; apply Hk.
      + exists (Z.of_nat n). unfold in_cell.
        replace (Z.of_nat n + 1) with (Z.of_nat (S n)) by lia. lia. }
  destruct (Hind (length a - 1)%nat ltac:(lia)) as (k & Hk0 & Hk1 & Hk).
  { replace (Z.of_nat (length a - 1)) with (Z.of_nat (length a) - 1) by lia. exact Hq. }
  exists k. repeat split; try lia; apply Hk.
Qed.

(** A cell id of a grid is that of a triple of coordinates. *)
Lemma cell_coordinates (nx ny nz k : Z) :
  0 < nx -> 0 < ny -> 0 < nz -> 0 <= k < nx * ny * nz ->
  exists ix iy iz, 0 <= ix < nx /\ 0 <= iy < ny /\ 0 <= iz < nz /\
    ix * (ny * nz) + iy * nz + iz = k.
Proof.
  intros Hx Hy Hz Hk.
  exists (k / (ny * nz)), ((k mod (ny * nz)) / nz), (k mod nz).
  assert (Hyz : 0 < ny * nz) by nia.
  pose proof (Z.div_mod k (ny * nz) ltac:(lia)) as E1.
  pose proof (Z.mod_pos_bound k (ny * nz) Hyz) as B1.
  pose proof (Z.div_mod (k mod (ny * nz)) nz ltac:(lia)) as E2.
  pose proof (Z.mod_pos_bound (k mod (ny * nz)) nz Hz) as B2.
  assert (E3 : (k mod (ny * nz)) mod nz = k mod nz).
  { rewrite (Z.mul_comm ny nz). rewrite Z.rem_mul_r by lia.
    rewrite (Z.mul_comm nz), Z.mod_add by lia. apply Z.mod_mod. lia. }
  rewrite E3 in E2, B2.
  assert (0 <= k / (ny * nz)) by (apply Z.div_pos; lia).
  assert (k / (ny * nz) < nx).
  { apply Z.div_lt_upper_bound; [lia|]. nia. }
  assert (0 <= k mod (ny * nz) / nz) by (apply Z.div_pos; lia).
  assert (k mod (ny * nz) / nz < ny).
  { apply Z.div_lt_upper_bound; [lia|]. nia. }
  repeat split; try lia.
Qed.

Section PairByPairFacts.

Import Geometry.

(** Every event of the range is the event of a point of a cell of the
    range, an unwrapped cell of mesh 2 and a point of the cell it wraps
    to. *)
Lemma events_form (L : locals Q) (first last : Z) (e : event Q) :
  e ∈ events L first last ->
  exists icell1 a b c p q,
    first <= icell1 < last /\ in_cell (cell1_indices L) icell1 p /\
    in_cell (cell2_indices L)
      (icell2_of L (a mod num_x2divs L) (b mod num_y2divs L) (c mod num_z2divs L)) q /\
    e = event_at L p q a b c.
Proof.
  unfold events. intros (icell1 & He & Hc%elem_range)%list_elem_of_bind.
  unfold events_cell1 in He.
  destruct (Z.gtb_spec (rd 0 (cell1_indices L) (icell1 + 1)
                        - rd 0 (cell1_indices L) icell1) 0) as [Hgt|Hle];
    [|inversion He].
  unfold events_ix2 in He. apply list_elem_of_bind in He as (a & He & _).
  unfold events_ix2_block, events_iy2 in He.
  apply list_elem_of_bind in He as (b & He & _).
  unfold events_iy2_block, events_iz2 in He.
  apply list_elem_of_bind in He as (c & He & _).
  unfold events_iz2_block, events_cell2 in He.
  destruct (Z.gtb_spec
              (rd 0 (cell2_indices L)
                 (icell2_of L (a mod num_x2divs L) (b mod num_y2divs L)
                    (c mod num_z2divs L) + 1)
               - rd 0 (cell2_indices L)
                   (icell2_of L (a mod num_x2divs L) (b mod num_y2divs L)
                      (c mod num_z2divs L))) 0) as [Hgt2|Hle2];
    [|inversion He].
  unfold events_i in He. apply list_elem_of_bind in He as (i & He & Hi%elem_range).
  unfold events_i_block, events_j in He.
  apply list_elem_of_fmap in He as (j & -> & Hj%elem_range).
  exists icell1, a, b, c, (rd 0 (cell1_indices L) icell1 + i),
    (rd 0 (cell2_indices L)
       (icell2_of L (a mod num_x2divs L) (b mod num_y2divs L) (c mod num_z2divs L)) + j).
  unfold in_cell. repeat split; try lia.
Qed.

(** The weight sum of the point [p] after a run over a list of events: what
    it was, plus the contributions of the events. *)
Lemma events_sum_weights (L : locals Q) (evs : list (event Q)) (st st' : accum Q)
    (p : nat) (s : Q) :
  for_ evs (on_event (pair_block L)) st = inr st' ->
  sum_weights st !! p = Some s ->
  exists s', sum_weights st' !! p = Some s' /\
    (s' == s + Qsum (contribution L (Z.of_nat p) <$> evs))%Q.
Proof.
  revert st s. induction evs as [|[[[[p0 x] y] z] q] evs IH]; intros st s Hrun Hs;
    simpl in Hrun.
  - inversion Hrun; subst st'. exists s. split; [exact Hs|]. simpl. ring.
  - apply bind_inr in Hrun as (st1 & Hstep & Hrun).
    assert (Hs1 : exists s1, sum_weights st1 !! p = Some s1 /\
              (s1 == s + contribution L (Z.of_nat p) (p0, x, y, z, q))%Q).
    { apply pair_block_inr in Hstep
        as (x2 & y2 & z2 & w2 & Hx & Hy & Hz & Hw & Hcase).
      assert (Et : Qltb (event_dist_sq L (p0, x, y, z, q)) (rsmooth_squared L)
                   = (dist_sq (x - x2) (y - y2) (z - z2) <? rsmooth_squared L)%f64).
      { unfold event_dist_sq. cbv beta iota.
        now rewrite (at_rd f_zero _ _ _ Hx), (at_rd f_zero _ _ _ Hy),
          (at_rd f_zero _ _ _ Hz). }
      unfold contribution. rewrite Et. unfold ev_pq. cbv beta iota. cbn [fst snd].
      rewrite (at_rd 0%Q _ _ _ Hw).
      destruct Hcase as [[-> ->] | (-> & t & s0 & _ & [Hp0 Hs0]%at_inr & ->)].
      - exists s. split; [exact Hs|]. rewrite andb_false_r. ring.
      - rewrite andb_true_r. cbn [sum_weights].
        destruct (Z.eqb_spec (Z.of_nat p) p0) as [E|E].
        + subst p0. rewrite Nat2Z.id in *. rewrite Hs in Hs0. inversion Hs0; subst s0.
          exists (s + w2)%Q. split; [|reflexivity].
          apply list_lookup_insert_eq. eapply lookup_lt_Some, Hs.
        + exists s. split; [|ring].
          rewrite list_lookup_insert_ne by lia. exact Hs. }
    destruct Hs1 as (s1 & Hs1 & E1).
    destruct (IH st1 s1 Hrun Hs1) as (s' & Hs' & E').
    exists s'. split; [exact Hs'|]. simpl. rewrite E', E1.
    symmetry. apply Qplus_assoc.
Qed.

Lemma Qsum_filter {A} (P : A -> Prop) `{forall x, Decision (P x)} (g : A -> Q)
    (l : list A) :
  (forall x, x ∈ l -> ~ P x -> (g x == 0)%Q) ->
  (Qsum (g <$> l) == Qsum (g <$> filter P l))%Q.
Proof.
  induction l as [|x l IH]; intros Hz; [reflexivity|].
  assert (IH' : (Qsum (g <$> l) == Qsum (g <$> filter P l))%Q).
  { apply IH. intros y Hy. apply Hz. now right. }
  destruct (decide (P x)) as [Hx|Hx].
  - rewrite filter_cons_True by exact Hx. simpl. now rewrite IH'.
  - rewrite filter_cons_False by exact Hx. simpl. rewrite IH', (Hz x); [ring|left|exact Hx].
Qed.

(** Among pairs without duplicates, those with a given first component
    have second components without duplicates. *)
Lemma NoDup_snd_filter {A} (f : A -> Z * Z) (p : Z) (l : list A) :
  NoDup (f <$> l) ->
  NoDup ((fun x => (f x).2) <$> filter (fun x => (f x).1 = p) l).
Proof.
  induction l as [|x l IH]; intros Hnd; [constructor|].
  simpl in Hnd. apply NoDup_cons in Hnd as [Hx Hnd].
  destruct (decide ((f x).1 = p)) as [E|E].
  - rewrite filter_cons_True by exact E. simpl. apply NoDup_cons. split; [|now apply IH].
    intros (y & Ey & [Hy1 Hy]%list_elem_of_filter)%list_elem_of_fmap.
    apply Hx. apply list_elem_of_fmap. exists y. split; [|exact Hy].
    destruct (f x), (f y). simpl in *. congruence.
  - rewrite filter_cons_False by exact E. now apply IH.
Qed.

Lemma images_image (L : locals Q) (k : Z) : k ∈ images L -> image L k.
Proof.
  unfold images, images_of, image. destruct (Z.eqb_spec (PBCs L) 1) as [E|E]; intros Hk.
  - apply list_elem_of_In in Hk. simpl in Hk. intuition lia.
  - apply list_elem_of_In in Hk. simpl in Hk. intuition lia.
Qed.

(** The shift of an unwrapped coordinate is a number of periods that the
    engine uses. *)
Lemma axis_shift_in_images (L : locals Q) (period : Q) (a n : Z) :
  PBCs L = 0 \/ PBCs L = 1 ->
  exists k, k ∈ images L /\ (axis_shift L period a n == inject_Z k * period)%Q.
Proof.
  unfold axis_shift, images, images_of. intros Hpbc.
  destruct (Z.ltb_spec a 0); [|destruct (Z.geb_spec a n)].
  - destruct Hpbc as [-> | ->]; simpl.
    + exists 0. split; [left|]. cbn. ring.
    + exists (-1). split; [left|]. cbn. ring.
  - destruct Hpbc as [-> | ->]; simpl.
    + exists 0. split; [left|]. cbn. ring.
    + exists 1. split; [do 2 right; left|]. cbn. ring.
  - exists 0. split; [|cbn; ring].
    destruct Hpbc as [-> | ->]; simpl; [left | right; left].
Qed.

(** An event that passes the radius test is the event of a pair of which
    some image is within the radius. *)
Lemma event_passes_within (L : locals Q) (p q a b c : Z) :
  PBCs L = 0 \/ PBCs L = 1 ->
  Qltb (event_dist_sq L (event_at L p q a b c)) (rsmooth_squared L) = true ->
  within L p q = true.
Proof.
  intros Hpbc Hlt%Qltb_lt.
  destruct (axis_shift_in_images L (l_xperiod L) a (num_x2divs L) Hpbc)
    as (kx & Hkx & Ex).
  destruct (axis_shift_in_images L (l_yperiod L) b (num_y2divs L) Hpbc)
    as (ky & Hky & Ey).
  destruct (axis_shift_in_images L (l_zperiod L) c (num_z2divs L) Hpbc)
    as (kz & Hkz & Ez).
  unfold within, close. apply existsb_exists. exists kx.
  split; [now apply list_elem_of_In|].
  apply existsb_exists. exists ky. split; [now apply list_elem_of_In|].
  apply existsb_exists. exists kz. split; [now apply list_elem_of_In|].
  apply Qltb_lt. eapply Qle_lt_trans; [|exact Hlt].
  apply Qle_lteq. right. unfold event_at, event_dist_sq, dist_sq. cbn.
  rewrite Ex, Ey, Ez. ring.
Qed.

(** A pair of which an image is within the radius has its event in the
    list, and the event passes the test. *)
Lemma image_in_radius_event (dm : double_mesh Q)
    x1in y1in z1in x2in y2in z2in weights2in (rsmooth : Q) (first last : Z)
    (L : locals Q) icell1 p ix2 iy2 iz2 q kx ky kz :
  setup dm x1in y1in z1in x2in y2in z2in weights2in rsmooth = inr L ->
  indices_ok L first last = true ->
  window_fits L = true ->
  geometry_ok dm L rsmooth first last = true ->
  first <= icell1 < last ->
  in_cell (cell1_indices L) icell1 p ->
  0 <= ix2 < num_x2divs L -> 0 <= iy2 < num_y2divs L -> 0 <= iz2 < num_z2divs L ->
  in_cell (cell2_indices L) (icell2_of L ix2 iy2 iz2) q ->
  image L kx -> image L ky -> image L kz ->
  (dist_sq
     (rd 0 (x1_sorted L) p - (rd 0 (x2_sorted L) q + inject_Z kx * l_xperiod L))
     (rd 0 (y1_sorted L) p - (rd 0 (y2_sorted L) q + inject_Z ky * l_yperiod L))
     (rd 0 (z1_sorted L) p - (rd 0 (z2_sorted L) q + inject_Z kz * l_zperiod L))
   < rsmooth_squared L)%Q ->
  event_at L p q (ix2 + kx * num_x2divs L) (iy2 + ky * num_y2divs L)
    (iz2 + kz * num_z2divs L) ∈ events L first last /\
  Qltb (event_dist_sq L
          (event_at L p q (ix2 + kx * num_x2divs L) (iy2 + ky * num_y2divs L)
             (iz2 + kz * num_z2divs L)))
       (rsmooth_squared L) = true.
Proof.
  intros Hsetup Hok Hfit Hgeo Hc Hp Hx Hy Hz Hq Hkx Hky Hkz Hd.
  destruct (window_pairs_exactly_once L first last Hok Hfit) as (_ & _ & Hreach).
  unfold geometry_ok in Hgeo.
  apply andb_prop in Hgeo as [Hgeo Hp2].
  apply andb_prop in Hgeo as [Hgeo Hp1].
  apply andb_prop in Hgeo as [Hgeo Hr0%Qle_bool_iff].
  apply andb_prop in Hgeo as [Hgeo Haz].
  apply andb_prop in Hgeo as [Hax Hay].
  apply axis_ok_spec in Hax as (Hsx & Hs1x & HLx & Hrx).
  apply axis_ok_spec in Hay as (Hsy & Hs1y & HLy & Hry).
  apply axis_ok_spec in Haz as (Hsz & Hs1z & HLz & Hrz).
  destruct (setup_covering_steps _ _ _ _ _ _ _ _ _ _ Hsetup) as (Hcx & Hcy & Hcz).
  apply covering_steps_covers in Hcx; [|exact Hsx].
  apply covering_steps_covers in Hcy; [|exact Hsy].
  apply covering_steps_covers in Hcz; [|exact Hsz].
  destruct (points1_in_cells_spec dm L first last icell1 p Hp1 Hc Hp)
    as (Px1%in_slab_spec & Py1%in_slab_spec & Pz1%in_slab_spec).
  destruct (points2_in_cells_spec dm L ix2 iy2 iz2 q Hp2 Hx Hy Hz Hq)
    as (Px2%in_slab_spec & Py2%in_slab_spec & Pz2%in_slab_spec).
  rewrite (setup_rsmooth_squared _ _ _ _ _ _ _ _ _ _ Hsetup) in Hd.
  unfold dist_sq in Hd. cbn in Hd.
  destruct (square_bound _ _ _ _ Hr0 Hd) as (Bx & By & Bz).
  split.
  - apply (Hreach icell1); try assumption.
    + exact (axis_in_window (xcell_size (mesh2 dm)) (xcell_size (mesh1 dm))
               (l_xperiod L) (rd 0%Q (x1_sorted L) p) (rd 0%Q (x2_sorted L) q)
               rsmooth (ix1_of L icell1) ix2 (num_x2_per_x1 L)
               (num_x2_covering_steps L) (num_x2divs L) kx
               Hsx Hs1x HLx (proj1 Px1) (proj2 Px1) (proj1 Px2)
               (proj2 Px2) (proj1 Bx) (proj2 Bx) (Qle_trans _ _ _ Hrx Hcx)).
    + exact (axis_in_window (ycell_size (mesh2 dm)) (ycell_size (mesh1 dm))
               (l_yperiod L) (rd 0%Q (y1_sorted L) p) (rd 0%Q (y2_sorted L) q)
               rsmooth (iy1_of L icell1) iy2 (num_y2_per_y1 L)
               (num_y2_covering_steps L) (num_y2divs L) ky
               Hsy Hs1y HLy (proj1 Py1) (proj2 Py1) (proj1 Py2)
               (proj2 Py2) (proj1 By) (proj2 By) (Qle_trans _ _ _ Hry Hcy)).
    + exact (axis_in_window (zcell_size (mesh2 dm)) (zcell_size (mesh1 dm))
               (l_zperiod L) (rd 0%Q (z1_sorted L) p) (rd 0%Q (z2_sorted L) q)
               rsmooth (iz1_of L icell1) iz2 (num_z2_per_z1 L)
               (num_z2_covering_steps L) (num_z2divs L) kz
               Hsz Hs1z HLz (proj1 Pz1) (proj2 Pz1) (proj1 Pz2)
               (proj2 Pz2) (proj1 Bz) (proj2 Bz) (Qle_trans _ _ _ Hrz Hcz)).
    + rewrite !Z_mod_plus_full, !Z.mod_small by lia. exact Hq.
  - apply Qltb_lt. rewrite (setup_rsmooth_squared _ _ _ _ _ _ _ _ _ _ Hsetup).
    unfold event_at, event_dist_sq, dist_sq. cbn.
    eapply Qle_lt_trans; [|exact Hd]. apply Qle_lteq. right.
    rewrite (axis_shift_image L (l_xperiod L) ix2 _ kx Hx Hkx).
    rewrite (axis_shift_image L (l_yperiod L) iy2 _ ky Hy Hky).
    rewrite (axis_shift_image L (l_zperiod L) iz2 _ kz Hz Hkz).
    ring.
Qed.

(** A run that returns has read the weight of every event inside the
    array of weights. *)
Lemma events_reads_inside (L : locals Q) (evs : list (event Q)) (st st' : accum Q)
    (e : event Q) :
  for_ evs (on_event (pair_block L)) st = inr st' -> e ∈ evs ->
  0 <= (ev_pq e).2 < Z.of_nat (length (w2_sorted L)).
Proof.
  intros Hrun He. destruct (for_inr_elem _ _ _ _ e Hrun He) as (u & u' & Hstep).
  destruct e as [[[[p x] y] z] q]. simpl in *.
  apply pair_block_inr in Hstep as (x2 & y2 & z2 & w2 & _ & _ & _ & Hw & _).
  apply at_inr in Hw as [Hq Hw%lookup_lt_Some]. lia.
Qed.

(** On a valid grid, a pair of which an image is within the radius has an
    event in the list, and the event passes the test. *)
Lemma within_event (dm : double_mesh Q)
    x1in y1in z1in x2in y2in z2in weights2in (rsmooth : Q) (first last : Z)
    (L : locals Q) icell1 p q :
  setup dm x1in y1in z1in x2in y2in z2in weights2in rsmooth = inr L ->
  indices_ok L first last = true ->
  window_fits L = true ->
  geometry_ok dm L rsmooth first last = true ->
  cells_cover L = true ->
  first <= icell1 < last ->
  in_cell (cell1_indices L) icell1 p ->
  0 <= q < Z.of_nat (length (w2_sorted L)) ->
  within L p q = true ->
  exists e, e ∈ events L first last /\ ev_pq e = (p, q) /\
    Qltb (event_dist_sq L e) (rsmooth_squared L) = true.
Proof.
  intros Hsetup Hok Hfit Hgeo Hcov Hc Hp Hq Hw.
  pose proof Hok as Hok'. unfold indices_ok in Hok'.
  repeat (apply andb_prop in Hok' as [Hok' ?]).
  repeat match goal with
         | Hb : (_ <=? _) = true |- _ => apply Z.leb_le in Hb
         | Hb : (_ <? _) = true |- _ => apply Z.ltb_lt in Hb
         | Hb : (_ =? _) = true |- _ => apply Z.eqb_eq in Hb
         end.
  unfold cells_cover in Hcov. apply andb_prop in Hcov as [C0%Z.eqb_eq C1%Z.eqb_eq].
  destruct (in_some_cell (cell2_indices L) q) as (kk & Hk0 & Hk1 & Hkk); [lia | lia |].
  destruct (cell_coordinates (num_x2divs L) (num_y2divs L) (num_z2divs L) kk)
    as (ix2 & iy2 & iz2 & Hx & Hy & Hz & Ekk); try assumption; [lia|].
  unfold within, close in Hw.
  apply existsb_exists in Hw as (kx & Hkx%list_elem_of_In%images_image & Hw).
  apply existsb_exists in Hw as (ky & Hky%list_elem_of_In%images_image & Hw).
  apply existsb_exists in Hw as (kz & Hkz%list_elem_of_In%images_image & Hw).
  apply Qltb_lt in Hw.
  destruct (image_in_radius_event dm _ _ _ _ _ _ _ rsmooth first last L icell1 p
              ix2 iy2 iz2 q kx ky kz Hsetup Hok Hfit Hgeo Hc Hp Hx Hy Hz) as [Hin Hpass];
    try assumption.
  { unfold icell2_of. now rewrite Ekk. }
  eexists. split; [exact Hin|]. split; [reflexivity | exact Hpass].
Qed.

Variable unsorting_indices : list Z -> list Z.

Lemma weight_sum_sorted (dm : double_mesh Q)
    x1in y1in z1in x2in y2in z2in weights2in (rsmooth : Q) (first last : Z)
    (L : locals Q) T W (i : nat) (k : Z) :
  setup dm x1in y1in z1in x2in y2in z2in weights2in rsmooth = inr L ->
  indices_ok L first last = true ->
  window_fits L = true ->
  geometry_ok dm L rsmooth first last = true ->
  cells_cover L = true ->
  (PBCs L =? 0) || (PBCs L =? 1) = true ->
  inertia_tensor_per_object_engine unsorting_indices dm x1in y1in z1in x2in y2in z2in
    weights2in rsmooth (first, last) = inr (T, W) ->
  unsorting_indices (idx_sorted (mesh1 dm)) !! i = Some k ->
  0 <= k ->
  (exists icell1, first <= icell1 < last /\ in_cell (cell1_indices L) icell1 k) ->
  exists w, W !! i = Some w /\ (w == weight_within L k)%Q.
Proof.
  intros HL Hok Hfit Hgeo Hcov Hpbc Hrun Hi Hk (icell1 & Hc & Hkc).
  apply engine_inr in Hrun as (L' & st & HL' & Hfold & _ & HW & _).
  rewrite HL in HL'. inversion HL'; subst L'. simpl in Hfold.
  destruct (np_take_lookup _ _ _ _ _ HW Hi) as (w & Hw & Ew).
  apply np_index_nonneg in Ew; [|exact Hk].
  exists w. split; [exact Hw|].
  pose proof (events_length _ _ _ _ Hfold) as [_ HlenW]. simpl in HlenW.
  rewrite length_replicate in HlenW.
  assert (H0 : sum_weights (accum_zero (length (x1_sorted L))) !! Z.to_nat k
               = Some 0%Q).
  { simpl. apply lookup_replicate_2. rewrite <- HlenW. eapply lookup_lt_Some, Ew. }
  destruct (events_sum_weights L _ _ _ _ _ Hfold H0) as (w' & Hw' & E).
  rewrite Ew in Hw'. inversion Hw'; subst w'. rewrite Z2Nat.id in E by exact Hk.
  rewrite E, Qplus_0_l. clear E H0.
  assert (Hpbc' : PBCs L = 0 \/ PBCs L = 1).
  { apply orb_prop in Hpbc as [H0%Z.eqb_eq | H1%Z.eqb_eq]; auto. }
  destruct (window_pairs_exactly_once L first last Hok Hfit) as (_ & Hnodup & _).
  set (evs := events L first last) in *.
  set (g := fun q => if within L k q then rd 0%Q (w2_sorted L) q else 0%Q).
  rewrite (Qsum_filter (fun e => (ev_pq e).1 = k)).
  2:{ intros e _ Hne. unfold contribution.
      destruct (Z.eqb_spec k (ev_pq e).1); [congruence | reflexivity]. }
  transitivity (Qsum (g <$> ((fun e => (ev_pq e).2)
                               <$> filter (fun e => (ev_pq e).1 = k) evs))).
  { rewrite <- list_fmap_compose. apply Qsum_ext.
    intros e [He1 He]%list_elem_of_filter.
    unfold contribution, g, compose. rewrite He1, Z.eqb_refl, andb_true_l.
    pose proof (events_reads_inside _ _ _ _ e Hfold He) as Hq.
    destruct (events_form L first last e He)
      as (c' & a & b & cc & p & q & Hc' & Hp & Hq' & ->).
    change (ev_pq (event_at L p q a b cc)) with (p, q) in *.
    cbn [fst snd] in *. subst p.
    destruct (Qltb (event_dist_sq L (event_at L k q a b cc)) (rsmooth_squared L))
      eqn:Et.
    - rewrite (event_passes_within L k q a b cc Hpbc' Et). reflexivity.
    - destruct (within L k q) eqn:Ewi; [|reflexivity]. exfalso.
      destruct (within_event dm _ _ _ _ _ _ _ rsmooth first last L icell1 k q
                  HL Hok Hfit Hgeo Hcov Hc Hkc Hq Ewi) as (e' & He' & Epq & Hpass).
      assert (e' = event_at L k q a b cc).
      { eapply (NoDup_fmap_inj_on ev_pq); [exact Hnodup | exact He' | exact He |].
        rewrite Epq. reflexivity. }
      subst e'. rewrite Hpass in Et. discriminate. }
  unfold weight_within. apply Qsum_sub.
  - apply NoDup_snd_filter, Hnodup.
  - apply NoDup_seqZ.
  - intros q (e & -> & [_ He]%list_elem_of_filter)%list_elem_of_fmap.
    apply elem_range. apply (events_reads_inside _ _ _ _ e Hfold He).
  - intros q Hq%elem_range Hnot. unfold g.
    destruct (within L k q) eqn:Ewi; [|reflexivity]. exfalso. apply Hnot.
    destruct (within_event dm _ _ _ _ _ _ _ rsmooth first last L icell1 k q
                HL Hok Hfit Hgeo Hcov Hc Hkc Hq Ewi) as (e' & He' & Epq & _).
    apply list_elem_of_fmap. exists e'. rewrite Epq. split; [reflexivity|].
    apply list_elem_of_filter. rewrite Epq. auto.
Qed.

(** X15.  On a valid grid of which the window of a cell is no wider than mesh 2,
    with [PBCs] 0 or 1: the weight sum that the engine returns for a point
    of a cell of the range is the sum of the weights of the points of
    sample 2 of which some image is closer to it than the radius.  [k] is
    the place of the point among the sorted points, [i] its place in the
    result. *)
Theorem weight_sum_is_weight_within (dm : double_mesh Q)
    x1in y1in z1in x2in y2in z2in weights2in (rsmooth : Q) (first last : Z)
    (L : locals Q) T W (i : nat) (k : Z) :
  setup dm x1in y1in z1in x2in y2in z2in weights2in rsmooth = inr L ->
  indices_ok L first last = true ->
  window_fits L = true ->
  geometry_ok dm L rsmooth first last = true ->
  cells_cover L = true ->
  (PBCs L =? 0) || (PBCs L =? 1) = true ->
  inertia_tensor_per_object_engine unsorting_indices dm x1in y1in z1in x2in y2in z2in
    weights2in rsmooth (first, last) = inr (T, W) ->
  unsorting_indices (idx_sorted (mesh1 dm)) !! i = Some k ->
  0 <= k ->
  (exists icell1, first <= icell1 < last /\ in_cell (cell1_indices L) icell1 k) ->
  exists w, W !! i = Some w /\ (w == weight_within L k)%Q.
Proof. apply weight_sum_sorted. Qed.

(** *** In the order of the arguments *)

Lemma np_take_rd {A} (d : A) (a b : list A) (idx : list Z) (q : nat) (j : Z) :
  np_take a idx = inr b -> idx !! q = Some j -> 0 <= j ->
  rd d b (Z.of_nat q) = rd d a j.
Proof.
  intros Hb Hq Hj. destruct (np_take_lookup _ _ _ _ _ Hb Hq) as (v & Hv & Ev).
  apply np_index_nonneg in Ev; [|exact Hj].
  unfold rd. now rewrite Nat2Z.id, Hv, Ev.
Qed.

Lemma fmap_rd_range (P : list Z) : rd 0 P <$> range 0 (Z.of_nat (length P)) = P.
Proof.
  apply list_eq. intros n. rewrite list_lookup_fmap. unfold range.
  destruct (P !! n) as [j|] eqn:E.
  - assert (Hn : (n < length P)%nat) by (eapply lookup_lt_Some, E).
    rewrite (lookup_seqZ_lt _ _ n) by lia. simpl.
    unfold rd. replace (Z.to_nat (0 + Z.of_nat n)) with n by lia. now rewrite E.
  - apply lookup_ge_None in E. rewrite lookup_seqZ_ge by lia. reflexivity.
Qed.

(** X16.  The weight sums in the order of the arguments.  On a valid grid of
    which the window of a cell is no wider than mesh 2, with [PBCs] 0 or 1,
    and for sorting indices of mesh 2 that are a permutation of 0, ...,
    n - 1: the weight sum at a place [i] of the result is the sum of the
    weights [weights2in[j]] of the points [(x2in[j], y2in[j], z2in[j])] of
    which some image is closer than the radius to the point [(x1in[i],
    y1in[i], z1in[i])].  The un-sorting indices are to send [i] to the
    place [k] of that point among the sorted points. *)
Theorem weight_sum_in_argument_order (dm : double_mesh Q)
    x1in y1in z1in x2in y2in z2in weights2in (rsmooth : Q) (first last : Z)
    (L : locals Q) T W (i : nat) (k : Z) :
  setup dm x1in y1in z1in x2in y2in z2in weights2in rsmooth = inr L ->
  indices_ok L first last = true ->
  window_fits L = true ->
  geometry_ok dm L rsmooth first last = true ->
  cells_cover L = true ->
  (PBCs L =? 0) || (PBCs L =? 1) = true ->
  idx_sorted (mesh2 dm) ≡ₚ seqZ 0 (Z.of_nat (length weights2in)) ->
  inertia_tensor_per_object_engine unsorting_indices dm x1in y1in z1in x2in y2in z2in
    weights2in rsmooth (first, last) = inr (T, W) ->
  unsorting_indices (idx_sorted (mesh1 dm)) !! i = Some k ->
  0 <= k ->
  idx_sorted (mesh1 dm) !! Z.to_nat k = Some (Z.of_nat i) ->
  (exists icell1, first <= icell1 < last /\ in_cell (cell1_indices L) icell1 k) ->
  exists w, W !! i = Some w /\
    (w == weight_close dm rsmooth (rd 0 x1in (Z.of_nat i)) (rd 0 y1in (Z.of_nat i))
            (rd 0 z1in (Z.of_nat i)) x2in y2in z2in weights2in)%Q.
Proof.
  intros HL Hok Hfit Hgeo Hcov Hpbc Hperm Hrun Hi Hk Hki Hcell.
  destruct (weight_sum_sorted dm _ _ _ _ _ _ _ rsmooth first last L T W i k
              HL Hok Hfit Hgeo Hcov Hpbc Hrun Hi Hk Hcell) as (w & Hw & E).
  exists w. split; [exact Hw|]. rewrite E. clear E.
  apply setup_inr in HL
    as ((Hx1 & Hy1 & Hz1 & Hx2 & Hy2 & Hz2 & Hw2) & _
        & (Hrsq & Hpx & Hpy & Hpz & Hpb) & _ & _).
  pose proof (Permutation_length Hperm) as Hlen. rewrite length_seqZ in Hlen.
  pose proof (np_take_length _ _ _ Hw2) as Hlenw.
  set (h := fun j =>
              if close (_PBCs dm) (xperiod dm) (yperiod dm) (zperiod dm)
                   (rsmooth * rsmooth)
                   (rd 0%Q x1in (Z.of_nat i)) (rd 0%Q y1in (Z.of_nat i))
                   (rd 0%Q z1in (Z.of_nat i))
                   (rd 0%Q x2in j) (rd 0%Q y2in j) (rd 0%Q z2in j)
              then rd 0%Q weights2in j else 0%Q).
  transitivity (Qsum (h <$> idx_sorted (mesh2 dm))).
  - rewrite <- (fmap_rd_range (idx_sorted (mesh2 dm))) at 1.
    rewrite <- list_fmap_compose. unfold weight_within.
    rewrite Hlenw. apply Qsum_ext. intros q [Hq0 Hq1]%elem_range.
    destruct (lookup_lt_is_Some_2 (idx_sorted (mesh2 dm)) (Z.to_nat q)) as [j Hj]; [lia|].
    assert (Hj0 : 0 <= j).
    { assert (Hin : j ∈ seqZ 0 (Z.of_nat (length weights2in))).
      { rewrite <- Hperm. eapply list_elem_of_lookup_2, Hj. }
      apply elem_of_seqZ in Hin. lia. }
    assert (Erd : rd 0 (idx_sorted (mesh2 dm)) q = j) by (unfold rd; now rewrite Hj).
    unfold compose, h, within. rewrite Erd.
    rewrite <- (Z2Nat.id q) by lia.
    rewrite (np_take_rd 0%Q _ _ _ _ _ Hx2 Hj Hj0), (np_take_rd 0%Q _ _ _ _ _ Hy2 Hj Hj0),
      (np_take_rd 0%Q _ _ _ _ _ Hz2 Hj Hj0), (np_take_rd 0%Q _ _ _ _ _ Hw2 Hj Hj0).
    rewrite <- (Z2Nat.id k) by lia.
    rewrite (np_take_rd 0%Q _ _ _ _ _ Hx1 Hki ltac:(lia)),
      (np_take_rd 0%Q _ _ _ _ _ Hy1 Hki ltac:(lia)),
      (np_take_rd 0%Q _ _ _ _ _ Hz1 Hki ltac:(lia)).
    rewrite Hrsq, Hpx, Hpy, Hpz, Hpb. reflexivity.
  - unfold weight_close, range. rewrite Z.sub_0_r.
    apply Qsum_Permutation, fmap_Permutation, Hperm.
Qed.

(** *** The tensors *)

Lemma entry_add_products (a b : axis) xx yy zz xy xz yz (t : tensor Q) :
  entry a b (add_products xx yy zz xy xz yz t)
  = (entry a b t
     + entry a b {| t00 := xx; t01 := xy; t02 := xz; t10 := xy; t11 := yy; t12 := yz;
                    t20 := xz; t21 := yz; t22 := zz |})%Q.
Proof. destruct a, b; reflexivity. Qed.

Lemma entry_tensor_sum (a b : axis) (l : list (tensor Q)) :
  entry a b (tensor_sum l) = Qsum (entry a b <$> l).
Proof.
  induction l as [|t l IH]; [destruct a, b; reflexivity|].
  change (Qsum (entry a b <$> t :: l))
    with (entry a b t + Qsum (entry a b <$> l))%Q.
  rewrite <- IH. destruct a, b; reflexivity.
Qed.

Lemma entry_pair_products (a b : axis) (d d' : Q * Q * Q) (w : Q) :
  (d.1.1 == d'.1.1)%Q -> (d.1.2 == d'.1.2)%Q -> (d.2 == d'.2)%Q ->
  (entry a b (pair_products d w) == entry a b (pair_products d' w))%Q.
Proof.
  destruct d as [[dx dy] dz], d' as [[dx' dy'] dz']. cbn [fst snd]. intros Ex Ey Ez.
  destruct a, b; unfold entry, pair_products;
    cbn [t00 t01 t02 t10 t11 t12 t20 t21 t22]; rewrite ?Ex, ?Ey, ?Ez; reflexivity.
Qed.

(** The entry [(a, b)] of the tensor of the point [p] after a run over a
    list of events: what it was, plus the contributions of the events. *)
Lemma events_sum_entry (L : locals Q) (a b : axis) (evs : list (event Q))
    (st st' : accum Q) (p : nat) (t : tensor Q) :
  for_ evs (on_event (pair_block L)) st = inr st' ->
  inertia_tensor st !! p = Some t ->
  exists t', inertia_tensor st' !! p = Some t' /\
    (entry a b t' == entry a b t + Qsum (entry_contribution L a b (Z.of_nat p) <$> evs))%Q.
Proof.
  revert st t. induction evs as [|[[[[p0 x] y] z] q] evs IH]; intros st t Hrun Ht;
    simpl in Hrun.
  - inversion Hrun; subst st'. exists t. split; [exact Ht|]. simpl. ring.
  - apply bind_inr in Hrun as (st1 & Hstep & Hrun).
    assert (Ht1 : exists t1, inertia_tensor st1 !! p = Some t1 /\
              (entry a b t1
               == entry a b t + entry_contribution L a b (Z.of_nat p) (p0, x, y, z, q))%Q).
    { apply pair_block_inr in Hstep
        as (x2 & y2 & z2 & w2 & Hx & Hy & Hz & Hw & Hcase).
      assert (Et : Qltb (event_dist_sq L (p0, x, y, z, q)) (rsmooth_squared L)
                   = (dist_sq (x - x2) (y - y2) (z - z2) <? rsmooth_squared L)%f64).
      { unfold event_dist_sq. cbv beta iota.
        now rewrite (at_rd f_zero _ _ _ Hx), (at_rd f_zero _ _ _ Hy),
          (at_rd f_zero _ _ _ Hz). }
      assert (Es : event_separation L (p0, x, y, z, q)
                   = ((x - x2)%Q, (y - y2)%Q, (z - z2)%Q)).
      { unfold event_separation. cbv beta iota.
        now rewrite (at_rd 0%Q _ _ _ Hx), (at_rd 0%Q _ _ _ Hy), (at_rd 0%Q _ _ _ Hz). }
      unfold entry_contribution. rewrite Et, Es. unfold ev_pq. cbv beta iota.
      cbn [fst snd]. rewrite (at_rd 0%Q _ _ _ Hw).
      destruct Hcase as [[-> ->] | (-> & t0 & s0 & [Hp0 Ht0]%at_inr & _ & ->)].
      - exists t. split; [exact Ht|]. rewrite andb_false_r. ring.
      - rewrite andb_true_r. cbn [inertia_tensor].
        destruct (Z.eqb_spec (Z.of_nat p) p0) as [E|E].
        + subst p0. rewrite Nat2Z.id in *. rewrite Ht in Ht0. inversion Ht0; subst t0.
          eexists. split; [apply list_lookup_insert_eq; eapply lookup_lt_Some, Ht|].
          rewrite entry_add_products. reflexivity.
        + exists t. split; [|ring].
          rewrite list_lookup_insert_ne by lia. exact Ht. }
    destruct Ht1 as (t1 & Ht1 & E1).
    destruct (IH st1 t1 Hrun Ht1) as (t' & Ht' & E').
    exists t'. split; [exact Ht'|]. simpl. rewrite E', E1.
    symmetry. apply Qplus_assoc.
Qed.

Lemma elem_separations (pbc : Z) (px py pz x1 y1 z1 x2 y2 z2 : Q) (d : Q * Q * Q) :
  d ∈ separations pbc px py pz x1 y1 z1 x2 y2 z2 <->
  exists kx ky kz, kx ∈ images_of pbc /\ ky ∈ images_of pbc /\ kz ∈ images_of pbc /\
    d = ((x1 - (x2 + inject_Z kx * px))%Q, (y1 - (y2 + inject_Z ky * py))%Q,
         (z1 - (z2 + inject_Z kz * pz))%Q).
Proof.
  unfold separations. split.
  - intros (kx & Hd & Hkx)%list_elem_of_bind.
    apply list_elem_of_bind in Hd as (ky & Hd & Hky).
    apply list_elem_of_bind in Hd as (kz & Hd & Hkz).
    apply list_elem_of_singleton in Hd. eauto 8.
  - intros (kx & ky & kz & Hkx & Hky & Hkz & ->).
    apply list_elem_of_bind. exists kx. split; [|exact Hkx].
    apply list_elem_of_bind. exists ky. split; [|exact Hky].
    apply list_elem_of_bind. exists kz. split; [|exact Hkz].
    now apply list_elem_of_singleton.
Qed.

(** [close] says whether [close_separation] finds a separation. *)
Lemma close_separation_Some (pbc : Z) (px py pz rsq x1 y1 z1 x2 y2 z2 : Q) :
  close pbc px py pz rsq x1 y1 z1 x2 y2 z2 = true ->
  exists d, close_separation pbc px py pz rsq x1 y1 z1 x2 y2 z2 = Some d.
Proof.
  unfold close, close_separation. intros Hc.
  apply existsb_exists in Hc as (kx & Hkx%list_elem_of_In & Hc).
  apply existsb_exists in Hc as (ky & Hky%list_elem_of_In & Hc).
  apply existsb_exists in Hc as (kz & Hkz%list_elem_of_In & Hc).
  destruct (find _ _) as [d|] eqn:E; [eauto|]. exfalso.
  pose proof (find_none _ _ E
                ((x1 - (x2 + inject_Z kx * px))%Q, (y1 - (y2 + inject_Z ky * py))%Q,
                 (z1 - (z2 + inject_Z kz * pz))%Q)) as Hn.
  cbn [fst snd] in Hn. rewrite Hn in Hc; [discriminate|].
  apply list_elem_of_In, elem_separations. eauto 8.
Qed.

Lemma close_separation_close (pbc : Z) (px py pz rsq x1 y1 z1 x2 y2 z2 : Q)
    (d : Q * Q * Q) :
  close_separation pbc px py pz rsq x1 y1 z1 x2 y2 z2 = Some d ->
  close pbc px py pz rsq x1 y1 z1 x2 y2 z2 = true /\
  (dist_sq d.1.1 d.1.2 d.2 < rsq)%Q /\
  exists kx ky kz, kx ∈ images_of pbc /\ ky ∈ images_of pbc /\ kz ∈ images_of pbc /\
    d = ((x1 - (x2 + inject_Z kx * px))%Q, (y1 - (y2 + inject_Z ky * py))%Q,
         (z1 - (z2 + inject_Z kz * pz))%Q).
Proof.
  unfold close_separation. intros [Hin Hd]%find_some.
  apply list_elem_of_In, elem_separations in Hin
    as (kx & ky & kz & Hkx & Hky & Hkz & ->).
  cbn [fst snd] in Hd. split; [|split; [now apply Qltb_lt | eauto 8]].
  unfold close. apply existsb_exists. exists kx. split; [now apply list_elem_of_In|].
  apply existsb_exists. exists ky. split; [now apply list_elem_of_In|].
  apply existsb_exists. exists kz. split; [now apply list_elem_of_In | exact Hd].
Qed.

(** Along an axis whose period exceeds twice the radius, one image only is
    closer than the radius. *)
Lemma image_unique (x1 x2 period r : Q) (k k' : Z) :
  (2 * r < period)%Q ->
  (- r < x1 - (x2 + inject_Z k * period))%Q -> (x1 - (x2 + inject_Z k * period) < r)%Q ->
  (- r < x1 - (x2 + inject_Z k' * period))%Q -> (x1 - (x2 + inject_Z k' * period) < r)%Q ->
  k = k'.
Proof.
  intros Hp H1 H2 H3 H4.
  assert (Hpos : (0 < period)%Q) by lra.
  destruct (Z.lt_trichotomy k k') as [Hlt | [Heq | Hgt]]; [exfalso | exact Heq | exfalso].
  - assert (Hk : (inject_Z (k + 1) <= inject_Z k')%Q) by (rewrite <- Zle_Qle; lia).
    rewrite inject_Z_plus in Hk. change (inject_Z 1) with 1%Q in Hk.
    assert (Hm : (0 <= (inject_Z k' - inject_Z k - 1) * period)%Q)
      by (apply Qmult_le_0_compat; lra).
    lra.
  - assert (Hk : (inject_Z (k' + 1) <= inject_Z k)%Q) by (rewrite <- Zle_Qle; lia).
    rewrite inject_Z_plus in Hk. change (inject_Z 1) with 1%Q in Hk.
    assert (Hm : (0 <= (inject_Z k - inject_Z k' - 1) * period)%Q)
      by (apply Qmult_le_0_compat; lra).
    lra.
Qed.

(** On a valid grid with windows no wider than mesh 2, the period exceeds
    twice the radius on every axis. *)
Lemma period_exceeds_twice_radius (dm : double_mesh Q)
    x1in y1in z1in x2in y2in z2in weights2in (rsmooth : Q) (first last : Z)
    (L : locals Q) icell1 p :
  setup dm x1in y1in z1in x2in y2in z2in weights2in rsmooth = inr L ->
  window_fits L = true ->
  geometry_ok dm L rsmooth first last = true ->
  first <= icell1 < last ->
  in_cell (cell1_indices L) icell1 p ->
  (0 <= rsmooth)%Q /\ (2 * rsmooth < l_xperiod L)%Q /\ (2 * rsmooth < l_yperiod L)%Q /\
  (2 * rsmooth < l_zperiod L)%Q.
Proof.
  intros Hsetup Hfit Hgeo Hc Hp.
  unfold geometry_ok in Hgeo.
  apply andb_prop in Hgeo as [Hgeo Hp2].
  apply andb_prop in Hgeo as [Hgeo Hp1].
  apply andb_prop in Hgeo as [Hgeo Hr0%Qle_bool_iff].
  apply andb_prop in Hgeo as [Hgeo Haz].
  apply andb_prop in Hgeo as [Hax Hay].
  apply axis_ok_spec in Hax as (Hsx & Hs1x & HLx & Hrx).
  apply axis_ok_spec in Hay as (Hsy & Hs1y & HLy & Hry).
  apply axis_ok_spec in Haz as (Hsz & Hs1z & HLz & Hrz).
  destruct (setup_covering_steps _ _ _ _ _ _ _ _ _ _ Hsetup) as (Hcx & Hcy & Hcz).
  apply covering_steps_covers in Hcx; [|exact Hsx].
  apply covering_steps_covers in Hcy; [|exact Hsy].
  apply covering_steps_covers in Hcz; [|exact Hsz].
  destruct (points1_in_cells_spec dm L first last icell1 p Hp1 Hc Hp)
    as (Px1%in_slab_spec & Py1%in_slab_spec & Pz1%in_slab_spec).
  unfold window_fits in Hfit.
  apply andb_prop in Hfit as [[Hfx%Z.leb_le Hfy%Z.leb_le]%andb_prop Hfz%Z.leb_le].
  assert (Haxis : forall (s1 s2 period search x : Q) (ix ratio cov n2 : Z),
            (0 < s2)%Q -> (s1 == inject_Z ratio * s2)%Q ->
            (period == inject_Z n2 * s2)%Q -> (rsmooth <= search)%Q ->
            (search <= inject_Z cov * s2)%Q ->
            (inject_Z ix * s1 <= x)%Q -> (x < inject_Z (ix + 1) * s1)%Q ->
            ratio + 2 * cov <= n2 -> (2 * rsmooth < period)%Q).
  { intros s1 s2 period search x ix ratio cov n2 Hs2 Es1 Ep Hrs Hcov Hlo Hhi Hfits.
    rewrite inject_Z_plus in Hhi.
    assert (Hs1 : (0 < s1)%Q) by (change (inject_Z 1) with 1%Q in Hhi; lra).
    rewrite Zle_Qle in Hfits. rewrite inject_Z_plus, inject_Z_mult in Hfits.
    change (inject_Z 2) with 2%Q in Hfits.
    assert (Hm : (0 <= (inject_Z n2 - inject_Z ratio - 2 * inject_Z cov) * s2)%Q)
      by (apply Qmult_le_0_compat; lra).
    lra. }
  split; [exact Hr0|]. split; [|split].
  - exact (Haxis _ _ _ _ _ _ _ _ _ Hsx Hs1x HLx Hrx Hcx (proj1 Px1) (proj2 Px1) Hfx).
  - exact (Haxis _ _ _ _ _ _ _ _ _ Hsy Hs1y HLy Hry Hcy (proj1 Py1) (proj2 Py1) Hfy).
  - exact (Haxis _ _ _ _ _ _ _ _ _ Hsz Hs1z HLz Hrz Hcz (proj1 Pz1) (proj2 Pz1) Hfz).
Qed.

Lemma entry_tensor_zero (a b : axis) : entry a b tensor_zero = 0%Q.
Proof. destruct a, b; reflexivity. Qed.

(** The products that the innermost block adds for an event are those of
    the pair of the event. *)
Lemma entry_contribution_products (dm : double_mesh Q)
    x1in y1in z1in x2in y2in z2in weights2in (rsmooth : Q) (first last : Z)
    (L : locals Q) (st st' : accum Q) (a b : axis) icell1 k (e : event Q) :
  setup dm x1in y1in z1in x2in y2in z2in weights2in rsmooth = inr L ->
  indices_ok L first last = true ->
  window_fits L = true ->
  geometry_ok dm L rsmooth first last = true ->
  cells_cover L = true ->
  PBCs L = 0 \/ PBCs L = 1 ->
  for_ (events L first last) (on_event (pair_block L)) st = inr st' ->
  first <= icell1 < last ->
  in_cell (cell1_indices L) icell1 k ->
  e ∈ events L first last -> (ev_pq e).1 = k ->
  (entry_contribution L a b k e == entry a b (products_within L k (ev_pq e).2))%Q.
Proof.
  intros HL Hok Hfit Hgeo Hcov Hpbc Hfold Hc Hkc He He1.
  destruct (window_pairs_exactly_once L first last Hok Hfit) as (_ & Hnodup & _).
  pose proof (events_reads_inside _ _ _ _ e Hfold He) as Hq.
  destruct (events_form L first last e He)
    as (c' & a' & b' & cc & p & q & Hc' & Hp & Hq' & ->).
  change (ev_pq (event_at L p q a' b' cc)) with (p, q) in *.
  cbn [fst snd] in *. subst p.
  unfold entry_contribution.
  change (ev_pq (event_at L k q a' b' cc)) with (k, q). cbn [fst snd].
  rewrite Z.eqb_refl, andb_true_l. unfold products_within, separation_within.
  destruct (Qltb (event_dist_sq L (event_at L k q a' b' cc)) (rsmooth_squared L))
    eqn:Et.
  - pose proof (event_passes_within L k q a' b' cc Hpbc Et) as Hwi.
    destruct (close_separation_Some _ _ _ _ _ _ _ _ _ _ _ Hwi) as [d Hd].
    rewrite Hd.
    apply close_separation_close in Hd
      as (_ & Hdlt & kx' & ky' & kz' & Hkx' & Hky' & Hkz' & ->).
    cbn [fst snd] in Hdlt.
    destruct (axis_shift_in_images L (l_xperiod L) a' (num_x2divs L) Hpbc)
      as (kx & Hkx & Ex).
    destruct (axis_shift_in_images L (l_yperiod L) b' (num_y2divs L) Hpbc)
      as (ky & Hky & Ey).
    destruct (axis_shift_in_images L (l_zperiod L) cc (num_z2divs L) Hpbc)
      as (kz & Hkz & Ez).
    apply Qltb_lt in Et.
    assert (Helt : (dist_sq
                      (rd 0 (x1_sorted L) k - (rd 0 (x2_sorted L) q + inject_Z kx * l_xperiod L))
                      (rd 0 (y1_sorted L) k - (rd 0 (y2_sorted L) q + inject_Z ky * l_yperiod L))
                      (rd 0 (z1_sorted L) k - (rd 0 (z2_sorted L) q + inject_Z kz * l_zperiod L))
                    < rsmooth_squared L)%Q).
    { eapply Qle_lt_trans; [|exact Et]. apply Qle_lteq. right.
      unfold event_at, event_dist_sq, dist_sq. cbn. rewrite Ex, Ey, Ez. ring. }
    destruct (period_exceeds_twice_radius dm _ _ _ _ _ _ _ rsmooth first last L icell1 k
                HL Hfit Hgeo Hc Hkc) as (Hr0 & Hpx & Hpy & Hpz).
    rewrite (setup_rsmooth_squared _ _ _ _ _ _ _ _ _ _ HL) in Hdlt, Helt.
    unfold dist_sq in Hdlt, Helt. cbn in Hdlt, Helt.
    destruct (square_bound _ _ _ _ Hr0 Hdlt) as (Bx' & By' & Bz').
    destruct (square_bound _ _ _ _ Hr0 Helt) as (Bx & By & Bz).
    assert (kx = kx')
      by exact (image_unique _ _ _ _ _ _ Hpx (proj1 Bx) (proj2 Bx) (proj1 Bx') (proj2 Bx')).
    assert (ky = ky')
      by exact (image_unique _ _ _ _ _ _ Hpy (proj1 By) (proj2 By) (proj1 By') (proj2 By')).
    assert (kz = kz')
      by exact (image_unique _ _ _ _ _ _ Hpz (proj1 Bz) (proj2 Bz) (proj1 Bz') (proj2 Bz')).
    subst kx' ky' kz'.
    apply entry_pair_products; unfold event_at, event_separation; cbn;
      [rewrite Ex | rewrite Ey | rewrite Ez]; ring.
  - destruct (close_separation _ _ _ _ _ _ _ _ _ _ _) as [d|] eqn:Hd;
      [|now rewrite entry_tensor_zero].
    exfalso. apply close_separation_close in Hd as (Hwi & _).
    destruct (within_event dm _ _ _ _ _ _ _ rsmooth first last L icell1 k q
                HL Hok Hfit Hgeo Hcov Hc Hkc Hq Hwi) as (e' & He' & Epq & Hpass).
    assert (e' = event_at L k q a' b' cc).
    { eapply (NoDup_fmap_inj_on ev_pq); [exact Hnodup | exact He' | exact He |].
      rewrite Epq. reflexivity. }
    subst e'. rewrite Hpass in Et. discriminate.
Qed.

Lemma tensor_sorted (dm : double_mesh Q)
    x1in y1in z1in x2in y2in z2in weights2in (rsmooth : Q) (first last : Z)
    (L : locals Q) T W (i : nat) (k : Z) :
  setup dm x1in y1in z1in x2in y2in z2in weights2in rsmooth = inr L ->
  indices_ok L first last = true ->
  window_fits L = true ->
  geometry_ok dm L rsmooth first last = true ->
  cells_cover L = true ->
  (PBCs L =? 0) || (PBCs L =? 1) = true ->
  inertia_tensor_per_object_engine unsorting_indices dm x1in y1in z1in x2in y2in z2in
    weights2in rsmooth (first, last) = inr (T, W) ->
  unsorting_indices (idx_sorted (mesh1 dm)) !! i = Some k ->
  0 <= k ->
  (exists icell1, first <= icell1 < last /\ in_cell (cell1_indices L) icell1 k) ->
  exists t, T !! i = Some t /\
    forall a b, (entry a b t == entry a b (tensor_within L k))%Q.
Proof.
  intros HL Hok Hfit Hgeo Hcov Hpbc Hrun Hi Hk (icell1 & Hc & Hkc).
  apply engine_inr in Hrun as (L' & st & HL' & Hfold & _ & _ & HT).
  rewrite HL in HL'. inversion HL'; subst L'. simpl in Hfold.
  destruct (np_take_lookup _ _ _ _ _ HT Hi) as (t & Ht & Et).
  apply np_index_nonneg in Et; [|exact Hk].
  exists t. split; [exact Ht|]. intros a b.
  pose proof (events_length _ _ _ _ Hfold) as [HlenT _]. simpl in HlenT.
  rewrite length_replicate in HlenT.
  assert (H0 : inertia_tensor (accum_zero (F:=Q) (length (x1_sorted L))) !! Z.to_nat k
               = Some (tensor_zero (F:=Q))).
  { simpl. apply lookup_replicate_2. rewrite <- HlenT. eapply lookup_lt_Some, Et. }
  destruct (events_sum_entry L a b _ _ _ _ _ Hfold H0) as (t' & Ht' & E).
  rewrite Et in Ht'. inversion Ht'; subst t'. rewrite Z2Nat.id in E by exact Hk.
  rewrite E, entry_tensor_zero, Qplus_0_l. clear E H0.
  assert (Hpbc' : PBCs L = 0 \/ PBCs L = 1).
  { apply orb_prop in Hpbc as [H0%Z.eqb_eq | H1%Z.eqb_eq]; auto. }
  destruct (window_pairs_exactly_once L first last Hok Hfit) as (_ & Hnodup & _).
  unfold tensor_within. rewrite entry_tensor_sum, <- list_fmap_compose.
  set (g := entry a b ∘ products_within L k).
  rewrite (Qsum_filter (fun e => (ev_pq e).1 = k)).
  2:{ intros e _ Hne. unfold entry_contribution.
      destruct (Z.eqb_spec k (ev_pq e).1); [congruence | reflexivity]. }
  transitivity (Qsum (g <$> ((fun e => (ev_pq e).2)
                               <$> filter (fun e => (ev_pq e).1 = k)
                                     (events L first last)))).
  { rewrite <- list_fmap_compose. apply Qsum_ext.
    intros e [He1 He]%list_elem_of_filter. unfold g, compose.
    eapply entry_contribution_products; eauto. }
  apply Qsum_sub.
  - apply NoDup_snd_filter, Hnodup.
  - apply NoDup_seqZ.
  - intros q (e & -> & [_ He]%list_elem_of_filter)%list_elem_of_fmap.
    apply elem_range. apply (events_reads_inside _ _ _ _ e Hfold He).
  - intros q Hq%elem_range Hnot. unfold g, compose, products_within, separation_within.
    destruct (close_separation _ _ _ _ _ _ _ _ _ _ _) as [d|] eqn:Hd;
      [|now rewrite entry_tensor_zero].
    exfalso. apply Hnot. apply close_separation_close in Hd as (Hwi & _).
    destruct (within_event dm _ _ _ _ _ _ _ rsmooth first last L icell1 k q
                HL Hok Hfit Hgeo Hcov Hc Hkc Hq Hwi) as (e' & He' & Epq & _).
    apply list_elem_of_fmap. exists e'. rewrite Epq. split; [reflexivity|].
    apply list_elem_of_filter. rewrite Epq. auto.
Qed.

(** X17.  The tensors in the order of the arguments.  On a valid grid of which
    the window of a cell is no wider than mesh 2, with [PBCs] 0 or 1, and
    for sorting indices of mesh 2 that are a permutation of 0, ..., n - 1:
    the tensor at a place [i] of the result is, entry by entry, the sum
    over the points [(x2in[j], y2in[j], z2in[j])] of which an image is
    closer than the radius to the point [(x1in[i], y1in[i], z1in[i])], of
    the products of the components of the separation from that image,
    times [weights2in[j]].  The un-sorting indices are to send [i] to the
    place [k] of that point among the sorted points. *)
Theorem tensor_in_argument_order (dm : double_mesh Q)
    x1in y1in z1in x2in y2in z2in weights2in (rsmooth : Q) (first last : Z)
    (L : locals Q) T W (i : nat) (k : Z) :
  setup dm x1in y1in z1in x2in y2in z2in weights2in rsmooth = inr L ->
  indices_ok L first last = true ->
  window_fits L = true ->
  geometry_ok dm L rsmooth first last = true ->
  cells_cover L = true ->
  (PBCs L =? 0) || (PBCs L =? 1) = true ->
  idx_sorted (mesh2 dm) ≡ₚ seqZ 0 (Z.of_nat (length weights2in)) ->
  inertia_tensor_per_object_engine unsorting_indices dm x1in y1in z1in x2in y2in z2in
    weights2in rsmooth (first, last) = inr (T, W) ->
  unsorting_indices (idx_sorted (mesh1 dm)) !! i = Some k ->
  0 <= k ->
  idx_sorted (mesh1 dm) !! Z.to_nat k = Some (Z.of_nat i) ->
  (exists icell1, first <= icell1 < last /\ in_cell (cell1_indices L) icell1 k) ->
  exists t, T !! i = Some t /\
    forall a b,
      (entry a b t
       == entry a b (tensor_close dm rsmooth (rd 0 x1in (Z.of_nat i))
                       (rd 0 y1in (Z.of_nat i)) (rd 0 z1in (Z.of_nat i))
                       x2in y2in z2in weights2in))%Q.
Proof.
  intros HL Hok Hfit Hgeo Hcov Hpbc Hperm Hrun Hi Hk Hki Hcell.
  destruct (tensor_sorted dm _ _ _ _ _ _ _ rsmooth first last L T W i k
              HL Hok Hfit Hgeo Hcov Hpbc Hrun Hi Hk Hcell) as (t & Ht & E).
  exists t. split; [exact Ht|]. intros a b. rewrite E. clear E.
  apply setup_inr in HL
    as ((Hx1 & Hy1 & Hz1 & Hx2 & Hy2 & Hz2 & Hw2) & _
        & (Hrsq & Hpx & Hpy & Hpz & Hpb) & _ & _).
  pose proof (Permutation_length Hperm) as Hlen. rewrite length_seqZ in Hlen.
  pose proof (np_take_length _ _ _ Hw2) as Hlenw.
  set (h := fun j =>
              match close_separation (_PBCs dm) (xperiod dm) (yperiod dm) (zperiod dm)
                      (rsmooth * rsmooth)%Q
                      (rd 0%Q x1in (Z.of_nat i)) (rd 0%Q y1in (Z.of_nat i))
                      (rd 0%Q z1in (Z.of_nat i))
                      (rd 0%Q x2in j) (rd 0%Q y2in j) (rd 0%Q z2in j) with
              | Some d => pair_products d (rd 0%Q weights2in j)
              | None => tensor_zero
              end).
  unfold tensor_within, tensor_close. rewrite !entry_tensor_sum. fold h.
  transitivity (Qsum (entry a b <$> (h <$> idx_sorted (mesh2 dm)))).
  - rewrite <- (fmap_rd_range (idx_sorted (mesh2 dm))) at 1.
    rewrite <- !list_fmap_compose.
    rewrite Hlenw. apply Qsum_ext. intros q [Hq0 Hq1]%elem_range.
    destruct (lookup_lt_is_Some_2 (idx_sorted (mesh2 dm)) (Z.to_nat q)) as [j Hj]; [lia|].
    assert (Hj0 : 0 <= j).
    { assert (Hin : j ∈ seqZ 0 (Z.of_nat (length weights2in))).
      { rewrite <- Hperm. eapply list_elem_of_lookup_2, Hj. }
      apply elem_of_seqZ in Hin. lia. }
    assert (Erd : rd 0 (idx_sorted (mesh2 dm)) q = j) by (unfold rd; now rewrite Hj).
    unfold compose, h, products_within, separation_within. rewrite Erd.
    rewrite <- (Z2Nat.id q) by lia.
    rewrite (np_take_rd 0%Q _ _ _ _ _ Hx2 Hj Hj0), (np_take_rd 0%Q _ _ _ _ _ Hy2 Hj Hj0),
      (np_take_rd 0%Q _ _ _ _ _ Hz2 Hj Hj0), (np_take_rd 0%Q _ _ _ _ _ Hw2 Hj Hj0).
    rewrite <- (Z2Nat.id k) by lia.
    rewrite (np_take_rd 0%Q _ _ _ _ _ Hx1 Hki ltac:(lia)),
      (np_take_rd 0%Q _ _ _ _ _ Hy1 Hki ltac:(lia)),
      (np_take_rd 0%Q _ _ _ _ _ Hz1 Hki ltac:(lia)).
    rewrite Hrsq, Hpx, Hpy, Hpz, Hpb. reflexivity.
  - unfold range. rewrite Z.sub_0_r.
    apply Qsum_Permutation, fmap_Permutation, fmap_Permutation, Hperm.
Qed.

(** *** The engine against the sums over the pairs *)

Lemma Qsum_extract {A} `{EqDecision A} (g : A -> Q) (l : list A) (q : A) :
  NoDup l -> q ∈ l ->
  (Qsum (g <$> l) == g q + Qsum (g <$> filter (fun j => j <> q) l))%Q.
Proof.
  induction l as [|x l IH]; intros Hnd Hq.
  - inversion Hq.
  - apply NoDup_cons in Hnd as [Hx Hnd].
    rewrite fmap_cons. cbn [Qsum foldr]. fold (Qsum (g <$> l)).
    destruct (decide (x = q)) as [->|Hne].
    + rewrite filter_cons_False by (intros Hn; now apply Hn).
      apply Qplus_comp; [reflexivity|].
      apply Qsum_filter. intros j Hj Hn.
      destruct (decide (j = q)) as [->|Hjq]; [contradiction|].
      exfalso. apply Hn. exact Hjq.
    + rewrite filter_cons_True by exact Hne.
      rewrite fmap_cons. cbn [Qsum foldr].
      fold (Qsum (g <$> filter (fun j => j <> q) l)).
      apply elem_of_cons in Hq as [Hq|Hq]; [congruence|].
      rewrite (IH Hnd Hq). ring.
Qed.






(** C9, as the code has it.  In exact arithmetic, on a grid that is valid
    for the radius (as in [pairs_within_radius_counted_once]) and with a
    positive radius: when the point [q] of sample 2 has the coordinates of
    a point of sample 1 in a cell of the range, the weight sum that the
    engine returns for that point is the weight of [q] added to the sum
    over the other points of sample 2, and every entry of its tensor is
    the sum over the other points alone. *)
Theorem zero_separation_pair (dm : double_mesh Q)
    x1in y1in z1in x2in y2in z2in weights2in (rsmooth : Q) (first last : Z)
    (L : locals Q) T W (i : nat) (k q : Z) :
  setup dm x1in y1in z1in x2in y2in z2in weights2in rsmooth = inr L ->
  indices_ok L first last = true ->
  window_fits L = true ->
  geometry_ok dm L rsmooth first last = true ->
  cells_cover L = true ->
  (PBCs L =? 0) || (PBCs L =? 1) = true ->
  inertia_tensor_per_object_engine unsorting_indices dm x1in y1in z1in x2in y2in z2in
    weights2in rsmooth (first, last) = inr (T, W) ->
  unsorting_indices (idx_sorted (mesh1 dm)) !! i = Some k ->
  0 <= k ->
  (exists icell1, first <= icell1 < last /\ in_cell (cell1_indices L) icell1 k) ->
  (0 < rsmooth)%Q ->
  0 <= q < Z.of_nat (length (w2_sorted L)) ->
  (rd 0 (x1_sorted L) k == rd 0 (x2_sorted L) q)%Q ->
  (rd 0 (y1_sorted L) k == rd 0 (y2_sorted L) q)%Q ->
  (rd 0 (z1_sorted L) k == rd 0 (z2_sorted L) q)%Q ->
  exists t w, T !! i = Some t /\ W !! i = Some w /\
    (w == rd 0 (w2_sorted L) q + weight_within_others L k q)%Q /\
    forall a b, (entry a b t == entry a b (tensor_within_others L k q))%Q.
Proof.
  intros HL Hok Hfit Hgeo Hcov Hpbc Hrun Hi Hk Hcell Hr Hq Ex Ey Ez.
  destruct (weight_sum_sorted dm _ _ _ _ _ _ _ rsmooth first last L T W i k
              HL Hok Hfit Hgeo Hcov Hpbc Hrun Hi Hk Hcell) as (w & Hw & Ew).
  destruct (tensor_sorted dm _ _ _ _ _ _ _ rsmooth first last L T W i k
              HL Hok Hfit Hgeo Hcov Hpbc Hrun Hi Hk Hcell) as (t & Ht & Et).
  destruct Hcell as (icell1 & Hc & Hkc).
  destruct (period_exceeds_twice_radius dm _ _ _ _ _ _ _ rsmooth first last L icell1 k
              HL Hfit Hgeo Hc Hkc) as (Hr0 & Hpx & Hpy & Hpz).
  pose proof (setup_rsmooth_squared _ _ _ _ _ _ _ _ _ _ HL) as Hrsq. cbn in Hrsq.
  assert (H0 : 0 ∈ images_of (PBCs L)).
  { unfold images_of. destruct (PBCs L =? 1); repeat constructor. }
  assert (Hnd : NoDup (range 0 (Z.of_nat (length (w2_sorted L))))) by apply NoDup_seqZ.
  assert (Hqin : q ∈ range 0 (Z.of_nat (length (w2_sorted L)))) by (apply elem_range; lia).
  assert (Hwithin : within L k q = true).
  { unfold within, close.
    apply existsb_exists. exists 0. split; [now apply list_elem_of_In|].
    apply existsb_exists. exists 0. split; [now apply list_elem_of_In|].
    apply existsb_exists. exists 0. split; [now apply list_elem_of_In|].
    apply Qltb_lt. rewrite Hrsq. unfold dist_sq. cbn.
    assert (Dx : (rd 0 (x1_sorted L) k - (rd 0 (x2_sorted L) q + inject_Z 0 * l_xperiod L)
                  == 0)%Q) by (rewrite Ex; ring).
    assert (Dy : (rd 0 (y1_sorted L) k - (rd 0 (y2_sorted L) q + inject_Z 0 * l_yperiod L)
                  == 0)%Q) by (rewrite Ey; ring).
    assert (Dz : (rd 0 (z1_sorted L) k - (rd 0 (z2_sorted L) q + inject_Z 0 * l_zperiod L)
                  == 0)%Q) by (rewrite Ez; ring).
    rewrite Dx, Dy, Dz. nra. }
  exists t, w. split; [exact Ht|]. split; [exact Hw|]. split.
  - rewrite Ew. unfold weight_within, weight_within_others, others.
    rewrite (Qsum_extract _ _ q Hnd Hqin). cbn beta. rewrite Hwithin. reflexivity.
  - intros a b. rewrite Et. unfold tensor_within, tensor_within_others, others.
    rewrite !entry_tensor_sum, <- !list_fmap_compose.
    rewrite (Qsum_extract _ _ q Hnd Hqin).
    assert (Hz : ((entry a b ∘ products_within L k) q == 0)%Q).
    { unfold compose, products_within, separation_within.
      destruct (close_separation _ _ _ _ _ _ _ _ _ _ _) as [d|] eqn:Ed;
        [|destruct a, b; reflexivity].
      apply close_separation_close in Ed
        as (_ & Hd & kx & ky & kz & Hkx & Hky & Hkz & ->).
      cbn [fst snd] in Hd. rewrite Hrsq in Hd.
      destruct (square_bound _ _ _ _ Hr0 Hd) as (Bx & By & Bz).
      assert (Hin : forall x1 x2 p, (x1 == x2)%Q ->
                 (- rsmooth < x1 - (x2 + inject_Z 0 * p) /\
                  x1 - (x2 + inject_Z 0 * p) < rsmooth)%Q).
      { intros x1 x2 p E.
        assert (D : (x1 - (x2 + inject_Z 0 * p) == 0)%Q) by (rewrite E; ring).
        rewrite D. split; lra. }
      pose proof (image_unique _ _ _ _ _ _ Hpx (proj1 Bx) (proj2 Bx)
                    (proj1 (Hin _ _ _ Ex)) (proj2 (Hin _ _ _ Ex))) as ->.
      pose proof (image_unique _ _ _ _ _ _ Hpy (proj1 By) (proj2 By)
                    (proj1 (Hin _ _ _ Ey)) (proj2 (Hin _ _ _ Ey))) as ->.
      pose proof (image_unique _ _ _ _ _ _ Hpz (proj1 Bz) (proj2 Bz)
                    (proj1 (Hin _ _ _ Ez)) (proj2 (Hin _ _ _ Ez))) as ->.
      rewrite (entry_pair_products a b _ (0%Q, 0%Q, 0%Q));
        [destruct a, b; cbn; ring | cbn; rewrite Ex; ring | cbn; rewrite Ey; ring
         | cbn; rewrite Ez; ring]. }
    rewrite Hz. ring.
Qed.

End PairByPairFacts.

(** * The marking functions, in exact reals *)

Section MarkingFacts.

Import Reals Lra.
Local Open Scope R_scope.

Lemma Rltb_true (a b : R) : a < b -> Rltb a b = true.
Proof. intros Hab. unfold Rltb. now destruct (Rlt_dec a b). Qed.

Lemma Rleb_true (a b : R) : a <= b -> Rleb a b = true.
Proof. intros Hab. unfold Rleb. now destruct (Rle_dec a b). Qed.

Lemma Rleb_false (a b : R) : b < a -> Rleb a b = false.
Proof. intros Hab. unfold Rleb. destruct (Rle_dec a b); [lra | reflexivity]. Qed.

Lemma cos_2_acos (c : R) : -1 <= c <= 1 -> cos (2 * acos c) = 2 * c * c - 1.
Proof. intros Hc. now rewrite cos_2a_cos, cos_acos. Qed.

Lemma sin_2_acos (c : R) : -1 <= c <= 1 -> sin (2 * acos c) = 2 * sqrt (1 - c * c) * c.
Proof. intros Hc. rewrite sin_2a, cos_acos, sin_acos by exact Hc. reflexivity. Qed.

(** X18.  What [gamma_plus_func] returns for a pair at a separation that is not
    zero, by the cosine [c] of the angle between the orientation
    [(w1[0], w1[1])] and the separation: 0 for [c >= 1], [w1[2]] for
    [c <= -1], and [w1[2] * w2[2] * (2 c^2 - 1)], the cosine of twice the
    angle, in between. *)
Theorem gamma_plus_func_cases (a0 a1 a2 b0 b1 b2 x1 y1 x2 y2 d c : R) :
  0 < d ->
  c = (a0 * (x2 - x1) + a1 * (y2 - y1)) / sqrt d ->
  (1 <= c -> gamma_plus_func [a0; a1; a2] [b0; b1; b2] x1 y1 x2 y2 d = inr 0) /\
  (c <= -1 -> gamma_plus_func [a0; a1; a2] [b0; b1; b2] x1 y1 x2 y2 d = inr a2) /\
  (-1 < c < 1 ->
   gamma_plus_func [a0; a1; a2] [b0; b1; b2] x1 y1 x2 y2 d
   = inr (a2 * b2 * (2 * c * c - 1))).
Proof.
  intros Hd ->. unfold gamma_plus_func. simpl. rewrite (Rltb_true _ _ Hd).
  repeat split; intros Hc.
  - now rewrite (Rleb_true _ _ Hc).
  - rewrite Rleb_false by lra. now rewrite Rleb_true by lra.
  - rewrite !Rleb_false by lra. now rewrite cos_2_acos by lra.
Qed.

(** X19.  What [gamma_cross_func] returns for a pair at a separation that is not
    zero and a cosine [c] in [-1, 1]: [w1[2] * w2[2] * 2 sqrt(1 - c^2) c],
    the sine of twice the angle. *)
Theorem gamma_cross_func_value (a0 a1 a2 b0 b1 b2 x1 y1 x2 y2 d c : R) :
  0 < d ->
  c = (a0 * (x2 - x1) + a1 * (y2 - y1)) / sqrt d ->
  -1 <= c <= 1 ->
  gamma_cross_func [a0; a1; a2] [b0; b1; b2] x1 y1 x2 y2 d
  = inr (a2 * b2 * (2 * sqrt (1 - c * c) * c)).
Proof.
  intros Hd -> Hc. unfold gamma_cross_func. simpl. rewrite (Rltb_true _ _ Hd).
  now rewrite sin_2_acos.
Qed.

(** X20.  For a cosine strictly between -1 and 1 the two marks are the two
    components of a vector of length [|w1[2] * w2[2]|]. *)
Theorem gamma_marks_norm (a0 a1 a2 b0 b1 b2 x1 y1 x2 y2 d c : R) :
  0 < d ->
  c = (a0 * (x2 - x1) + a1 * (y2 - y1)) / sqrt d ->
  -1 < c < 1 ->
  exists gp gc : R,
    gamma_plus_func [a0; a1; a2] [b0; b1; b2] x1 y1 x2 y2 d = inr gp /\
    gamma_cross_func [a0; a1; a2] [b0; b1; b2] x1 y1 x2 y2 d = inr gc /\
    gp * gp + gc * gc = (a2 * b2) * (a2 * b2).
Proof.
  intros Hd -> Hc. unfold gamma_plus_func, gamma_cross_func. simpl.
  rewrite (Rltb_true _ _ Hd), !Rleb_false by lra.
  do 2 eexists. split; [reflexivity|]. split; [reflexivity|].
  rewrite cos_2_acos, sin_2_acos by lra.
  set (c := (a0 * (x2 - x1) + a1 * (y2 - y1)) / sqrt d) in *.
  assert (Hs : sqrt (1 - c * c) * sqrt (1 - c * c) = 1 - c * c)
    by (apply sqrt_sqrt; nra).
  set (s := sqrt (1 - c * c)) in *.
  replace (a2 * b2 * (2 * c * c - 1) * (a2 * b2 * (2 * c * c - 1))
           + a2 * b2 * (2 * s * c) * (a2 * b2 * (2 * s * c)))
    with (a2 * b2 * (a2 * b2)
          * ((2 * c * c - 1) * (2 * c * c - 1) + 4 * c * c * (s * s))) by ring.
  rewrite Hs. ring.
Qed.

(** X21.  Exchanging the two positions reverses the separation: the cosine
    changes its sign, [gamma_plus_func] returns the same and
    [gamma_cross_func] the opposite. *)
Theorem gamma_marks_exchange (a0 a1 a2 b0 b1 b2 x1 y1 x2 y2 d c : R) :
  0 < d ->
  c = (a0 * (x2 - x1) + a1 * (y2 - y1)) / sqrt d ->
  -1 < c < 1 ->
  exists gp gc : R,
    gamma_plus_func [a0; a1; a2] [b0; b1; b2] x1 y1 x2 y2 d = inr gp /\
    gamma_plus_func [a0; a1; a2] [b0; b1; b2] x2 y2 x1 y1 d = inr gp /\
    gamma_cross_func [a0; a1; a2] [b0; b1; b2] x1 y1 x2 y2 d = inr gc /\
    gamma_cross_func [a0; a1; a2] [b0; b1; b2] x2 y2 x1 y1 d = inr (- gc).
Proof.
  intros Hd Ec Hc.
  assert (Ec' : (a0 * (x1 - x2) + a1 * (y1 - y2)) / sqrt d = - c).
  { rewrite Ec. unfold Rdiv. ring. }
  unfold gamma_plus_func, gamma_cross_func. simpl.
  rewrite (Rltb_true _ _ Hd), Ec', <- Ec, !Rleb_false by lra.
  do 2 eexists. split; [reflexivity|].
  rewrite !cos_2_acos, !sin_2_acos by lra.
  split; [f_equal; ring|]. split; [reflexivity|].
  f_equal. replace (- c * - c) with (c * c) by ring. ring.
Qed.

End MarkingFacts.

(** * Concrete runs *)

Import Fixtures.

(** ** Laws of binary64 and of the integers *)

Lemma float_ltb_irrefl (x : float) : PrimFloat.ltb x x = false.
Proof.
  rewrite ltb_spec. unfold SFltb.
  destruct (Prim2SF x) as [s|s| |s m e]; simpl; try destruct s; try reflexivity;
    rewrite ?Z.compare_refl, ?Pos.compare_refl; simpl;
    rewrite ?Pos.compare_refl; reflexivity.
Qed.

Lemma float_mul_opp_opp (x : float) :
  PrimFloat.mul (PrimFloat.opp x) (PrimFloat.opp x) = PrimFloat.mul x x.
Proof.
  apply Prim2SF_inj. rewrite !mul_spec, !opp_spec.
  destruct (Prim2SF x) as [s|s| |s m e]; simpl; try destruct s; reflexivity.
Qed.

Lemma Z_square_le_mono (x y : Z) : 0 <= x -> x <= y -> x * x <= y * y.
Proof. nia. Qed.

Lemma Z_ltb_le_trans (x y z : Z) : (x <? y) = true -> y <= z -> (x <? z) = true.
Proof. rewrite !Z.ltb_lt. lia. Qed.

(** ** The fixtures *)

Example pts_locals_Z pbc r :
  fits_c_int pbc = true -> pts_locals id pbc r = inr (pts_L id pbc r).
Proof.
  intros Hp. unfold pts_locals, setup.
  change (_PBCs (pts_mesh id pbc)) with pbc. now rewrite (to_c_int_returns _ Hp).
Qed.

Example pts_locals_binary64 r : pts_locals f_int 1 r = inr (pts_L f_int 1 r).
Proof. reflexivity. Qed.

Example pts_run_Z :
  pts_run id 1 2 (0, 27) = inr ([pts_tensor_333 id; pts_tensor_111 id], [3; 1]).
Proof. vm_compute. reflexivity. Qed.

Example pts_run_binary64 :
  pts_run f_int 1 (f_int 2) (0, 27)
  = inr ([pts_tensor_333 f_int; pts_tensor_111 f_int], [f_int 3; f_int 1]).
Proof. vm_compute. reflexivity. Qed.

(** The scenario of the spec: one point of sample 1 at the origin, one of
    sample 2 at (1,0,0) with weight 2, radius 2, no periodicity, one cell.
    The windows span three cells on every axis where the grid has one, so
    the one cell is visited 27 times. *)
Example single_cell_scenario :
  inertia_tensor_per_object_engine inverse_permutation
    {| mesh1 := one_point_mesh 1 1 1 0 10 10 10;
       mesh2 := one_point_mesh 1 1 1 0 10 10 10;
       xperiod := 10; yperiod := 10; zperiod := 10;
       search_xlength := 2; search_ylength := 2; search_zlength := 2;
       _PBCs := 0 |}
    [0] [0] [0] [1] [0] [0] [2] 2 (0, 1)
  = inr ([{| t00 := 54; t01 := 0; t02 := 0;
             t10 := 0; t11 := 0; t12 := 0;
             t20 := 0; t21 := 0; t22 := 0 |}], [54]).
Proof. vm_compute. reflexivity. Qed.

(** ** C1 *)



(** ** C2 *)



(** ** C3 *)

(** C3 fails.  With the radius -2 the engine returns, on binary64 and on
    the integers, what it returns with the radius 2. *)
Lemma negative_radius_returns :
  PrimFloat.ltb (f_int (-2)) (f_int 0) = true
  /\ pts_run f_int 1 (f_int (-2)) (0, 27)
     = inr ([pts_tensor_333 f_int; pts_tensor_111 f_int], [f_int 3; f_int 1])
  /\ pts_run id 1 (-2) (0, 27) = inr ([pts_tensor_333 id; pts_tensor_111 id], [3; 1]).
Proof. repeat split; vm_compute; reflexivity. Qed.

Lemma negative_radius_is_squared_witness :
  (forall x : float, f_mul (f_neg x) (f_neg x) = f_mul x x) /\
  pts_run f_int 1 (f_neg (f_int 2)) (0, 27) = pts_run f_int 1 (f_int 2) (0, 27).
Proof.
  split; [exact float_mul_opp_opp|].
  apply (negative_radius_is_squared (F:=float) (H:=binary64) inverse_permutation float_mul_opp_opp).
Defined.

(** ** C4 *)

(** On binary64: the point (1,1,1), moved by one period to x = 7, and the
    point (5,1,1) are at distance 2 = [rsmooth]. *)
Lemma pair_at_radius_excluded_witness :
  (forall x : float, f_ltb x x = false) /\
  dist_sq (f_sub (f_int 7) (f_int 5)) (f_sub (f_int 1) (f_int 1))
    (f_sub (f_int 1) (f_int 1)) = f_mul (f_int 2) (f_int 2) /\
  pair_block (pts_L f_int 1 (f_int 2)) 0 (f_int 7) (f_int 1) (f_int 1) 1
    (accum_zero 2) = inr (accum_zero 2).
Proof.
  split; [exact float_ltb_irrefl|]. split; [vm_compute; reflexivity|].
  apply (pair_at_radius_excluded (F:=float) (H:=binary64) float_ltb_irrefl (pts_L f_int 1 (f_int 2))
           (f_int 2) 0 (f_int 7) (f_int 1) (f_int 1) 1 (accum_zero 2)
           (f_int 5) (f_int 1) (f_int 1) (f_int 2));
    vm_compute; reflexivity.
Defined.

(** ** C5 *)

(** C5.  The periodic wrap scenario, on a grid of 5 x 5 x 5 cells of size
    2.  In exact arithmetic: the one pair is handed to the innermost block
    once, with the point of sample 1 moved by one period to x = 21/2; its
    separation from x = 48/5 is 9/10 (the separation 1/2 - 48/5 without the
    shift is not within the radius); the tensor has 81/100 at [0][0] and
    the weight sum is 1.  On binary64 the weight sum is 1.0 too. *)
Theorem periodic_wrap_scenario :
  events_of wrap_locals_Q 0 125 = inr [(0, (21 # 2)%Q, 0%Q, 0%Q, 0)]
  /\ ((21 # 2) - (48 # 5) = 9 # 10)%Q
  /\ Qltb (dist_sq ((1 # 2) - (48 # 5))%Q 0%Q 0%Q) (1 * 1)%Q = false
  /\ tensors wrap_run_Q
     = inr [{| t00 := 81 # 100; t01 := 0 # 10; t02 := 0 # 10;
               t10 := 0 # 10; t11 := 0; t12 := 0;
               t20 := 0 # 10; t21 := 0; t22 := 0 |}]%Q
  /\ weight_sums wrap_run_Q = inr [1%Q]
  /\ weight_sums wrap_run_binary64 = inr [f_int 1].
Proof. repeat split; vm_compute; reflexivity. Qed.

(** ** C6 *)

Lemma engine_tensor_symmetric_witness :
  pts_run f_int 1 (f_int 2) (0, 27)
  = inr ([pts_tensor_333 f_int; pts_tensor_111 f_int], [f_int 3; f_int 1]) /\
  [pts_tensor_333 f_int; pts_tensor_111 f_int] !! 0%nat = Some (pts_tensor_333 f_int) /\
  (t01 (pts_tensor_333 f_int) = t10 (pts_tensor_333 f_int) /\
   t02 (pts_tensor_333 f_int) = t20 (pts_tensor_333 f_int) /\
   t12 (pts_tensor_333 f_int) = t21 (pts_tensor_333 f_int)).
Proof.
  split; [vm_compute; reflexivity|]. split; [reflexivity|].
  apply (engine_tensor_symmetric (F:=float) (H:=binary64) inverse_permutation (pts_mesh f_int 1)
           [f_int 3; f_int 1] [f_int 3; f_int 1] [f_int 3; f_int 1]
           [f_int 5; f_int 4; f_int 2] [f_int 1; f_int 4; f_int 1]
           [f_int 1; f_int 4; f_int 1] [f_int 2; f_int 3; f_int 1]
           (f_int 2) (0, 27)
           [pts_tensor_333 f_int; pts_tensor_111 f_int] [f_int 3; f_int 1])
    with (i := 0%nat);
    [vm_compute; reflexivity | reflexivity].
Defined.

(** ** C7 *)



(** The same split in exact integers. *)
Lemma range_partition_additive_witness :
  0 <= 5 <= 27 /\
  pts_run id 1 2 (0, 5) = inr ([tensor_zero; pts_tensor_111 id], [0; 1]) /\
  pts_run id 1 2 (5, 27) = inr ([pts_tensor_333 id; tensor_zero], [3; 0]) /\
  pts_run id 1 2 (0, 27)
  = inr (result_add ([tensor_zero; pts_tensor_111 id], [0; 1])
                    ([pts_tensor_333 id; tensor_zero], [3; 0])).
Proof.
  split; [lia|]. split; [vm_compute; reflexivity|]. split; [vm_compute; reflexivity|].
  apply (range_partition_additive (F:=Z) (H:=exactZ) inverse_permutation Z.add_0_r
           Z.add_assoc
           (pts_mesh id 1) [3; 1] [3; 1] [3; 1] [5; 4; 2] [1; 4; 1] [1; 4; 1] [2; 3; 1]
           2 5 27); [lia|].
  exists ([tensor_zero; pts_tensor_111 id], [0; 1]),
         ([pts_tensor_333 id; tensor_zero], [3; 0]).
  split; [vm_compute; reflexivity|]. split; [vm_compute; reflexivity | reflexivity].
Defined.

(** ** C8 *)



(** ** C9 *)

(** C9 fails on binary64.  The two samples share the point (3,3,3).  With
    the positive radius [2^-600] the square of the radius is 0, the test
    [0 < 0] fails and the weight 5 of the shared point is not added: the
    weight sum is 0.  With the radius 2 and the weight infinity, every
    entry of the tensor is NaN, the product of zero and infinity having
    been added to it. *)
Lemma zero_separation_not_counted :
  PrimFloat.ltb (f_int 0) MoreFixtures.tiny = true /\
  MoreFixtures.self_pair_run f_int (f_int 5) MoreFixtures.tiny
  = inr ([tensor_zero], [f_int 0]) /\
  PrimFloat.ltb (f_int 0) (f_int 2) = true /\
  MoreFixtures.self_pair_run f_int PrimFloat.infinity (f_int 2)
  = inr ([MoreFixtures.tensor_nan], [PrimFloat.infinity]).
Proof. repeat split; vm_compute; reflexivity. Qed.

(** The same samples in exact rationals, the radius 2: the weight sum is
    the weight 5 of the shared point and the weight 7 of the other; the
    tensor is that of the other point alone. *)
Lemma zero_separation_pair_witness :
  MoreFixtures.self_pair_run inject_Z 5%Q 2%Q
  = inr ([MoreFixtures.tensor_y 7%Q], [12%Q]) /\
  weight_within_others MoreFixtures.self_pair_L_Q 0 0 = 7%Q /\
  exists t w,
    [MoreFixtures.tensor_y 7%Q] !! 0%nat = Some t /\
    [12%Q] !! 0%nat = Some w /\
    (w == rd 0 (w2_sorted MoreFixtures.self_pair_L_Q) 0
          + weight_within_others MoreFixtures.self_pair_L_Q 0 0)%Q /\
    forall a b,
      (entry a b t
       == entry a b (tensor_within_others MoreFixtures.self_pair_L_Q 0 0))%Q.
Proof.
  split; [vm_compute; reflexivity|]. split; [vm_compute; reflexivity|].
  apply (zero_separation_pair inverse_permutation (MoreFixtures.self_pair_mesh inject_Z)
           [3%Q] [3%Q] [3%Q] [3%Q; 3%Q] [3%Q; 2%Q] [3%Q; 3%Q] [5%Q; 7%Q] 2%Q 0 27
           MoreFixtures.self_pair_L_Q [MoreFixtures.tensor_y 7%Q] [12%Q] 0%nat 0 0);
    try (vm_compute; reflexivity); try discriminate.
  - exists 13. split; [lia|]. unfold in_cell. vm_compute.
    split; [discriminate | reflexivity].
  - vm_compute. split; [discriminate | reflexivity].
Defined.

(** The same on the integers. *)
Example self_pair_run_Z :
  MoreFixtures.self_pair_run id 5 2 = inr ([MoreFixtures.tensor_y 7], [12]).
Proof. vm_compute. reflexivity. Qed.

(** ** C10 *)

Lemma engine_leaves_inputs_unmodified_witness :
  pts_store_run id = inr (int_store_after, (16%nat, 15%nat)) /\
  int_store_after !! 0%nat = pts_store id !! 0%nat /\
  int_store_after !! 3%nat = pts_store id !! 3%nat.
Proof.
  split; [vm_compute; reflexivity|].
  split;
    apply (engine_leaves_inputs_unmodified (F:=Z) (H:=exactZ) inverse_permutation (pts_store id)
             int_store_after (pts_mesh id 1) 0%nat 0%nat 0%nat 1%nat 2%nat 2%nat 3%nat
             2 (0, 27) (16%nat, 15%nat));
    try (vm_compute; reflexivity); repeat constructor.
Defined.

(** * Concrete runs of the further facts *)

Import MoreFixtures.

(** ** Buffers, errors and the range of cells *)

Lemma engine_returns_on_valid_buffers_witness :
  buffers_ok (inverse_permutation [1; 0]) (pts_mesh id 1)
    [3; 1] [3; 1] [3; 1] [5; 4; 2] [1; 4; 1] [1; 4; 1] [2; 3; 1] (0, 27) = true /\
  exists T W, pts_run id 1 2 (0, 27) = inr (T, W) /\ length T = 2%nat /\ length W = 2%nat.
Proof.
  split; [vm_compute; reflexivity|].
  apply (engine_returns_on_valid_buffers (F:=Z) (H:=exactZ) inverse_permutation
           (pts_mesh id 1) [3; 1] [3; 1] [3; 1] [5; 4; 2] [1; 4; 1] [1; 4; 1] [2; 3; 1]
           2 (0, 27)).
  vm_compute. reflexivity.
Defined.

(** The sorting permutation of mesh 1 has the index 1; the array of x
    coordinates of sample 1 has one entry. *)
Lemma engine_IndexError_witness :
  conversions_ok (pts_mesh id 1) (0, 27) = true /\
  sorting_indices_ok (pts_mesh id 1)
    [3] [3; 1] [3; 1] [5; 4; 2] [1; 4; 1] [1; 4; 1] [2; 3; 1] = false /\
  inertia_tensor_per_object_engine inverse_permutation (pts_mesh id 1)
    [3] [3; 1] [3; 1] [5; 4; 2] [1; 4; 1] [1; 4; 1] [2; 3; 1] 2 (0, 27)
  = inl IndexError.
Proof.
  split; [vm_compute; reflexivity|]. split; [vm_compute; reflexivity|].
  apply (engine_IndexError (F:=Z) (H:=exactZ)); vm_compute; reflexivity.
Defined.

Lemma engine_ZeroDivisionError_witness :
  conversions_ok no_xdivs_mesh (0, 1) = true /\
  sorting_indices_ok no_xdivs_mesh
    [3; 1] [3; 1] [3; 1] [5; 4; 2] [1; 4; 1] [1; 4; 1] [2; 3; 1] = true /\
  Z.of_nat (length (idx_sorted (mesh1 no_xdivs_mesh))) < 2 ^ 31 /\
  covering_steps_ok no_xdivs_mesh = true /\
  divs_ok no_xdivs_mesh = true /\
  mesh1_has_zero_divs no_xdivs_mesh = true /\
  inertia_tensor_per_object_engine inverse_permutation no_xdivs_mesh
    [3; 1] [3; 1] [3; 1] [5; 4; 2] [1; 4; 1] [1; 4; 1] [2; 3; 1] 2 (0, 1)
  = inl ZeroDivisionError.
Proof.
  split; [vm_compute; reflexivity|]. split; [vm_compute; reflexivity|].
  split; [vm_compute; reflexivity|]. split; [vm_compute; reflexivity|].
  split; [vm_compute; reflexivity|]. split; [vm_compute; reflexivity|].
  apply (engine_ZeroDivisionError (F:=Z) (H:=exactZ)); vm_compute; reflexivity.
Defined.

(** A range of cells that starts at [2^63], which no [int64] holds. *)
Lemma engine_OverflowError_witness :
  conversions_ok (pts_mesh id 1) (2 ^ 63, 0) = false /\
  pts_run id 1 2 (2 ^ 63, 0) = inl OverflowError.
Proof.
  split; [vm_compute; reflexivity|].
  apply (engine_OverflowError (F:=Z) (H:=exactZ)). vm_compute. reflexivity.
Defined.

(** The integer points on binary64. *)
Lemma engine_pairs_once_witness :
  exists L st,
    pts_locals f_int 1 (f_int 2) = inr L /\
    for_ (events L 0 27) (on_event (pair_block L)) (accum_zero (length (x1_sorted L)))
    = inr st /\
    np_take (sum_weights st) (inverse_permutation (idx_sorted (mesh1 (pts_mesh f_int 1))))
    = inr [f_int 3; f_int 1] /\
    np_take (inertia_tensor st)
      (inverse_permutation (idx_sorted (mesh1 (pts_mesh f_int 1))))
    = inr [pts_tensor_333 f_int; pts_tensor_111 f_int] /\
    (indices_ok L 0 27 = true -> window_fits L = true -> NoDup (ev_pq <$> events L 0 27)).
Proof.
  apply (engine_pairs_once inverse_permutation (pts_mesh f_int 1)
           [f_int 3; f_int 1] [f_int 3; f_int 1] [f_int 3; f_int 1]
           [f_int 5; f_int 4; f_int 2] [f_int 1; f_int 4; f_int 1]
           [f_int 1; f_int 4; f_int 1] [f_int 2; f_int 3; f_int 1] (f_int 2) 0 27).
  vm_compute. reflexivity.
Defined.

(** The point (2,1,1) of sample 2, of weight 1, against a point of sample
    1 at the same place, on binary64. *)
Lemma coincident_pair_binary64_witness :
  finite64 (f_int 2) = true /\ finite64 (f_int 1) = true /\
  PrimFloat.ltb PrimFloat.zero (rsmooth_squared (pts_L f_int 1 (f_int 2))) = true /\
  pair_block (pts_L f_int 1 (f_int 2)) 0 (f_int 2) (f_int 1) (f_int 1) 0 (accum_zero 2)
  = inr {| inertia_tensor := [tensor_zero; tensor_zero];
           sum_weights := [f_int 1; f_int 0] |}.
Proof.
  split; [reflexivity|]. split; [reflexivity|]. split; [reflexivity|].
  etransitivity;
    [apply (coincident_pair_binary64 (pts_L f_int 1 (f_int 2)) 0 (f_int 2) (f_int 1)
              (f_int 1) 0 (accum_zero 2) (f_int 1) tensor_zero (f_int 0));
       try reflexivity; repeat split; exact zero_not_neg_zero
    | vm_compute; reflexivity].
Defined.

Lemma empty_range_gives_zeros_witness :
  3 <= 7 /\
  pts_run id 1 2 (7, 3) = inr ([tensor_zero; tensor_zero], [0; 0]) /\
  Forall (fun t => t = tensor_zero) [tensor_zero (F:=Z); tensor_zero] /\
  Forall (fun w => w = 0) [0; 0].
Proof.
  split; [lia|]. split; [vm_compute; reflexivity|].
  apply (empty_range_gives_zeros (F:=Z) (H:=exactZ) inverse_permutation (pts_mesh id 1)
           [3; 1] [3; 1] [3; 1] [5; 4; 2] [1; 4; 1] [1; 4; 1] [2; 3; 1] 2 7 3);
    [lia | vm_compute; reflexivity].
Defined.

(** The range of the cells 0, ..., 4 holds the point (1,1,1), of cell 0,
    and not the point (3,3,3), of cell 13, which is the second of the
    sorted points and the first of the result. *)
Lemma point_outside_range_gets_zeros_witness :
  pts_run id 1 2 (0, 5) = inr ([tensor_zero; pts_tensor_111 id], [0; 1]) /\
  inverse_permutation (idx_sorted (mesh1 (pts_mesh id 1))) !! 0%nat = Some 1 /\
  0 <= 1 /\
  (forall c, 0 <= c < 5 -> ~ in_cell (cell_id_indices (mesh1 (pts_mesh id 1))) c 1) /\
  [tensor_zero; pts_tensor_111 id] !! 0%nat = Some tensor_zero /\
  [0; 1] !! 0%nat = Some 0.
Proof.
  assert (Hout : forall c, 0 <= c < 5 ->
            ~ in_cell (cell_id_indices (mesh1 (pts_mesh id 1))) c 1).
  { intros c Hc.
    assert (Hcs : c = 0 \/ c = 1 \/ c = 2 \/ c = 3 \/ c = 4) by lia.
    unfold in_cell.
    destruct Hcs as [-> | [-> | [-> | [-> | ->]]]]; vm_compute; intros [H1 H2];
      first [now apply H1 | discriminate]. }
  split; [vm_compute; reflexivity|]. split; [reflexivity|]. split; [lia|].
  split; [exact Hout|].
  apply (point_outside_range_gets_zeros (F:=Z) (H:=exactZ) inverse_permutation
           (pts_mesh id 1) [3; 1] [3; 1] [3; 1] [5; 4; 2] [1; 4; 1] [1; 4; 1] [2; 3; 1]
           2 0 5 [tensor_zero; pts_tensor_111 id] [0; 1] 0%nat 1);
    [vm_compute; reflexivity | reflexivity | lia | exact Hout].
Defined.

Lemma returning_call_reads_cells_inside_witness :
  pts_run id 1 2 (0, 27) = inr ([pts_tensor_333 id; pts_tensor_111 id], [3; 1]) /\
  0 < 27 /\
  0 <= 0 /\ 27 < Z.of_nat (length (cell_id_indices (mesh1 (pts_mesh id 1)))).
Proof.
  split; [vm_compute; reflexivity|]. split; [lia|].
  apply (returning_call_reads_cells_inside (F:=Z) (H:=exactZ) inverse_permutation
           (pts_mesh id 1) [3; 1] [3; 1] [3; 1] [5; 4; 2] [1; 4; 1] [1; 4; 1] [2; 3; 1]
           2 0 27 [pts_tensor_333 id; pts_tensor_111 id] [3; 1]);
    [vm_compute; reflexivity | lia].
Defined.

(** ** The covering steps and the cell ids *)

(** The search length 1 and cells of size 2: one covering step. *)
Lemma covering_steps_least_cover_witness :
  wrap_locals_Q = inr wrap_L_Q /\
  (0 < 2)%Q /\
  ((inject_Z (1 - 1) * 2 < 1)%Q /\ (1 <= inject_Z 1 * 2)%Q).
Proof.
  split; [reflexivity|]. split; [reflexivity|].
  apply (covering_steps_least_cover (wrap_mesh 2%Q 10%Q 1%Q 1)
           [1 # 2]%Q [0%Q] [0%Q] [48 # 5]%Q [0%Q] [0%Q] [1%Q] 1%Q wrap_L_Q);
    reflexivity.
Defined.

(** The cell (1,1,1) of the 3 x 3 x 3 grid has the id 13. *)
Lemma cell_id_round_trip_witness :
  0 < num_y1divs (pts_L id 1 2) /\ 0 < num_z1divs (pts_L id 1 2) /\
  (ix1_of (pts_L id 1 2) 13 = 1 /\ iy1_of (pts_L id 1 2) 13 = 1
   /\ iz1_of (pts_L id 1 2) 13 = 1).
Proof.
  split; [reflexivity|]. split; [reflexivity|].
  apply (proj1 (cell_id_round_trip (pts_L id 1 2) eq_refl eq_refl) 1 1 1);
    simpl; lia.
Defined.

(** ** Invariants of the accumulators *)

Lemma tensor_positive_semidefinite_witness :
  Forall (Qle 0) [inject_Z 2; inject_Z 3; inject_Z 1] /\
  pts_run inject_Z 1 2%Q (0, 27) = inr pts_result_Q /\
  (0 <= quadratic_form (pts_tensor_333 inject_Z) 1 (-1) 0)%Q.
Proof.
  assert (Hw : Forall (Qle 0) [inject_Z 2; inject_Z 3; inject_Z 1])
    by (repeat constructor; discriminate).
  split; [exact Hw|]. split; [vm_compute; reflexivity|].
  apply (tensor_positive_semidefinite inverse_permutation (pts_mesh inject_Z 1)
           [inject_Z 3; inject_Z 1] [inject_Z 3; inject_Z 1] [inject_Z 3; inject_Z 1]
           [inject_Z 5; inject_Z 4; inject_Z 2] [inject_Z 1; inject_Z 4; inject_Z 1]
           [inject_Z 1; inject_Z 4; inject_Z 1] [inject_Z 2; inject_Z 3; inject_Z 1]
           2%Q (0, 27) (fst pts_result_Q) (snd pts_result_Q) Hw)
    with (i := 0%nat); vm_compute; reflexivity.
Defined.

Lemma trace_at_most_radius_squared_times_weight_witness :
  Forall (Qle 0) [inject_Z 2; inject_Z 3; inject_Z 1] /\
  pts_run inject_Z 1 2%Q (0, 27) = inr pts_result_Q /\
  (trace (pts_tensor_333 inject_Z) <= 2 * 2 * 3)%Q.
Proof.
  assert (Hw : Forall (Qle 0) [inject_Z 2; inject_Z 3; inject_Z 1])
    by (repeat constructor; discriminate).
  split; [exact Hw|]. split; [vm_compute; reflexivity|].
  apply (trace_at_most_radius_squared_times_weight inverse_permutation
           (pts_mesh inject_Z 1)
           [inject_Z 3; inject_Z 1] [inject_Z 3; inject_Z 1] [inject_Z 3; inject_Z 1]
           [inject_Z 5; inject_Z 4; inject_Z 2] [inject_Z 1; inject_Z 4; inject_Z 1]
           [inject_Z 1; inject_Z 4; inject_Z 1] [inject_Z 2; inject_Z 3; inject_Z 1]
           2%Q (0, 27) (fst pts_result_Q) (snd pts_result_Q) Hw)
    with (i := 0%nat); vm_compute; reflexivity.
Defined.

(** ** Additivity in the weights *)

Lemma weights_additive_witness :
  length [2; 3; 1] = length [1; 1; 1] /\
  pts_run_weights [2; 3; 1] = inr ([pts_tensor_333 id; pts_tensor_111 id], [3; 1]) /\
  pts_run_weights [1; 1; 1] = inr (pts_result_weights [1; 1; 1]) /\
  pts_run_weights [3; 4; 2]
  = inr (result_add ([pts_tensor_333 id; pts_tensor_111 id], [3; 1])
           (pts_result_weights [1; 1; 1])).
Proof.
  split; [reflexivity|]. split; [vm_compute; reflexivity|].
  split; [vm_compute; reflexivity|].
  apply (weights_additive (F:=Z) (H:=exactZ) inverse_permutation
           (eq_refl : (0 + 0 = 0)%Z) Z.mul_add_distr_l Z.add_shuffle1
           (pts_mesh id 1) [3; 1] [3; 1] [3; 1] [5; 4; 2] [1; 4; 1] [1; 4; 1]
           [2; 3; 1] [1; 1; 1] 2 (0, 27));
    [reflexivity | vm_compute; reflexivity | vm_compute; reflexivity].
Defined.

(** ** NaN and the radius zero *)

Lemma nan_radius_gives_zeros_witness :
  pts_run f_int 1 nan (0, 27)
  = inr ([tensor_zero; tensor_zero], [PrimFloat.zero; PrimFloat.zero]) /\
  Forall (fun t => t = tensor_zero) [tensor_zero (F:=float); tensor_zero] /\
  Forall (fun w => w = PrimFloat.zero) [PrimFloat.zero; PrimFloat.zero].
Proof.
  split; [vm_compute; reflexivity|].
  apply (nan_radius_gives_zeros inverse_permutation (pts_mesh f_int 1)
           [f_int 3; f_int 1] [f_int 3; f_int 1] [f_int 3; f_int 1]
           [f_int 5; f_int 4; f_int 2] [f_int 1; f_int 4; f_int 1]
           [f_int 1; f_int 4; f_int 1] [f_int 2; f_int 3; f_int 1] (0, 27)).
  vm_compute. reflexivity.
Defined.

(** The first of the sorted points of sample 2 is (2,1,1); the x
    coordinate of the point of sample 1 is NaN. *)
Lemma nan_coordinate_contributes_nothing_witness :
  at_ (x2_sorted (pts_L f_int 1 (f_int 2))) 0 = inr (f_int 2) /\
  at_ (y2_sorted (pts_L f_int 1 (f_int 2))) 0 = inr (f_int 1) /\
  at_ (z2_sorted (pts_L f_int 1 (f_int 2))) 0 = inr (f_int 1) /\
  pair_block (pts_L f_int 1 (f_int 2)) 0 nan (f_int 1) (f_int 1) 0 (accum_zero 2)
  = inr {| inertia_tensor := [tensor_zero; tensor_zero];
           sum_weights := [PrimFloat.zero; PrimFloat.zero] |} /\
  {| inertia_tensor := [tensor_zero; tensor_zero];
     sum_weights := [PrimFloat.zero; PrimFloat.zero] |} = accum_zero (F:=float) 2.
Proof.
  split; [reflexivity|]. split; [reflexivity|]. split; [reflexivity|].
  split; [vm_compute; reflexivity|].
  apply (nan_coordinate_contributes_nothing (pts_L f_int 1 (f_int 2)) 0
           nan (f_int 1) (f_int 1) 0 (f_int 2) (f_int 1) (f_int 1));
    [reflexivity | reflexivity | reflexivity | left; reflexivity
     | vm_compute; reflexivity].
Defined.

Lemma zero_radius_gives_zeros_witness :
  (0 == 0)%Q /\
  pts_run inject_Z 1 0%Q (0, 27) = inr ([tensor_zero; tensor_zero], [0%Q; 0%Q]) /\
  Forall (fun t => t = tensor_zero) [tensor_zero (F:=Q); tensor_zero] /\
  Forall (fun w => w = 0%Q) [0%Q; 0%Q].
Proof.
  split; [reflexivity|]. split; [vm_compute; reflexivity|].
  apply (zero_radius_gives_zeros inverse_permutation (pts_mesh inject_Z 1)
           [inject_Z 3; inject_Z 1] [inject_Z 3; inject_Z 1] [inject_Z 3; inject_Z 1]
           [inject_Z 5; inject_Z 4; inject_Z 2] [inject_Z 1; inject_Z 4; inject_Z 1]
           [inject_Z 1; inject_Z 4; inject_Z 1] [inject_Z 2; inject_Z 3; inject_Z 1]
           0%Q (0, 27));
    [reflexivity | vm_compute; reflexivity].
Defined.

(** ** The weight within the radius *)

(** The point (3,3,3) of sample 1, the second of the sorted points and the
    first of the result, has the one neighbour (4,4,4) of weight 3. *)
Lemma weight_sum_is_weight_within_witness :
  pts_locals inject_Z 1 2%Q = inr pts_L_Q /\
  indices_ok pts_L_Q 0 27 = true /\
  window_fits pts_L_Q = true /\
  Geometry.geometry_ok (pts_mesh inject_Z 1) pts_L_Q 2%Q 0 27 = true /\
  cells_cover pts_L_Q = true /\
  (PBCs pts_L_Q =? 0) || (PBCs pts_L_Q =? 1) = true /\
  pts_run inject_Z 1 2%Q (0, 27) = inr pts_result_Q /\
  (weight_within pts_L_Q 1 == 3)%Q /\
  exists w, snd pts_result_Q !! 0%nat = Some w /\ (w == weight_within pts_L_Q 1)%Q.
Proof.
  split; [reflexivity|]. split; [vm_compute; reflexivity|].
  split; [vm_compute; reflexivity|]. split; [vm_compute; reflexivity|].
  split; [vm_compute; reflexivity|]. split; [reflexivity|].
  split; [vm_compute; reflexivity|]. split; [vm_compute; reflexivity|].
  apply (weight_sum_is_weight_within inverse_permutation (pts_mesh inject_Z 1)
           [inject_Z 3; inject_Z 1] [inject_Z 3; inject_Z 1] [inject_Z 3; inject_Z 1]
           [inject_Z 5; inject_Z 4; inject_Z 2] [inject_Z 1; inject_Z 4; inject_Z 1]
           [inject_Z 1; inject_Z 4; inject_Z 1] [inject_Z 2; inject_Z 3; inject_Z 1]
           2%Q 0 27 pts_L_Q (fst pts_result_Q) (snd pts_result_Q) 0%nat 1);
    try (vm_compute; reflexivity); try reflexivity; [lia|].
  exists 13. split; [lia|]. unfold in_cell. vm_compute.
  split; [discriminate | reflexivity].
Defined.

(** The first point of sample 1, (3,3,3), and the points of sample 2 in the
    order of the arguments: only (4,4,4), of weight 3, is close to it. *)
Lemma weight_sum_in_argument_order_witness :
  pts_locals inject_Z 1 2%Q = inr pts_L_Q /\
  indices_ok pts_L_Q 0 27 = true /\
  window_fits pts_L_Q = true /\
  Geometry.geometry_ok (pts_mesh inject_Z 1) pts_L_Q 2%Q 0 27 = true /\
  cells_cover pts_L_Q = true /\
  (PBCs pts_L_Q =? 0) || (PBCs pts_L_Q =? 1) = true /\
  [2; 0; 1] ≡ₚ seqZ 0 3 /\
  pts_run inject_Z 1 2%Q (0, 27) = inr pts_result_Q /\
  (weight_close (pts_mesh inject_Z 1) 2 (inject_Z 3) (inject_Z 3) (inject_Z 3)
     [inject_Z 5; inject_Z 4; inject_Z 2] [inject_Z 1; inject_Z 4; inject_Z 1]
     [inject_Z 1; inject_Z 4; inject_Z 1] [inject_Z 2; inject_Z 3; inject_Z 1] == 3)%Q /\
  exists w, snd pts_result_Q !! 0%nat = Some w /\
    (w == weight_close (pts_mesh inject_Z 1) 2 (inject_Z 3) (inject_Z 3) (inject_Z 3)
            [inject_Z 5; inject_Z 4; inject_Z 2] [inject_Z 1; inject_Z 4; inject_Z 1]
            [inject_Z 1; inject_Z 4; inject_Z 1] [inject_Z 2; inject_Z 3; inject_Z 1])%Q.
Proof.
  assert (Hperm : [2; 0; 1] ≡ₚ seqZ 0 3).
  { change (seqZ 0 3) with [0; 1; 2].
    exact (perm_trans (perm_swap 0 2 [1]) (perm_skip 0 (perm_swap 1 2 []))). }
  split; [reflexivity|]. split; [vm_compute; reflexivity|].
  split; [vm_compute; reflexivity|]. split; [vm_compute; reflexivity|].
  split; [vm_compute; reflexivity|]. split; [reflexivity|].
  split; [exact Hperm|].
  split; [vm_compute; reflexivity|]. split; [vm_compute; reflexivity|].
  apply (weight_sum_in_argument_order inverse_permutation (pts_mesh inject_Z 1)
           [inject_Z 3; inject_Z 1] [inject_Z 3; inject_Z 1] [inject_Z 3; inject_Z 1]
           [inject_Z 5; inject_Z 4; inject_Z 2] [inject_Z 1; inject_Z 4; inject_Z 1]
           [inject_Z 1; inject_Z 4; inject_Z 1] [inject_Z 2; inject_Z 3; inject_Z 1]
           2%Q 0 27 pts_L_Q (fst pts_result_Q) (snd pts_result_Q) 0%nat 1);
    try (vm_compute; reflexivity); try reflexivity; [exact Hperm | lia |].
  exists 13. split; [lia|]. unfold in_cell. vm_compute.
  split; [discriminate | reflexivity].
Defined.

(** ** The marking functions *)

(** The first point of sample 1, (3,3,3): only (4,4,4), of weight 3, is
    close to it, at the separation (-1,-1,-1), so that every entry of its
    tensor is 3. *)
Lemma tensor_in_argument_order_witness :
  pts_locals inject_Z 1 2%Q = inr pts_L_Q /\
  indices_ok pts_L_Q 0 27 = true /\
  window_fits pts_L_Q = true /\
  Geometry.geometry_ok (pts_mesh inject_Z 1) pts_L_Q 2%Q 0 27 = true /\
  cells_cover pts_L_Q = true /\
  (PBCs pts_L_Q =? 0) || (PBCs pts_L_Q =? 1) = true /\
  [2; 0; 1] ≡ₚ seqZ 0 3 /\
  pts_run inject_Z 1 2%Q (0, 27) = inr pts_result_Q /\
  (entry X_axis Y_axis
     (tensor_close (pts_mesh inject_Z 1) 2 (inject_Z 3) (inject_Z 3) (inject_Z 3)
        [inject_Z 5; inject_Z 4; inject_Z 2] [inject_Z 1; inject_Z 4; inject_Z 1]
        [inject_Z 1; inject_Z 4; inject_Z 1] [inject_Z 2; inject_Z 3; inject_Z 1]) == 3)%Q /\
  exists t, fst pts_result_Q !! 0%nat = Some t /\
    forall a b,
      (entry a b t
       == entry a b
            (tensor_close (pts_mesh inject_Z 1) 2 (inject_Z 3) (inject_Z 3) (inject_Z 3)
               [inject_Z 5; inject_Z 4; inject_Z 2] [inject_Z 1; inject_Z 4; inject_Z 1]
               [inject_Z 1; inject_Z 4; inject_Z 1] [inject_Z 2; inject_Z 3; inject_Z 1]))%Q.
Proof.
  assert (Hperm : [2; 0; 1] ≡ₚ seqZ 0 3).
  { change (seqZ 0 3) with [0; 1; 2].
    exact (perm_trans (perm_swap 0 2 [1]) (perm_skip 0 (perm_swap 1 2 []))). }
  split; [reflexivity|]. split; [vm_compute; reflexivity|].
  split; [vm_compute; reflexivity|]. split; [vm_compute; reflexivity|].
  split; [vm_compute; reflexivity|]. split; [reflexivity|].
  split; [exact Hperm|].
  split; [vm_compute; reflexivity|]. split; [vm_compute; reflexivity|].
  apply (tensor_in_argument_order inverse_permutation (pts_mesh inject_Z 1)
           [inject_Z 3; inject_Z 1] [inject_Z 3; inject_Z 1] [inject_Z 3; inject_Z 1]
           [inject_Z 5; inject_Z 4; inject_Z 2] [inject_Z 1; inject_Z 4; inject_Z 1]
           [inject_Z 1; inject_Z 4; inject_Z 1] [inject_Z 2; inject_Z 3; inject_Z 1]
           2%Q 0 27 pts_L_Q (fst pts_result_Q) (snd pts_result_Q) 0%nat 1);
    try (vm_compute; reflexivity); try reflexivity; [exact Hperm | lia |].
  exists 13. split; [lia|]. unfold in_cell. vm_compute.
  split; [discriminate | reflexivity].
Defined.

Section MarkingRuns.

Import Reals Lra.
Local Open Scope R_scope.

(** The orientation (1/2, 0), the separation (1, 0): the cosine is 1/2, the
    angle 60 degrees. *)
Lemma gamma_plus_func_cases_witness :
  0 < 1 /\
  1 / 2 = (1 / 2 * (1 - 0) + 0 * (0 - 0)) / sqrt 1 /\
  -1 < 1 / 2 < 1 /\
  gamma_plus_func [1 / 2; 0; 3] [0; 0; 5] 0 0 1 0 1
  = inr (3 * 5 * (2 * (1 / 2) * (1 / 2) - 1)).
Proof.
  assert (Ec : 1 / 2 = (1 / 2 * (1 - 0) + 0 * (0 - 0)) / sqrt 1)
    by (rewrite sqrt_1; lra).
  split; [lra|]. split; [exact Ec|]. split; [lra|].
  apply (gamma_plus_func_cases (1 / 2) 0 3 0 0 5 0 0 1 0 1 (1 / 2) ltac:(lra) Ec).
  lra.
Defined.

Lemma gamma_cross_func_value_witness :
  0 < 1 /\
  1 / 2 = (1 / 2 * (1 - 0) + 0 * (0 - 0)) / sqrt 1 /\
  -1 <= 1 / 2 <= 1 /\
  gamma_cross_func [1 / 2; 0; 3] [0; 0; 5] 0 0 1 0 1
  = inr (3 * 5 * (2 * sqrt (1 - 1 / 2 * (1 / 2)) * (1 / 2))).
Proof.
  assert (Ec : 1 / 2 = (1 / 2 * (1 - 0) + 0 * (0 - 0)) / sqrt 1)
    by (rewrite sqrt_1; lra).
  split; [lra|]. split; [exact Ec|]. split; [lra|].
  apply (gamma_cross_func_value (1 / 2) 0 3 0 0 5 0 0 1 0 1 (1 / 2) ltac:(lra) Ec).
  lra.
Defined.

Lemma gamma_marks_norm_witness :
  0 < 1 /\
  1 / 2 = (1 / 2 * (1 - 0) + 0 * (0 - 0)) / sqrt 1 /\
  -1 < 1 / 2 < 1 /\
  exists gp gc : R,
    gamma_plus_func [1 / 2; 0; 3] [0; 0; 5] 0 0 1 0 1 = inr gp /\
    gamma_cross_func [1 / 2; 0; 3] [0; 0; 5] 0 0 1 0 1 = inr gc /\
    gp * gp + gc * gc = (3 * 5) * (3 * 5).
Proof.
  assert (Ec : 1 / 2 = (1 / 2 * (1 - 0) + 0 * (0 - 0)) / sqrt 1)
    by (rewrite sqrt_1; lra).
  split; [lra|]. split; [exact Ec|]. split; [lra|].
  apply (gamma_marks_norm (1 / 2) 0 3 0 0 5 0 0 1 0 1 (1 / 2) ltac:(lra) Ec).
  lra.
Defined.

Lemma gamma_marks_exchange_witness :
  0 < 1 /\
  1 / 2 = (1 / 2 * (1 - 0) + 0 * (0 - 0)) / sqrt 1 /\
  -1 < 1 / 2 < 1 /\
  exists gp gc : R,
    gamma_plus_func [1 / 2; 0; 3] [0; 0; 5] 0 0 1 0 1 = inr gp /\
    gamma_plus_func [1 / 2; 0; 3] [0; 0; 5] 1 0 0 0 1 = inr gp /\
    gamma_cross_func [1 / 2; 0; 3] [0; 0; 5] 0 0 1 0 1 = inr gc /\
    gamma_cross_func [1 / 2; 0; 3] [0; 0; 5] 1 0 0 0 1 = inr (- gc).
Proof.
  assert (Ec : 1 / 2 = (1 / 2 * (1 - 0) + 0 * (0 - 0)) / sqrt 1)
    by (rewrite sqrt_1; lra).
  split; [lra|]. split; [exact Ec|]. split; [lra|].
  apply (gamma_marks_exchange (1 / 2) 0 3 0 0 5 0 0 1 0 1 (1 / 2) ltac:(lra) Ec).
  lra.
Defined.

End MarkingRuns.
